(** * A shallow embedding of the MuseList library engine, sharing codec and
    search flow ([src/App.tsx], [src/types.ts], [src/services/geminiService]).

    JavaScript strings are modelled as lists of UTF-16 code units ([Z]);
    platform functions whose exact definition the code does not fix (the
    locale-dependent [toLowerCase] and [localeCompare], [crypto.randomUUID],
    the clock) are section variables, so that every theorem holds for every
    behaviour of them. *)

From Stdlib Require Import String Ascii ZArith Lia Bool List Permutation Sorted.
Import ListNotations.
Open Scope Z_scope.
Set Warnings "-register-all".

(* ------------------------------------------------------------------ *)
(** ** JavaScript strings *)

Definition jsstring := list Z.

Fixpoint jseqb (a b : jsstring) : bool :=
  match a, b with
  | [], [] => true
  | x :: a', y :: b' => Z.eqb x y && jseqb a' b'
  | _, _ => false
  end.

Lemma jseqb_eq (a b : jsstring) : jseqb a b = true <-> a = b.
Proof.
  revert b; induction a as [|x a IH]; intros [|y b]; simpl; split; intro H;
    try discriminate; try reflexivity.
  - apply andb_prop in H as [H1 H2]. apply Z.eqb_eq in H1.
    apply IH in H2. subst. reflexivity.
  - injection H as -> ->. rewrite Z.eqb_refl. simpl. apply IH. reflexivity.
Qed.

Lemma jseqb_refl (a : jsstring) : jseqb a a = true.
Proof. apply jseqb_eq. reflexivity. Qed.

(** String literals of the source, written with Rocq's (ASCII) literals. *)
Definition js (s : string) : jsstring :=
  map (fun c => Z.of_nat (nat_of_ascii c)) (list_ascii_of_string s).
Arguments js s%_string.

(** [String.prototype.trim]: WhiteSpace and LineTerminator code points. *)
Definition isJsWhiteSpace (c : Z) : bool :=
  (c =? 9) || (c =? 10) || (c =? 11) || (c =? 12) || (c =? 13) || (c =? 32)
  || (c =? 160) || (c =? 5760) || ((8192 <=? c) && (c <=? 8202))
  || (c =? 8232) || (c =? 8233) || (c =? 8239) || (c =? 8287)
  || (c =? 12288) || (c =? 65279).

Fixpoint dropWhite (s : jsstring) : jsstring :=
  match s with
  | [] => []
  | c :: s' => if isJsWhiteSpace c then dropWhite s' else s
  end.

Definition trim (s : jsstring) : jsstring := rev (dropWhite (rev (dropWhite s))).

(** JavaScript truthiness of a string: only the empty string is falsy. *)
Definition truthy (s : jsstring) : bool :=
  match s with [] => false | _ => true end.

(** Decimal rendering of a non-negative counter (template literal of a number). *)
Fixpoint digitsAux (fuel : nat) (n : nat) (acc : jsstring) : jsstring :=
  match fuel with
  | O => acc
  | S f =>
      let d := Z.of_nat (Nat.modulo n 10) + 48 in
      if Nat.ltb n 10 then d :: acc else digitsAux f (Nat.div n 10) (d :: acc)
  end.

Definition natToJs (n : nat) : jsstring := digitsAux (S n) n [].

(* ------------------------------------------------------------------ *)
(** ** Data model ([src/types.ts]) *)

Inductive ItemType := BOOK | MOVIE | GAME.
Inductive ItemStatus := WANT_TO | IN_PROGRESS | COMPLETED.

Definition itemType_eqb (a b : ItemType) : bool :=
  match a, b with
  | BOOK, BOOK | MOVIE, MOVIE | GAME, GAME => true
  | _, _ => false
  end.

Lemma itemType_eqb_eq (a b : ItemType) : itemType_eqb a b = true <-> a = b.
Proof. destruct a, b; simpl; split; congruence. Qed.

Module Memory.
Record t := mk {
  id : jsstring;
  imageData : jsstring;
  caption : jsstring;
  sourceLocation : option jsstring;
  addedAt : jsstring
}.
End Memory.

Module MediaItem.
Record t := mk {
  id : jsstring;
  title : jsstring;
  originalTitle : option jsstring;
  type : ItemType;
  creator : jsstring;
  year : jsstring;
  description : jsstring;
  status : ItemStatus;
  rating : option Z;
  review : option jsstring;
  memories : list Memory.t;
  addedAt : jsstring;
  collectionIds : list jsstring;
  coverUrl : option jsstring;
  collaborators : option (list jsstring)
}.
End MediaItem.

Module UserCollection.
Record t := mk {
  id : jsstring;
  title : jsstring;
  description : option jsstring;
  type : ItemType;
  createdAt : jsstring
}.
End UserCollection.

(** [{ ...item, collectionIds }] *)
Definition withCollectionIds (i : MediaItem.t) (cs : list jsstring) : MediaItem.t :=
  MediaItem.mk (MediaItem.id i) (MediaItem.title i) (MediaItem.originalTitle i)
    (MediaItem.type i) (MediaItem.creator i) (MediaItem.year i)
    (MediaItem.description i) (MediaItem.status i) (MediaItem.rating i)
    (MediaItem.review i) (MediaItem.memories i) (MediaItem.addedAt i) cs
    (MediaItem.coverUrl i) (MediaItem.collaborators i).

(** [{ ...item, collaborators }] *)
Definition withCollaborators (i : MediaItem.t) (cs : list jsstring) : MediaItem.t :=
  MediaItem.mk (MediaItem.id i) (MediaItem.title i) (MediaItem.originalTitle i)
    (MediaItem.type i) (MediaItem.creator i) (MediaItem.year i)
    (MediaItem.description i) (MediaItem.status i) (MediaItem.rating i)
    (MediaItem.review i) (MediaItem.memories i) (MediaItem.addedAt i)
    (MediaItem.collectionIds i) (MediaItem.coverUrl i) (Some cs).


(** [Partial<MediaItem>]: the descriptor fields a shared collection carries. *)
Module SharedItem.
Record t := mk {
  title : option jsstring;
  type : option ItemType;
  creator : option jsstring;
  year : option jsstring;
  description : option jsstring;
  coverUrl : option jsstring
}.
End SharedItem.

Module SharedCollectionPayload.
Record t := mk {
  title : jsstring;
  type : ItemType;
  sharer : option jsstring;
  items : list SharedItem.t
}.
End SharedCollectionPayload.

Module SharedItemPayload.
Record t := mk {
  item : MediaItem.t;
  sharer : jsstring
}.
End SharedItemPayload.

(** [x || d] on an optional string: [undefined] and [''] fall back to [d]. *)
Definition orElse (x : option jsstring) (d : jsstring) : jsstring :=
  match x with Some s => if truthy s then s else d | None => d end.

(** [Array.from(new Set(xs))]: first occurrences, in insertion order. *)
Definition setAdd (s : list jsstring) (x : jsstring) : list jsstring :=
  if existsb (jseqb x) s then s else s ++ [x].

Definition setFromList (xs : list jsstring) : list jsstring := fold_left setAdd xs [].

(** [Array.prototype.findIndex] / [find] *)
Fixpoint findIndex {A} (p : A -> bool) (l : list A) : option nat :=
  match l with
  | [] => None
  | x :: l' => if p x then Some O else option_map S (findIndex p l')
  end.

(** [next[k] = v] on an array of which [k] is an index. *)
Fixpoint replaceAt {A} (k : nat) (v : A) (l : list A) : list A :=
  match l, k with
  | [], _ => []
  | _ :: l', O => v :: l'
  | x :: l', S k' => x :: replaceAt k' v l'
  end.

Inductive ToastKind := ToastSuccess | ToastError | ToastInfo.

(** The part of the [App] component state the handlers below read and write.
    [uuidSeed] counts the calls made so far to [crypto.randomUUID]. *)
Record AppState := mkState {
  items : list MediaItem.t;
  userCollections : list UserCollection.t;
  toast : option (jsstring * ToastKind);
  uuidSeed : nat
}.

Definition setItems (st : AppState) (f : list MediaItem.t -> list MediaItem.t) : AppState :=
  mkState (f (items st)) (userCollections st) (toast st) (uuidSeed st).

Definition setUserCollections (st : AppState)
    (f : list UserCollection.t -> list UserCollection.t) : AppState :=
  mkState (items st) (f (userCollections st)) (toast st) (uuidSeed st).

Definition showToast (st : AppState) (msg : jsstring) (k : ToastKind) : AppState :=
  mkState (items st) (userCollections st) (Some (msg, k)) (uuidSeed st).

Section Engine.

(** The values [crypto.randomUUID()] returns, call after call. *)
Variable randomUUIDs : nat -> jsstring.
(** [new Date().toISOString()] while the handler runs. *)
Variable nowISO : jsstring.
(** [String.prototype.toLowerCase] (locale-independent, but its Unicode
    tables are left open). *)
Variable toLowerCase : jsstring -> jsstring.

Definition randomUUID (st : AppState) : jsstring * AppState :=
  (randomUUIDs (uuidSeed st),
   mkState (items st) (userCollections st) (toast st) (S (uuidSeed st))).

(** [handleRemoveFromSearch] *)
Definition handleRemoveFromSearch (st : AppState)
    (rTitle rCreator : jsstring) (rType : ItemType) : AppState :=
  setItems st (filter (fun i =>
    negb (jseqb (MediaItem.title i) rTitle && jseqb (MediaItem.creator i) rCreator
          && itemType_eqb (MediaItem.type i) rType))).

(** [handleUpdateItem] (the [selectedItem] mirror is not modelled). *)
Definition handleUpdateItem (st : AppState) (updated : MediaItem.t) : AppState :=
  setItems st (map (fun i =>
    if jseqb (MediaItem.id i) (MediaItem.id updated) then updated else i)).

(** [handleItemCollectionUpdate] *)
Definition handleItemCollectionUpdate (st : AppState) (itemId : jsstring)
    (cids : list jsstring) : AppState :=
  setItems st (map (fun i =>
    if jseqb (MediaItem.id i) itemId then withCollectionIds i cids else i)).

(** [handleCreateCollection]: returns the new id, or [None] for [null]. *)
Definition handleCreateCollection (st : AppState) (title description : jsstring)
    (itemType : ItemType) : option jsstring * AppState :=
  let trimmedTitle := trim title in
  if negb (truthy trimmedTitle) then (None, st) else
  let exists_ := existsb (fun c =>
      itemType_eqb (UserCollection.type c) itemType
      && jseqb (toLowerCase (UserCollection.title c)) (toLowerCase trimmedTitle))
      (userCollections st) in
  if exists_ then
    (None, showToast st (js "A collection with this name already exists.") ToastError)
  else
    let (id, st1) := randomUUID st in
    let newCol := UserCollection.mk id trimmedTitle (Some description) itemType nowISO in
    (Some id, setUserCollections st1 (fun prev => prev ++ [newCol])).

(** [handleDeleteCollection] (the [activeCollectionId] reset is not modelled). *)
Definition handleDeleteCollection (st : AppState) (collectionId : jsstring) : AppState :=
  let st1 := setItems st (map (fun item =>
       withCollectionIds item
         (filter (fun id => negb (jseqb id collectionId)) (MediaItem.collectionIds item)))) in
  setUserCollections st1 (filter (fun c => negb (jseqb (UserCollection.id c) collectionId))).


(** [handleAcceptEdit], given the pending [SharedItemPayload]. *)
Definition handleAcceptEdit (st : AppState) (pendingEdit : SharedItemPayload.t) : AppState :=
  let item := SharedItemPayload.item pendingEdit in
  let sharer := SharedItemPayload.sharer pendingEdit in
  let collaborators :=
    setAdd (setFromList (match MediaItem.collaborators item with
                         | Some cs => cs | None => [] end)) sharer in
  let updatedItem := withCollaborators item collaborators in
  match findIndex (fun i => jseqb (MediaItem.id i) (MediaItem.id item)) (items st) with
  | Some existingIndex =>
      showToast (setItems st (replaceAt existingIndex updatedItem))
        (js "Card updated from shared edit.") ToastSuccess
  | None =>
      showToast (setItems st (fun prev => updatedItem :: prev))
        (js "Card updated from shared edit.") ToastSuccess
  end.

(** The [while] loop of [handleImportCollection] that picks a title;
    [fuel] bounds the number of iterations, [None] when it is exhausted. *)
Fixpoint resolveTitle (fuel : nat) (cols : list UserCollection.t) (ty : ItemType)
    (baseTitle titleToUse : jsstring) (counter : nat) : option jsstring :=
  match fuel with
  | O => None
  | S f =>
      if existsb (fun c => itemType_eqb (UserCollection.type c) ty
                    && jseqb (toLowerCase (UserCollection.title c)) (toLowerCase titleToUse)) cols
      then resolveTitle f cols ty baseTitle
             (baseTitle ++ js " (" ++ natToJs counter ++ js ")") (S counter)
      else Some titleToUse
  end.

Definition importBaseTitle (payload : SharedCollectionPayload.t) : jsstring :=
  SharedCollectionPayload.title payload ++ js " " ++
  match SharedCollectionPayload.sharer payload with
  | Some s => if truthy s then js "(Shared by " ++ s ++ js ")" else js "(Imported)"
  | None => js "(Imported)"
  end.

(** [i.title === s.title && i.creator === s.creator && i.type === s.type] *)
Definition sameDescriptor (i : MediaItem.t) (s : SharedItem.t) : bool :=
  match SharedItem.title s, SharedItem.creator s, SharedItem.type s with
  | Some t, Some c, Some ty =>
      jseqb (MediaItem.title i) t && jseqb (MediaItem.creator i) c
      && itemType_eqb (MediaItem.type i) ty
  | _, _, _ => false
  end.

Definition findExisting (library : list MediaItem.t) (s : SharedItem.t) : option MediaItem.t :=
  find (fun i => sameDescriptor i s) library.

Definition newSharedItem (id nid : jsstring) (payloadType : ItemType)
    (s : SharedItem.t) : MediaItem.t :=
  MediaItem.mk id (orElse (SharedItem.title s) (js "Unknown")) None
    (match SharedItem.type s with Some ty => ty | None => payloadType end)
    (orElse (SharedItem.creator s) (js "Unknown"))
    (orElse (SharedItem.year s) [])
    (orElse (SharedItem.description s) [])
    WANT_TO None None [] nowISO [nid] (SharedItem.coverUrl s) None.

(** The [payload.items.forEach] body, over the [items] the handler closed over. *)
Fixpoint importItems (library : list MediaItem.t) (nid : jsstring) (payloadType : ItemType)
    (sis : list SharedItem.t) (st : AppState) (newItems : list MediaItem.t)
    : AppState * list MediaItem.t :=
  match sis with
  | [] => (st, newItems)
  | s :: sis' =>
      match findExisting library s with
      | Some existingItem =>
          importItems library nid payloadType sis'
            (handleItemCollectionUpdate st (MediaItem.id existingItem)
               (MediaItem.collectionIds existingItem ++ [nid])) newItems
      | None =>
          let (id, st1) := randomUUID st in
          importItems library nid payloadType sis' st1
            (newItems ++ [newSharedItem id nid payloadType s])
      end
  end.

(** [handleImportCollection] once the title to use is known. *)
Definition importWithTitle (st : AppState) (payload : SharedCollectionPayload.t)
    (titleToUse : jsstring) : AppState :=
  match handleCreateCollection st titleToUse [] (SharedCollectionPayload.type payload) with
  | (None, st1) => st1
  | (Some nid, st1) =>
      let (st2, newItems) :=
        importItems (items st) nid (SharedCollectionPayload.type payload)
          (SharedCollectionPayload.items payload) st1 [] in
      let st3 := match newItems with
                 | [] => st2
                 | _ => setItems st2 (fun prev => newItems ++ prev)
                 end in
      showToast st3 (js "Collection imported successfully!") ToastSuccess
  end.

(** [handleImportCollection]; [None] when the title loop runs past [fuel]. *)
Definition handleImportCollection (fuel : nat) (st : AppState)
    (payload : SharedCollectionPayload.t) : option AppState :=
  let baseTitle := importBaseTitle payload in
  match resolveTitle fuel (userCollections st) (SharedCollectionPayload.type payload)
          baseTitle baseTitle 1 with
  | None => None
  | Some titleToUse => Some (importWithTitle st payload titleToUse)
  end.

(** Repeated imports, one after the other. *)
Fixpoint importAll (fuel : nat) (st : AppState)
    (payloads : list SharedCollectionPayload.t) : option AppState :=
  match payloads with
  | [] => Some st
  | p :: ps =>
      match handleImportCollection fuel st p with
      | None => None
      | Some st1 => importAll fuel st1 ps
      end
  end.

End Engine.


(** The items an import creates for the unmatched descriptors [sis], the
    [k]-th taking the [k]-th UUID from [seed] on. *)
Fixpoint importedNewItems (randomUUIDs : nat -> jsstring) (nowISO : jsstring)
    (nid : jsstring) (payloadType : ItemType) (seed : nat) (sis : list SharedItem.t)
    : list MediaItem.t :=
  match sis with
  | [] => []
  | s :: sis' => newSharedItem nowISO (randomUUIDs seed) nid payloadType s
                 :: importedNewItems randomUUIDs nowISO nid payloadType (S seed) sis'
  end.

(** No two collections of the same type have case-insensitively equal titles. *)
Definition NoDupTitles (toLowerCase : jsstring -> jsstring) (cs : list UserCollection.t) : Prop :=
  forall i j c d, i <> j -> nth_error cs i = Some c -> nth_error cs j = Some d ->
    UserCollection.type c = UserCollection.type d ->
    toLowerCase (UserCollection.title c) <> toLowerCase (UserCollection.title d).

(** How an item of the library stands after the links made for the processed
    descriptors [pre]. *)
Definition linkedAs (library : list MediaItem.t) (nid : jsstring)
    (pre : list SharedItem.t) (i i' : MediaItem.t) : Prop :=
  (i' = i /\ forall s e, In s pre -> findExisting library s = Some e ->
                         MediaItem.id e <> MediaItem.id i) \/
  (exists s, In s pre /\ findExisting library s = Some i /\
             i' = withCollectionIds i (MediaItem.collectionIds i ++ [nid])).

(** A descriptor for which the import creates a new item. *)
Definition isNewDescriptor (library : list MediaItem.t) (s : SharedItem.t) : bool :=
  match findExisting library s with None => true | Some _ => false end.

(** Concrete instances of the platform functions, for evaluating the model:
    [toLowerCase] on the ASCII letters and a counter-based [randomUUID]. *)
Definition asciiToLowerCase (s : jsstring) : jsstring :=
  map (fun c => if (65 <=? c) && (c <=? 90) then c + 32 else c) s.

Definition counterUUIDs (n : nat) : jsstring := js "id-" ++ natToJs n.

(** The library and payload of the specification's import example. *)
Definition exampleLibrary : AppState :=
  mkState [MediaItem.mk (js "dune-1") (js "Dune") None BOOK (js "Frank Herbert")
             (js "1965") (js "...") COMPLETED (Some 5) None [] (js "2020") [] None None]
          [] None 0.

Definition examplePayload : SharedCollectionPayload.t :=
  SharedCollectionPayload.mk (js "Favorites") BOOK None
    [SharedItem.mk (Some (js "Dune")) (Some BOOK) (Some (js "Frank Herbert"))
       (Some (js "1965")) (Some (js "...")) None;
     SharedItem.mk (Some (js "Foundation")) (Some BOOK) (Some (js "Isaac Asimov"))
       (Some (js "1951")) (Some (js "...")) None].

(* ------------------------------------------------------------------ *)
(** ** Sorting ([getSortedItems]) *)

(** [SortCompare] of [Array.prototype.sort]: the comparator's result, a
    number; [None] stands for NaN, which counts as [+0]. *)
Definition sortCompare (v : option Z) : Z :=
  match v with Some z => z | None => 0 end.

(** [Array.prototype.sort] with a comparator: the sort is stable (ES2019),
    so for a consistent comparator its result is the stable sorted
    permutation, computed here by insertion. *)
Fixpoint insertBy {A} (cmp : A -> A -> option Z) (x : A) (l : list A) : list A :=
  match l with
  | [] => [x]
  | y :: l' => if sortCompare (cmp x y) <=? 0 then x :: l else y :: insertBy cmp x l'
  end.

Fixpoint arraySort {A} (cmp : A -> A -> option Z) (l : list A) : list A :=
  match l with
  | [] => []
  | x :: l' => insertBy cmp x (arraySort cmp l')
  end.

Inductive SortCriteria := DATE | TITLE | RATING.
Inductive SortOrder := ASC | DESC.

Section Sorting.

(** [new Date(s).getTime()]; [None] for an invalid date (NaN). *)
Variable getTime : jsstring -> option Z.
(** [String.prototype.localeCompare] in the host's default locale. *)
Variable localeCompare : jsstring -> jsstring -> Z.

(** [(item.rating || 0)] *)
Definition ratingOr0 (i : MediaItem.t) : Z :=
  match MediaItem.rating i with Some r => r | None => 0 end.

(** The [comparison] computed in the [switch] of [getSortedItems]. *)
Definition comparison (sortCriteria : SortCriteria) (a b : MediaItem.t) : option Z :=
  match sortCriteria with
  | DATE =>
      match getTime (MediaItem.addedAt a), getTime (MediaItem.addedAt b) with
      | Some x, Some y => Some (x - y)
      | _, _ => None
      end
  | TITLE => Some (localeCompare (MediaItem.title a) (MediaItem.title b))
  | RATING => Some (ratingOr0 a - ratingOr0 b)
  end.

(** [sortOrder === 'ASC' ? comparison : -comparison] *)
Definition sortComparator (sortCriteria : SortCriteria) (sortOrder : SortOrder)
    (a b : MediaItem.t) : option Z :=
  match sortOrder with
  | ASC => comparison sortCriteria a b
  | DESC => option_map Z.opp (comparison sortCriteria a b)
  end.

(** [getSortedItems] *)
Definition getSortedItems (sortCriteria : SortCriteria) (sortOrder : SortOrder)
    (l : list MediaItem.t) : list MediaItem.t :=
  arraySort (sortComparator sortCriteria sortOrder) l.

End Sorting.

(** The sort keys of a list are pairwise distinct: items at different
    positions never compare equal. *)
Definition NonDegenerate {A} (cmp : A -> A -> option Z) (l : list A) : Prop :=
  forall i j a b, i <> j -> nth_error l i = Some a -> nth_error l j = Some b ->
    sortCompare (cmp a b) <> 0.

(** A consistent comparator (as [Array.prototype.sort] requires): the sign
    flips with the arguments and "less than" is transitive. *)
Definition Consistent {A} (cmp : A -> A -> option Z) : Prop :=
  (forall a b, Z.sgn (sortCompare (cmp b a)) = - Z.sgn (sortCompare (cmp a b))) /\
  (forall a b d, sortCompare (cmp a b) < 0 -> sortCompare (cmp b d) < 0 ->
                 sortCompare (cmp a d) < 0).

(** Code-unit order of strings, a concrete [localeCompare]. *)
Fixpoint codeUnitCompare (a b : jsstring) : Z :=
  match a, b with
  | [], [] => 0
  | [], _ => -1
  | _, [] => 1
  | x :: a', y :: b' =>
      if x <? y then -1 else if y <? x then 1 else codeUnitCompare a' b'
  end.

(* ------------------------------------------------------------------ *)
(** ** Searching: [handleSearch], [handleStopSearch] and the offline
    [searchMedia] (a 1.5 s timer that an abort signal clears). *)

Module SearchResult.
Record t := mk {
  title : jsstring;
  type : ItemType;
  creator : jsstring;
  year : jsstring;
  description : jsstring
}.
End SearchResult.

Definition SearchResults : Type := (list SearchResult.t * list SearchResult.t)%type.

Definition emptyResults : SearchResults := ([], []).

(** The value [searchMedia] resolves with when its timer fires;
    [year] is [new Date().getFullYear().toString()] at that moment. *)
Definition placeholderResults (query : jsstring) (ty : ItemType) (year : jsstring)
    : SearchResults :=
  ([SearchResult.mk query ty (js "Unknown Creator") year
      (js "Custom entry. Add to library to edit details.")], []).

(** An [AbortController] is named by the number of its creation. A pending
    timer remembers its controller and the query and type the request was
    made with. *)
Record SearchState := mkSearchState {
  abortControllerRef : option nat;
  abortedSignals : list nat;
  pendingTimers : list (nat * jsstring * ItemType);
  searchResults : SearchResults;
  loading : bool;
  nextController : nat
}.

(** [abortControllerRef.current === controller] *)
Definition isCurrent (c : nat) (ref : option nat) : bool :=
  match ref with Some c' => Nat.eqb c' c | None => false end.

Definition timerOf (c : nat) (t : nat * jsstring * ItemType) : bool :=
  Nat.eqb (fst (fst t)) c.

(** [controller.abort()]: the signal is marked aborted and its listener
    runs at once: [clearTimeout(timer)] and the request's promise rejects
    with an [AbortError]. *)
Definition abortController (c : nat) (s : SearchState) : SearchState :=
  mkSearchState (abortControllerRef s) (c :: abortedSignals s)
    (filter (fun t => negb (timerOf c t)) (pendingTimers s))
    (searchResults s) (loading s) (nextController s).

(** The continuation of [await searchMedia(...)] after a rejection: the
    [catch] only logs; [finally] compares the tracked controller with the
    request's own before clearing the loading flag and the ref. It runs as
    a microtask, after the synchronous code that caused the rejection. *)
Definition rejectContinuation (c : nat) (s : SearchState) : SearchState :=
  if isCurrent c (abortControllerRef s)
  then mkSearchState None (abortedSignals s) (pendingTimers s)
         (searchResults s) false (nextController s)
  else s.

(** The continuation after a resolution: [setSearchResults(results)] is
    unconditional; only the [finally] block is guarded by the identity
    comparison. *)
Definition resolveContinuation (c : nat) (results : SearchResults) (s : SearchState)
    : SearchState :=
  let s1 := mkSearchState (abortControllerRef s) (abortedSignals s) (pendingTimers s)
              results (loading s) (nextController s) in
  if isCurrent c (abortControllerRef s1)
  then mkSearchState None (abortedSignals s1) (pendingTimers s1)
         (searchResults s1) false (nextController s1)
  else s1.

(** [handleSearch]: synchronous part up to the [await], then the
    microtask of the request it aborted (if any). *)
Definition handleSearch (searchQuery : jsstring) (activeType : ItemType)
    (s : SearchState) : SearchState :=
  if Nat.eqb (length (trim searchQuery)) 0 then s else
  let (s1, prev) :=
    match abortControllerRef s with
    | Some c => (abortController c s, Some c)
    | None => (s, None)
    end in
  let controller := nextController s1 in
  let s2 := mkSearchState (Some controller) (abortedSignals s1)
              (pendingTimers s1 ++ [(controller, searchQuery, activeType)])
              emptyResults true (S controller) in
  match prev with
  | Some c => rejectContinuation c s2
  | None => s2
  end.

(** [handleStopSearch]. *)
Definition handleStopSearch (s : SearchState) : SearchState :=
  match abortControllerRef s with
  | Some c =>
      let s1 := abortController c s in
      rejectContinuation c
        (mkSearchState None (abortedSignals s1) (pendingTimers s1)
           (searchResults s1) false (nextController s1))
  | None => s
  end.

(** The effect on [activeType] or [view] changes, as far as the search is
    concerned: the results are cleared and a pending search is aborted. *)
Definition resetSearch (s : SearchState) : SearchState :=
  let s0 := mkSearchState (abortControllerRef s) (abortedSignals s) (pendingTimers s)
              emptyResults (loading s) (nextController s) in
  match abortControllerRef s0 with
  | Some c =>
      let s1 := abortController c s0 in
      rejectContinuation c
        (mkSearchState None (abortedSignals s1) (pendingTimers s1)
           (searchResults s1) false (nextController s1))
  | None => s0
  end.

(** A pending timer of controller [c] fires: the callback checks the
    signal, then resolves with the placeholder results; the continuation
    of the awaiting [handleSearch] runs in the microtasks that follow. *)
Definition fireTimer (c : nat) (year : jsstring) (s : SearchState) : SearchState :=
  match find (timerOf c) (pendingTimers s) with
  | None => s
  | Some (_, query, ty) =>
      let s1 := mkSearchState (abortControllerRef s) (abortedSignals s)
                  (filter (fun t => negb (timerOf c t)) (pendingTimers s))
                  (searchResults s) (loading s) (nextController s) in
      if existsb (Nat.eqb c) (abortedSignals s1)
      then rejectContinuation c s1
      else resolveContinuation c (placeholderResults query ty year) s1
  end.

(** The events of the page, each run to completion with its microtasks. *)
Inductive SearchEvent :=
| Search (searchQuery : jsstring) (activeType : ItemType)
| StopSearch
| ResetView
| TimerFires (controller : nat) (year : jsstring).

Definition searchStep (s : SearchState) (e : SearchEvent) : SearchState :=
  match e with
  | Search q ty => handleSearch q ty s
  | StopSearch => handleStopSearch s
  | ResetView => resetSearch s
  | TimerFires c y => fireTimer c y s
  end.

Definition initialSearchState : SearchState :=
  mkSearchState None [] [] emptyResults false 0.

Definition runSearch (events : list SearchEvent) : SearchState :=
  fold_left searchStep events initialSearchState.

(** The query and type of the latest search that started a request. *)
Fixpoint lastSearch (events : list SearchEvent) : option (jsstring * ItemType) :=
  match events with
  | [] => None
  | e :: rest =>
      match lastSearch rest with
      | Some r => Some r
      | None =>
          match e with
          | Search q ty => if Nat.eqb (length (trim q)) 0 then None else Some (q, ty)
          | _ => None
          end
      end
  end.

(* ------------------------------------------------------------------ *)
(** ** Share links: the built-in codecs they go through *)

(** [ItemType] values are the strings ['BOOK'], ['MOVIE'], ['GAME']. *)
Definition itemTypeName (t : ItemType) : jsstring :=
  match t with BOOK => js "BOOK" | MOVIE => js "MOVIE" | GAME => js "GAME" end.

Definition isCodeUnit (c : Z) : bool := (0 <=? c) && (c <? 65536).

Definition isLeadSurrogate (c : Z) : bool := (55296 <=? c) && (c <=? 56319).
Definition isTrailSurrogate (c : Z) : bool := (56320 <=? c) && (c <=? 57343).

Definition hexDigitLower (n : Z) : Z := if n <? 10 then 48 + n else 87 + n.
Definition hexDigitUpper (n : Z) : Z := if n <? 10 then 48 + n else 55 + n.

Definition hexValue (c : Z) : option Z :=
  if (48 <=? c) && (c <=? 57) then Some (c - 48)
  else if (65 <=? c) && (c <=? 70) then Some (c - 55)
  else if (97 <=? c) && (c <=? 102) then Some (c - 87)
  else None.

(** *** [JSON.stringify] *)

(** The JavaScript values the share payloads are built from. *)
Inductive jsval :=
| JsUndefined
| JsNull
| JsBool (b : bool)
| JsString (s : jsstring)
| JsArray (elems : list jsval)
| JsObject (props : list (jsstring * jsval)).

(** [UnicodeEscape(C)]: [\u] and four lowercase hex digits. *)
Definition unicodeEscape (c : Z) : jsstring :=
  [92; 117; hexDigitLower (c / 4096 mod 16); hexDigitLower (c / 256 mod 16);
   hexDigitLower (c / 16 mod 16); hexDigitLower (c mod 16)].

(** [QuoteJSONString] (ES2019 and later): the short escapes, [\u00XX] for
    the other control characters, a surrogate pair copied as it is and a
    lone surrogate written as [\uXXXX]. *)
Fixpoint quoteChars (s : jsstring) : jsstring :=
  match s with
  | [] => []
  | c :: rest =>
      if c =? 8 then 92 :: 98 :: quoteChars rest
      else if c =? 9 then 92 :: 116 :: quoteChars rest
      else if c =? 10 then 92 :: 110 :: quoteChars rest
      else if c =? 12 then 92 :: 102 :: quoteChars rest
      else if c =? 13 then 92 :: 114 :: quoteChars rest
      else if c =? 34 then 92 :: 34 :: quoteChars rest
      else if c =? 92 then 92 :: 92 :: quoteChars rest
      else if c <? 32 then unicodeEscape c ++ quoteChars rest
      else if isLeadSurrogate c then
        match rest with
        | d :: rest' =>
            if isTrailSurrogate d then c :: d :: quoteChars rest'
            else unicodeEscape c ++ quoteChars rest
        | [] => unicodeEscape c
        end
      else if isTrailSurrogate c then unicodeEscape c ++ quoteChars rest
      else c :: quoteChars rest
  end.

Definition QuoteJSONString (s : jsstring) : jsstring := 34 :: quoteChars s ++ [34].

Fixpoint joinComma (parts : list jsstring) : jsstring :=
  match parts with
  | [] => []
  | [p] => p
  | p :: rest => p ++ 44 :: joinComma rest
  end.

(** [SerializeJSONProperty] without a replacer or indentation: [None] is
    [undefined]; an undefined array element becomes [null] and an object
    property whose value is undefined is left out. (The payloads of this
    file contain no numbers, so none are modelled.) *)
Fixpoint stringifyValue (v : jsval) : option jsstring :=
  match v with
  | JsUndefined => None
  | JsNull => Some (js "null")
  | JsBool true => Some (js "true")
  | JsBool false => Some (js "false")
  | JsString s => Some (QuoteJSONString s)
  | JsArray elems =>
      Some (91 :: joinComma (map (fun e => match stringifyValue e with
                                            | Some t => t
                                            | None => js "null"
                                            end) elems) ++ [93])
  | JsObject props =>
      Some (123 :: joinComma (flat_map (fun '(k, e) => match stringifyValue e with
                                                      | Some t => [QuoteJSONString k ++ 58 :: t]
                                                      | None => []
                                                      end) props) ++ [125])
  end.

Definition JSON_stringify (v : jsval) : option jsstring := stringifyValue v.

(** *** [JSON.parse] *)

(** The values [JSON.parse] builds; a number keeps its lexeme. *)
Inductive json :=
| JNull
| JBool (b : bool)
| JNum (lexeme : jsstring)
| JStr (s : jsstring)
| JArr (elems : list json)
| JObj (members : list (jsstring * json)).

Definition isJsonWhiteSpace (c : Z) : bool := (c =? 9) || (c =? 10) || (c =? 13) || (c =? 32).

Fixpoint skipWs (s : jsstring) : jsstring :=
  match s with
  | c :: rest => if isJsonWhiteSpace c then skipWs rest else s
  | [] => []
  end.

Definition consUnit (c : Z) (r : option (jsstring * jsstring)) : option (jsstring * jsstring) :=
  match r with Some (t, rest) => Some (c :: t, rest) | None => None end.

(** The characters of a string literal after its opening quote, up to and
    including the closing quote. *)
Fixpoint parseStringChars (s : jsstring) : option (jsstring * jsstring) :=
  match s with
  | [] => None
  | c :: rest =>
      if c =? 34 then Some ([], rest)
      else if c =? 92 then
        match rest with
        | [] => None
        | e :: rest1 =>
            if e =? 34 then consUnit 34 (parseStringChars rest1)
            else if e =? 92 then consUnit 92 (parseStringChars rest1)
            else if e =? 47 then consUnit 47 (parseStringChars rest1)
            else if e =? 98 then consUnit 8 (parseStringChars rest1)
            else if e =? 102 then consUnit 12 (parseStringChars rest1)
            else if e =? 110 then consUnit 10 (parseStringChars rest1)
            else if e =? 114 then consUnit 13 (parseStringChars rest1)
            else if e =? 116 then consUnit 9 (parseStringChars rest1)
            else if e =? 117 then
              match rest1 with
              | h1 :: h2 :: h3 :: h4 :: rest2 =>
                  match hexValue h1, hexValue h2, hexValue h3, hexValue h4 with
                  | Some a, Some b, Some d, Some f =>
                      consUnit (a * 4096 + b * 256 + d * 16 + f) (parseStringChars rest2)
                  | _, _, _, _ => None
                  end
              | _ => None
              end
            else None
        end
      else if c <? 32 then None
      else consUnit c (parseStringChars rest)
  end.

Definition isDigit (c : Z) : bool := (48 <=? c) && (c <=? 57).

Fixpoint spanDigits (s : jsstring) : jsstring * jsstring :=
  match s with
  | c :: rest =>
      if isDigit c then let (d, r) := spanDigits rest in (c :: d, r) else ([], s)
  | [] => ([], [])
  end.

Definition nonEmpty (s : jsstring) : option jsstring :=
  match s with [] => None | _ => Some s end.

(** A number: [-? (0 | [1-9][0-9]* ) (. [0-9]+)? ([eE] [+-]? [0-9]+)?]. *)
Definition parseNumber (s : jsstring) : option (jsstring * jsstring) :=
  let (sign, s1) := match s with 45 :: r => ([45], r) | _ => ([], s) end in
  let intPart :=
    match s1 with
    | 48 :: r => Some ([48], r)
    | c :: _ => if isDigit c then Some (spanDigits s1) else None
    | [] => None
    end in
  match intPart with
  | None => None
  | Some (ip, s2) =>
      let frac :=
        match s2 with
        | 46 :: r =>
            let (d, r') := spanDigits r in
            match d with [] => None | _ => Some (46 :: d, r') end
        | _ => Some ([], s2)
        end in
      match frac with
      | None => None
      | Some (fp, s3) =>
          let expo :=
            match s3 with
            | e :: r =>
                if (e =? 101) || (e =? 69) then
                  let (sg, r1) := match r with
                                  | 43 :: r' => ([43], r') | 45 :: r' => ([45], r')
                                  | _ => ([], r) end in
                  let (d, r2) := spanDigits r1 in
                  match d with [] => None | _ => Some (e :: sg ++ d, r2) end
                else Some ([], s3)
            | [] => Some ([], s3)
            end in
          match expo with
          | None => None
          | Some (ep, s4) => Some (sign ++ ip ++ fp ++ ep, s4)
          end
      end
  end.

Fixpoint stripPrefix (p s : jsstring) : option jsstring :=
  match p, s with
  | [], _ => Some s
  | a :: p', b :: s' => if a =? b then stripPrefix p' s' else None
  | _ :: _, [] => None
  end.

(** One JSON value after optional white space, with its remaining input.
    The recursion is bounded by [fuel]. *)
Fixpoint parseValue (fuel : nat) (s : jsstring) : option (json * jsstring) :=
  match fuel with
  | O => None
  | S fuel' =>
      match skipWs s with
      | [] => None
      | c :: rest =>
          if c =? 34 then
            match parseStringChars rest with
            | Some (t, r) => Some (JStr t, r)
            | None => None
            end
          else if c =? 91 then
            match skipWs rest with
            | 93 :: r => Some (JArr [], r)
            | _ =>
                match parseElements fuel' rest with
                | Some (vs, r) => Some (JArr vs, r)
                | None => None
                end
            end
          else if c =? 123 then
            match skipWs rest with
            | 125 :: r => Some (JObj [], r)
            | _ =>
                match parseMembers fuel' rest with
                | Some (ms, r) => Some (JObj ms, r)
                | None => None
                end
            end
          else if c =? 110 then
            match stripPrefix (js "ull") rest with Some r => Some (JNull, r) | None => None end
          else if c =? 116 then
            match stripPrefix (js "rue") rest with Some r => Some (JBool true, r) | None => None end
          else if c =? 102 then
            match stripPrefix (js "alse") rest with Some r => Some (JBool false, r) | None => None end
          else
            match parseNumber (c :: rest) with
            | Some (lx, r) => Some (JNum lx, r)
            | None => None
            end
      end
  end
(** Array elements up to and including the closing bracket. *)
with parseElements (fuel : nat) (s : jsstring) : option (list json * jsstring) :=
  match fuel with
  | O => None
  | S fuel' =>
      match parseValue fuel' s with
      | None => None
      | Some (v, r) =>
          match skipWs r with
          | 44 :: r' =>
              match parseElements fuel' r' with
              | Some (vs, r'') => Some (v :: vs, r'')
              | None => None
              end
          | 93 :: r' => Some ([v], r')
          | _ => None
          end
      end
  end
(** Object members up to and including the closing brace. *)
with parseMembers (fuel : nat) (s : jsstring) : option (list (jsstring * json) * jsstring) :=
  match fuel with
  | O => None
  | S fuel' =>
      match skipWs s with
      | 34 :: rest =>
          match parseStringChars rest with
          | None => None
          | Some (k, r) =>
              match skipWs r with
              | 58 :: r1 =>
                  match parseValue fuel' r1 with
                  | None => None
                  | Some (v, r2) =>
                      match skipWs r2 with
                      | 44 :: r3 =>
                          match parseMembers fuel' r3 with
                          | Some (ms, r4) => Some ((k, v) :: ms, r4)
                          | None => None
                          end
                      | 125 :: r3 => Some ([(k, v)], r3)
                      | _ => None
                      end
                  end
              | _ => None
              end
          end
      | _ => None
      end
  end.

(** [JSON.parse] without a reviver: one value and nothing but white space
    after it. Each recursive call consumes input, so the length of the text
    (plus one) is enough fuel. *)
Definition JSON_parse (s : jsstring) : option json :=
  match parseValue (S (length s)) s with
  | Some (v, r) => match skipWs r with [] => Some v | _ => None end
  | None => None
  end.

(** Property read on a parsed value: [JSON.parse] keeps the last of
    duplicate keys. *)
Fixpoint jsonGetMembers (ms : list (jsstring * json)) (k : jsstring) : option json :=
  match ms with
  | [] => None
  | (k', v) :: rest =>
      match jsonGetMembers rest k with
      | Some w => Some w
      | None => if jseqb k k' then Some v else None
      end
  end.

Definition jsonGet (v : json) (k : jsstring) : option json :=
  match v with JObj ms => jsonGetMembers ms k | _ => None end.

(** The text [JSON.stringify] writes for a parsed value (numbers as
    their lexeme). *)
Fixpoint serializeJson (v : json) : jsstring :=
  match v with
  | JNull => js "null"
  | JBool true => js "true"
  | JBool false => js "false"
  | JNum lx => lx
  | JStr s => QuoteJSONString s
  | JArr elems => 91 :: joinComma (map serializeJson elems) ++ [93]
  | JObj ms =>
      123 :: joinComma (map (fun '(k, e) => QuoteJSONString k ++ 58 :: serializeJson e) ms)
        ++ [125]
  end.

(** The value [JSON.parse] rebuilds from [JSON.stringify]'s text: an
    undefined element reads back as [null], an undefined property is gone. *)
Fixpoint jsvalToJson (v : jsval) : option json :=
  match v with
  | JsUndefined => None
  | JsNull => Some JNull
  | JsBool b => Some (JBool b)
  | JsString s => Some (JStr s)
  | JsArray elems =>
      Some (JArr (map (fun e => match jsvalToJson e with Some j => j | None => JNull end) elems))
  | JsObject props =>
      Some (JObj (flat_map (fun '(k, e) => match jsvalToJson e with
                                          | Some j => [(k, j)]
                                          | None => []
                                          end) props))
  end.

(** A bound on the recursion depth the parser needs for a value. *)
Fixpoint jsonSize (v : json) : nat :=
  match v with
  | JArr elems => S (fold_right (fun e n => S (jsonSize e + n)) O elems)
  | JObj ms => S (fold_right (fun '(_, e) n => S (jsonSize e + n)) O ms)
  | _ => 1%nat
  end.

(** Strings and keys hold code units only and no number occurs. *)
Fixpoint jsonStringsOk (v : json) : bool :=
  match v with
  | JNull | JBool _ => true
  | JNum _ => false
  | JStr s => forallb isCodeUnit s
  | JArr elems => forallb jsonStringsOk elems
  | JObj ms => forallb (fun '(k, e) => forallb isCodeUnit k && jsonStringsOk e) ms
  end.

(** Well-formed UTF-16: code units, and every surrogate in a pair. *)
Fixpoint wellFormedUTF16 (s : jsstring) : bool :=
  match s with
  | [] => true
  | c :: rest =>
      isCodeUnit c &&
      if isLeadSurrogate c then
        match rest with
        | d :: rest' => isTrailSurrogate d && wellFormedUTF16 rest'
        | [] => false
        end
      else negb (isTrailSurrogate c) && wellFormedUTF16 rest
  end.

(** *** [encodeURIComponent] and [decodeURIComponent] *)

(** The characters left as they are: ASCII letters, digits and
    [- _ . ! ~ * ' ( )]. *)
Definition isURIUnescaped (c : Z) : bool :=
  ((65 <=? c) && (c <=? 90)) || ((97 <=? c) && (c <=? 122)) || ((48 <=? c) && (c <=? 57)) ||
  existsb (Z.eqb c) [45; 95; 46; 33; 126; 42; 39; 40; 41].

(** The code point of a surrogate pair. *)
Definition UTF16SurrogatePairToCodePoint (lead trail : Z) : Z :=
  (lead - 55296) * 1024 + (trail - 56320) + 65536.

(** The UTF-8 octets of a code point. *)
Definition utf8Octets (cp : Z) : list Z :=
  if cp <? 128 then [cp]
  else if cp <? 2048 then [192 + cp / 64; 128 + cp mod 64]
  else if cp <? 65536 then [224 + cp / 4096; 128 + cp / 64 mod 64; 128 + cp mod 64]
  else [240 + cp / 262144; 128 + cp / 4096 mod 64; 128 + cp / 64 mod 64; 128 + cp mod 64].

Definition percentEncode (octets : list Z) : jsstring :=
  flat_map (fun b => [37; hexDigitUpper (b / 16); hexDigitUpper (b mod 16)]) octets.

(** [Encode(string, extraUnescaped)]: [None] is the [URIError] thrown on
    a lone surrogate. *)
Fixpoint encodeURIComponent (s : jsstring) : option jsstring :=
  match s with
  | [] => Some []
  | c :: rest =>
      if isURIUnescaped c then
        match encodeURIComponent rest with Some t => Some (c :: t) | None => None end
      else if isTrailSurrogate c then None
      else if isLeadSurrogate c then
        match rest with
        | d :: rest' =>
            if isTrailSurrogate d then
              match encodeURIComponent rest' with
              | Some t => Some (percentEncode (utf8Octets (UTF16SurrogatePairToCodePoint c d)) ++ t)
              | None => None
              end
            else None
        | [] => None
        end
      else
        match encodeURIComponent rest with
        | Some t => Some (percentEncode (utf8Octets c) ++ t)
        | None => None
        end
  end.

(** [%XY] at the start of a string: the octet and the rest. *)
Definition readOctet (s : jsstring) : option (Z * jsstring) :=
  match s with
  | 37 :: h :: l :: rest =>
      match hexValue h, hexValue l with
      | Some a, Some b => Some (a * 16 + b, rest)
      | _, _ => None
      end
  | _ => None
  end.

Fixpoint readContinuations (n : nat) (acc : Z) (s : jsstring) : option (Z * jsstring) :=
  match n with
  | O => Some (acc, s)
  | S n' =>
      match readOctet s with
      | Some (b, rest) =>
          if (128 <=? b) && (b <? 192) then readContinuations n' (acc * 64 + (b - 128)) rest
          else None
      | None => None
      end
  end.

(** [UTF16EncodeCodePoint]. *)
Definition UTF16EncodeCodePoint (cp : Z) : jsstring :=
  if cp <? 65536 then [cp]
  else [(cp - 65536) / 1024 + 55296; (cp - 65536) mod 1024 + 56320].

(** [Decode(string, reservedSet)] with an empty reserved set: [None] is
    the [URIError] thrown on a malformed escape or an invalid UTF-8
    sequence (overlong forms, surrogates and values above [U+10FFFF]
    included). *)
Fixpoint decodeURIAux (fuel : nat) (s : jsstring) : option jsstring :=
  match fuel with
  | O => None
  | S fuel' =>
      match s with
      | [] => Some []
      | c :: rest =>
          if negb (c =? 37) then
            match decodeURIAux fuel' rest with Some t => Some (c :: t) | None => None end
          else
            match readOctet s with
            | None => None
            | Some (b, rest1) =>
                let decoded :=
                  if b <? 128 then Some (b, rest1)
                  else if (192 <=? b) && (b <? 224) then
                    match readContinuations 1 (b - 192) rest1 with
                    | Some (cp, r) => if 128 <=? cp then Some (cp, r) else None
                    | None => None
                    end
                  else if (224 <=? b) && (b <? 240) then
                    match readContinuations 2 (b - 224) rest1 with
                    | Some (cp, r) =>
                        if (2048 <=? cp) && negb ((55296 <=? cp) && (cp <=? 57343))
                        then Some (cp, r) else None
                    | None => None
                    end
                  else if (240 <=? b) && (b <? 248) then
                    match readContinuations 3 (b - 240) rest1 with
                    | Some (cp, r) =>
                        if (65536 <=? cp) && (cp <=? 1114111) then Some (cp, r) else None
                    | None => None
                    end
                  else None in
                match decoded with
                | None => None
                | Some (cp, r) =>
                    match decodeURIAux fuel' r with
                    | Some t => Some (UTF16EncodeCodePoint cp ++ t)
                    | None => None
                    end
                end
            end
      end
  end.

Definition decodeURIComponent (s : jsstring) : option jsstring :=
  decodeURIAux (S (length s)) s.

(** *** [btoa] and [atob] (forgiving-base64) *)

Definition base64Char (n : Z) : Z :=
  if n <? 26 then 65 + n
  else if n <? 52 then 71 + n
  else if n <? 62 then n - 4
  else if n =? 62 then 43
  else 47.

Definition base64Value (c : Z) : option Z :=
  if (65 <=? c) && (c <=? 90) then Some (c - 65)
  else if (97 <=? c) && (c <=? 122) then Some (c - 71)
  else if (48 <=? c) && (c <=? 57) then Some (c + 4)
  else if c =? 43 then Some 62
  else if c =? 47 then Some 63
  else None.

Fixpoint base64Encode (bytes : list Z) : jsstring :=
  match bytes with
  | b0 :: b1 :: b2 :: rest =>
      base64Char (b0 / 4) :: base64Char (b0 mod 4 * 16 + b1 / 16) ::
      base64Char (b1 mod 16 * 4 + b2 / 64) :: base64Char (b2 mod 64) :: base64Encode rest
  | [b0; b1] =>
      [base64Char (b0 / 4); base64Char (b0 mod 4 * 16 + b1 / 16); base64Char (b1 mod 16 * 4); 61]
  | [b0] => [base64Char (b0 / 4); base64Char (b0 mod 4 * 16); 61; 61]
  | [] => []
  end.

Definition isByteb (c : Z) : bool := (0 <=? c) && (c <=? 255).

(** [btoa]: [None] is the [InvalidCharacterError] thrown on a code unit
    above U+00FF. *)
Definition btoa (s : jsstring) : option jsstring :=
  if forallb isByteb s then Some (base64Encode s) else None.

Definition isAsciiWhiteSpace (c : Z) : bool :=
  (c =? 9) || (c =? 10) || (c =? 12) || (c =? 13) || (c =? 32).

(** The 6-bit groups, decoded four at a time; two or three left over give
    one or two octets, the extra bits being dropped. *)
Fixpoint base64DecodeValues (vs : list Z) : option (list Z) :=
  match vs with
  | a :: b :: c :: d :: rest =>
      match base64DecodeValues rest with
      | Some t =>
          Some ((a * 4 + b / 16) :: (b mod 16 * 16 + c / 4) :: (c mod 4 * 64 + d) :: t)
      | None => None
      end
  | [a; b; c] => Some [a * 4 + b / 16; b mod 16 * 16 + c / 4]
  | [a; b] => Some [a * 4 + b / 16]
  | [_] => None
  | [] => Some []
  end.

Fixpoint mapOption {A B} (f : A -> option B) (l : list A) : option (list B) :=
  match l with
  | [] => Some []
  | x :: r =>
      match f x, mapOption f r with
      | Some y, Some ys => Some (y :: ys)
      | _, _ => None
      end
  end.

(** One or two trailing [=] removed. *)
Definition stripPadding (s : jsstring) : jsstring :=
  match rev s with
  | a :: b :: r => if a =? 61 then (if b =? 61 then rev r else rev (b :: r)) else s
  | [a] => if a =? 61 then [] else s
  | [] => []
  end.

(** [atob]: [None] is the [InvalidCharacterError] of a failed
    forgiving-base64 decode. *)
Definition atob (s : jsstring) : option jsstring :=
  let s1 := filter (fun c => negb (isAsciiWhiteSpace c)) s in
  let s2 := if Nat.eqb (Nat.modulo (length s1) 4) 0 then stripPadding s1 else s1 in
  if Nat.eqb (Nat.modulo (length s2) 4) 1 then None
  else
    match mapOption base64Value s2 with
    | Some vs => base64DecodeValues vs
    | None => None
    end.

(** *** Sharing a collection: [generateShareLink] and the decoding in
    [handlePreviewLink] *)

(** The descriptor of a shared item, as the object literal in
    [generateShareLink] builds it. *)
Definition sharedItemDescriptor (item : MediaItem.t) : jsval :=
  JsObject [(js "title", JsString (MediaItem.title item));
            (js "type", JsString (itemTypeName (MediaItem.type item)));
            (js "creator", JsString (MediaItem.creator item));
            (js "year", JsString (MediaItem.year item));
            (js "description", JsString (MediaItem.description item));
            (js "coverUrl", match MediaItem.coverUrl item with
                            | Some u => JsString u
                            | None => JsUndefined
                            end)].

Definition sharePayload (c : UserCollection.t) (collectionItems : list MediaItem.t)
    (sharer : option jsstring) : jsval :=
  JsObject [(js "title", JsString (UserCollection.title c));
            (js "type", JsString (itemTypeName (UserCollection.type c)));
            (js "sharer", match sharer with Some n => JsString n | None => JsUndefined end);
            (js "items", JsArray (map sharedItemDescriptor collectionItems))].

(** [btoa(encodeURIComponent(JSON.stringify(payload)))]; [None] is an
    exception. *)
Definition encodeCollection (c : UserCollection.t) (collectionItems : list MediaItem.t)
    (sharer : option jsstring) : option jsstring :=
  match JSON_stringify (sharePayload c collectionItems sharer) with
  | Some jsonStr =>
      match encodeURIComponent jsonStr with
      | Some e => btoa e
      | None => None
      end
  | None => None
  end.

(** The token [generateShareLink] puts after [?share=]: the collection's
    items, and the sharer's name unless the link is public. *)
Definition generateShareToken (items : list MediaItem.t) (sharingCollection : UserCollection.t)
    (isPublic : bool) (sharerNameInput : jsstring) : option jsstring :=
  let collectionItems :=
    filter (fun i => existsb (jseqb (UserCollection.id sharingCollection))
                             (MediaItem.collectionIds i)) items in
  let sharer :=
    if isPublic then None
    else let t := trim sharerNameInput in Some (if truthy t then t else js "A Friend") in
  encodeCollection sharingCollection collectionItems sharer.

(** The link [generateShareLink] copies:
    [`${window.location.origin}${window.location.pathname}?share=${encoded}`]. *)
Definition shareLinkURL (origin pathname encoded : jsstring) : jsstring :=
  origin ++ pathname ++ js "?share=" ++ encoded.

(** [JSON.parse(decodeURIComponent(atob(payloadString)))]. *)
Definition decodeShareToken (payloadString : jsstring) : option json :=
  match atob payloadString with
  | Some d =>
      match decodeURIComponent d with
      | Some decoded => JSON_parse decoded
      | None => None
      end
  | None => None
  end.

(** Every string of a collection, its items and the sharer is made of
    UTF-16 code units, as JavaScript strings are. *)
Definition shareStringsOk (c : UserCollection.t) (collectionItems : list MediaItem.t)
    (sharer : option jsstring) : bool :=
  forallb isCodeUnit (UserCollection.title c) &&
  match sharer with Some n => forallb isCodeUnit n | None => true end &&
  forallb (fun i =>
    forallb isCodeUnit (MediaItem.title i) && forallb isCodeUnit (MediaItem.creator i) &&
    forallb isCodeUnit (MediaItem.year i) && forallb isCodeUnit (MediaItem.description i) &&
    match MediaItem.coverUrl i with Some u => forallb isCodeUnit u | None => true end)
    collectionItems.

(** What stays true along every run of the page: the tracked controller is
    older than the next one, every pending timer belongs to the tracked
    controller and carries the latest query, and the displayed results are
    empty or the latest query's. *)
Definition SearchInv (events : list SearchEvent) (s : SearchState) : Prop :=
  (forall c, abortControllerRef s = Some c -> (c < nextController s)%nat) /\
  (forall c q ty, In (c, q, ty) (pendingTimers s) ->
     abortControllerRef s = Some c /\ lastSearch events = Some (q, ty)) /\
  (searchResults s = emptyResults \/
   exists q ty year, lastSearch events = Some (q, ty) /\
                     searchResults s = placeholderResults q ty year).

(** Induction on parsed JSON values, with the hypothesis on every
    element and member. *)
Section JsonInduction.
Variable P : json -> Prop.
Hypothesis HNull : P JNull.
Hypothesis HBool : forall b, P (JBool b).
Hypothesis HNum : forall lx, P (JNum lx).
Hypothesis HStr : forall s, P (JStr s).
Hypothesis HArr : forall elems, Forall P elems -> P (JArr elems).
Hypothesis HObj : forall ms, Forall (fun kv => P (snd kv)) ms -> P (JObj ms).

Fixpoint json_ind' (v : json) : P v :=
  match v with
  | JNull => HNull
  | JBool b => HBool b
  | JNum lx => HNum lx
  | JStr s => HStr s
  | JArr elems =>
      HArr elems
        ((fix go (l : list json) : Forall P l :=
            match l with
            | [] => Forall_nil _
            | x :: r => Forall_cons x (json_ind' x) (go r)
            end) elems)
  | JObj ms =>
      HObj ms
        ((fix go (l : list (jsstring * json)) : Forall (fun kv => P (snd kv)) l :=
            match l with
            | [] => Forall_nil _
            | ((k, x) as kv) :: r => Forall_cons kv (json_ind' x) (go r)
            end) ms)
  end.
End JsonInduction.

(** Induction on JavaScript values, with the hypothesis on every
    element and property. *)
Section JsvalInduction.
Variable P : jsval -> Prop.
Hypothesis HUndef : P JsUndefined.
Hypothesis HNull : P JsNull.
Hypothesis HBool : forall b, P (JsBool b).
Hypothesis HStr : forall s, P (JsString s).
Hypothesis HArr : forall elems, Forall P elems -> P (JsArray elems).
Hypothesis HObj : forall ps, Forall (fun kv => P (snd kv)) ps -> P (JsObject ps).

Fixpoint jsval_ind' (v : jsval) : P v :=
  match v with
  | JsUndefined => HUndef
  | JsNull => HNull
  | JsBool b => HBool b
  | JsString s => HStr s
  | JsArray elems =>
      HArr elems
        ((fix go (l : list jsval) : Forall P l :=
            match l with
            | [] => Forall_nil _
            | x :: r => Forall_cons x (jsval_ind' x) (go r)
            end) elems)
  | JsObject ps =>
      HObj ps
        ((fix go (l : list (jsstring * jsval)) : Forall (fun kv => P (snd kv)) l :=
            match l with
            | [] => Forall_nil _
            | ((k, x) as kv) :: r => Forall_cons kv (jsval_ind' x) (go r)
            end) ps)
  end.
End JsvalInduction.

(** What [decodeURIAux] yields after reading the octets of one code
    point. *)
Definition decodeStep (cp : Z) (f : nat) (r : jsstring) : option jsstring :=
  match decodeURIAux f r with Some t => Some (UTF16EncodeCodePoint cp ++ t) | None => None end.

(* ------------------------------------------------------------------ *)
(** ** More of [App]: library, selection, batch and collection editing *)

(** [{ ...item, status }] *)
Definition withStatus (i : MediaItem.t) (s : ItemStatus) : MediaItem.t :=
  MediaItem.mk (MediaItem.id i) (MediaItem.title i) (MediaItem.originalTitle i)
    (MediaItem.type i) (MediaItem.creator i) (MediaItem.year i)
    (MediaItem.description i) s (MediaItem.rating i)
    (MediaItem.review i) (MediaItem.memories i) (MediaItem.addedAt i)
    (MediaItem.collectionIds i) (MediaItem.coverUrl i) (MediaItem.collaborators i).

(** [{ ...item, memories }] *)
Definition withMemories (i : MediaItem.t) (ms : list Memory.t) : MediaItem.t :=
  MediaItem.mk (MediaItem.id i) (MediaItem.title i) (MediaItem.originalTitle i)
    (MediaItem.type i) (MediaItem.creator i) (MediaItem.year i)
    (MediaItem.description i) (MediaItem.status i) (MediaItem.rating i)
    (MediaItem.review i) ms (MediaItem.addedAt i)
    (MediaItem.collectionIds i) (MediaItem.coverUrl i) (MediaItem.collaborators i).

(** [{ ...c, title, description }] *)
Definition withTitleDescription (c : UserCollection.t) (title description : jsstring)
    : UserCollection.t :=
  UserCollection.mk (UserCollection.id c) title (Some description)
    (UserCollection.type c) (UserCollection.createdAt c).

(** An [ItemStatus] as the string it is at run time. *)
Definition statusName (s : ItemStatus) : jsstring :=
  match s with
  | WANT_TO => js "WANT_TO"
  | IN_PROGRESS => js "IN_PROGRESS"
  | COMPLETED => js "COMPLETED"
  end.

(** A [Set<string>]: its elements in insertion order; [add] is [setAdd]. *)
Definition setHas (s : list jsstring) (x : jsstring) : bool := existsb (jseqb x) s.

Definition setDelete (s : list jsstring) (x : jsstring) : list jsstring :=
  filter (fun y => negb (jseqb y x)) s.

(** [toggleSelection]: the new [selectedIds]. *)
Definition toggleSelection (selectedIds : list jsstring) (id : jsstring) : list jsstring :=
  if setHas selectedIds id then setDelete selectedIds id else setAdd selectedIds id.

(** [toggleSelectAll]: the new [selectedIds]; [size] is the length of the
    set's element list. *)
Definition toggleSelectAll (selectedIds : list jsstring) (filteredItems : list MediaItem.t)
    : list jsstring :=
  if Nat.eqb (length selectedIds) (length filteredItems) then []
  else setFromList (map MediaItem.id filteredItems).

Inductive View := LIBRARY | SEARCH | COLLECTIONS.

(** [handleDeleteItem] (the [selectedItem] reset is not modelled). *)
Definition handleDeleteItem (st : AppState) (id : jsstring) : AppState :=
  setItems st (filter (fun i => negb (jseqb (MediaItem.id i) id))).

(** [handleBatchDelete] (the reset of the selection and of the selection
    mode that follows is not modelled). *)
Definition handleBatchDelete (st : AppState) (view : View)
    (activeCollectionId : option jsstring) (selectedIds : list jsstring) : AppState :=
  let deletePermanently :=
    showToast (setItems st (filter (fun item => negb (setHas selectedIds (MediaItem.id item)))))
      (js "Deleted " ++ natToJs (length selectedIds) ++ js " items.") ToastInfo in
  match view, activeCollectionId with
  | COLLECTIONS, Some a =>
      if truthy a then
        showToast (setItems st (map (fun item =>
          if setHas selectedIds (MediaItem.id item)
          then withCollectionIds item
                 (filter (fun id => negb (jseqb id a)) (MediaItem.collectionIds item))
          else item)))
          (js "Removed " ++ natToJs (length selectedIds) ++ js " items from collection.")
          ToastInfo
      else deletePermanently
  | _, _ => deletePermanently
  end.

(** [handleBatchStatus] (the selection reset is not modelled). *)
Definition handleBatchStatus (st : AppState) (selectedIds : list jsstring)
    (status : ItemStatus) : AppState :=
  showToast (setItems st (map (fun item =>
    if setHas selectedIds (MediaItem.id item) then withStatus item status else item)))
    (js "Status updated for selected items.") ToastSuccess.

(** [handleAddToCollectionFromLibrary] (the picker's reset is not
    modelled). *)
Definition handleAddToCollectionFromLibrary (st : AppState)
    (activeCollectionId : option jsstring) (librarySelectionIds : list jsstring) : AppState :=
  match activeCollectionId with
  | Some a =>
      if truthy a then
        showToast (setItems st (map (fun item =>
          if setHas librarySelectionIds (MediaItem.id item) then
            let currentCols := MediaItem.collectionIds item in
            if negb (existsb (jseqb a) currentCols)
            then withCollectionIds item (currentCols ++ [a])
            else item
          else item)))
          (js "Items added to collection") ToastSuccess
      else st
  | None => st
  end.

(** The [candidates] of [renderLibraryPicker]. *)
Definition libraryPickerCandidates (items : list MediaItem.t) (activeType : ItemType)
    (activeCollectionId : jsstring) : list MediaItem.t :=
  filter (fun i => itemType_eqb (MediaItem.type i) activeType
                   && negb (existsb (jseqb activeCollectionId) (MediaItem.collectionIds i)))
    items.

(** [filteredItems] of the render code. *)
Definition filteredItems (items : list MediaItem.t) (activeType : ItemType) : list MediaItem.t :=
  filter (fun i => itemType_eqb (MediaItem.type i) activeType) items.

(** [!i.collectionIds || i.collectionIds.length === 0] *)
Definition uncategorized (i : MediaItem.t) : bool :=
  match MediaItem.collectionIds i with [] => true | _ => false end.

(** [getCount] of [renderLibrary]: the number on a tab. *)
Definition getCount (filteredItems : list MediaItem.t) (showUncategorizedOnly : bool)
    (tabId : jsstring) : nat :=
  let baseItems :=
    if showUncategorizedOnly then filter uncategorized filteredItems else filteredItems in
  if jseqb tabId (js "ALL") then length baseItems
  else if existsb (jseqb tabId) [js "WANT_TO"; js "IN_PROGRESS"; js "COMPLETED"]
  then length (filter (fun i => jseqb (statusName (MediaItem.status i)) tabId) baseItems)
  else O.

(** [currentTabItems] of [renderLibrary]: the items the tab lists. *)
Definition currentTabItems (filteredItems : list MediaItem.t) (libraryTab : jsstring)
    (showUncategorizedOnly : bool) : list MediaItem.t :=
  let c := if negb (jseqb libraryTab (js "ALL"))
           then filter (fun i => jseqb (statusName (MediaItem.status i)) libraryTab) filteredItems
           else filteredItems in
  if showUncategorizedOnly then filter uncategorized c else c.

(** [toggleCollection] of [MediaCard]: the ids it passes to
    [onUpdateCollections], that is [handleItemCollectionUpdate]. *)
Definition toggleCollection (item : MediaItem.t) (colId : jsstring) : list jsstring :=
  let currentIds := MediaItem.collectionIds item in
  if existsb (jseqb colId) currentIds
  then filter (fun id => negb (jseqb id colId)) currentIds
  else currentIds ++ [colId].

(** [isAdded] of [renderSearch]: the card shows "Remove" instead of "Add". *)
Definition isAdded (items : list MediaItem.t) (result : SearchResult.t) : bool :=
  existsb (fun i => jseqb (MediaItem.title i) (SearchResult.title result)
                    && jseqb (MediaItem.creator i) (SearchResult.creator result)) items.

(** [handleAddMemory] of [DetailModal]: the item it passes to [onUpdate],
    [None] when there is no preview image; [memId] is the UUID it draws. *)
Definition handleAddMemory (item : MediaItem.t) (previewImage : option jsstring)
    (captionText locationText memId now : jsstring) : option MediaItem.t :=
  match previewImage with
  | Some img =>
      if truthy img then
        Some (withMemories item
                (Memory.mk memId img captionText (Some locationText) now :: MediaItem.memories item))
      else None
  | None => None
  end.

(** [handleDeleteMemory] of [DetailModal]: the item it passes to [onUpdate]. *)
Definition handleDeleteMemory (item : MediaItem.t) (memoryId : jsstring) : MediaItem.t :=
  withMemories item (filter (fun m => negb (jseqb (Memory.id m) memoryId)) (MediaItem.memories item)).

Section MoreHandlers.

Variable randomUUIDs : nat -> jsstring.
Variable nowISO : jsstring.
Variable toLowerCase : jsstring -> jsstring.

(** [addToLibrary]: [...result] spreads the five fields of a search result. *)
Definition addToLibrary (st : AppState) (result : SearchResult.t)
    (collectionId : option jsstring) : AppState :=
  let (id, st1) := randomUUID randomUUIDs st in
  let newItem :=
    MediaItem.mk id (SearchResult.title result) None (SearchResult.type result)
      (SearchResult.creator result) (SearchResult.year result)
      (SearchResult.description result) WANT_TO None None [] nowISO
      (match collectionId with Some c => if truthy c then [c] else [] | None => [] end)
      None None in
  setItems st1 (fun prev => newItem :: prev).

(** [handleCreateAndAdd] of [SearchResultCard], wired to
    [handleCreateCollection] (its type defaulting to [activeType]) and
    [addToLibrary]. *)
Definition handleCreateAndAdd (st : AppState) (activeType : ItemType) (result : SearchResult.t)
    (newCollectionName newCollectionDesc : jsstring) : AppState :=
  if truthy (trim newCollectionName) then
    match handleCreateCollection randomUUIDs nowISO toLowerCase st newCollectionName
            newCollectionDesc activeType with
    | (Some newId, st1) => if truthy newId then addToLibrary st1 result (Some newId) else st1
    | (None, st1) => st1
    end
  else st.

(** [handleSaveCollection] (the [isEditingCollection] flag is not
    modelled). *)
Definition handleSaveCollection (st : AppState) (activeType : ItemType)
    (activeCollectionId : option jsstring) (editCollectionTitle editCollectionDesc : jsstring)
    : AppState :=
  match activeCollectionId with
  | None => st
  | Some a =>
      if negb (truthy a) then st else
      let trimmedTitle := trim editCollectionTitle in
      if negb (truthy trimmedTitle) then st else
      let exists_ := existsb (fun c =>
          itemType_eqb (UserCollection.type c) activeType
          && negb (jseqb (UserCollection.id c) a)
          && jseqb (toLowerCase (UserCollection.title c)) (toLowerCase trimmedTitle))
          (userCollections st) in
      if exists_ then showToast st (js "A collection with this name already exists.") ToastError
      else setUserCollections st (map (fun c =>
             if jseqb (UserCollection.id c) a
             then withTitleDescription c trimmedTitle editCollectionDesc
             else c))
  end.

End MoreHandlers.

(* ------------------------------------------------------------------ *)
(** ** [handlePreviewLink] *)

(** [String.prototype.startsWith] and [includes]. *)
Fixpoint startsWith (p s : jsstring) : bool :=
  match p, s with
  | [], _ => true
  | x :: p', y :: s' => Z.eqb x y && startsWith p' s'
  | _ :: _, [] => false
  end.

Fixpoint includes (sub s : jsstring) : bool :=
  startsWith sub s || match s with [] => false | _ :: s' => includes sub s' end.

(** [String.prototype.split] with a non-empty separator; each step
    consumes a code unit, so [S (length s)] steps suffice. *)
Fixpoint splitAux (fuel : nat) (sep s cur : jsstring) : list jsstring :=
  match fuel with
  | O => [cur]
  | S f =>
      match s with
      | [] => [cur]
      | c :: s' =>
          if startsWith sep s then cur :: splitAux f sep (skipn (length sep) s) []
          else splitAux f sep s' (cur ++ [c])
      end
  end.

Definition split (s sep : jsstring) : list jsstring := splitAux (S (length s)) sep s [].

(** What [handlePreviewLink] ends with: nothing, the preview of a
    collection ([setImportPreview]), a pending edit ([setPendingEdit]) or
    the "Invalid import link or code." toast. *)
Inductive PreviewOutcome :=
| PreviewNothing
| PreviewCollection (payload : json)
| PreviewEdit (payload : json)
| PreviewInvalid.

Section Preview.

(** [new URL(s)]: [None] when it throws, otherwise its [searchParams.get]. *)
Variable parseURL : jsstring -> option (jsstring -> option jsstring).

Definition handlePreviewLink (importInputValue : jsstring) : PreviewOutcome :=
  if negb (truthy (trim importInputValue)) then PreviewNothing else
  let payloadString := trim importInputValue in
  let decodeCollection ps :=
    match decodeShareToken ps with Some p => PreviewCollection p | None => PreviewInvalid end in
  if includes (js "share=") payloadString then
    let ps :=
      match parseURL payloadString with
      | Some get =>
          match get (js "share") with
          | Some sp => if truthy sp then sp else payloadString
          | None => payloadString
          end
      | None =>
          match split payloadString (js "share=") with
          | _ :: p1 :: _ => p1
          | _ => payloadString
          end
      end in
    decodeCollection ps
  else if includes (js "editItem=") payloadString then
    let fallback :=
      match split payloadString (js "editItem=") with
      | _ :: p1 :: _ =>
          Some (match decodeShareToken p1 with Some p => PreviewEdit p | None => PreviewInvalid end)
      | _ => None
      end in
    let handled :=
      match parseURL payloadString with
      | Some get =>
          match get (js "editItem") with
          | Some ep =>
              if truthy ep then
                match decodeShareToken ep with Some p => Some (PreviewEdit p) | None => fallback end
              else None
          | None => None
          end
      | None => fallback
      end in
    match handled with Some o => o | None => decodeCollection payloadString end
  else decodeCollection payloadString.

End Preview.

(* ------------------------------------------------------------------ *)
(** ** Auxiliary checks and example data *)

(** A code unit that may stand just before a [=] of a base64 text: a [=]
    itself, or a digit whose 6-bit value is a multiple of 4 (the last digit
    of a padded group carries only the high bits of its octet). *)
Definition eqGuard (c : Z) : bool :=
  (c =? 61) || match base64Value c with Some v => v mod 4 =? 0 | None => false end.

(** Every [=] of the string, except a leading one, follows an [eqGuard]
    code unit. *)
Fixpoint eqPrecededWell (s : jsstring) : bool :=
  match s with
  | x :: ((y :: _) as s') => (negb (y =? 61) || eqGuard x) && eqPrecededWell s'
  | _ => true
  end.

(** No string occurs twice in the list. *)
Fixpoint allDistinct (l : list jsstring) : bool :=
  match l with
  | [] => true
  | x :: r => negb (existsb (jseqb x) r) && allDistinct r
  end.

(** A library with two books, one of them in the collection [sf-1], and
    two collections of different types. *)
Definition exampleShelf : AppState :=
  mkState [MediaItem.mk (js "dune-1") (js "Dune") None BOOK (js "Frank Herbert")
             (js "1965") (js "...") COMPLETED (Some 5) None [] (js "2020") [js "sf-1"] None None;
           MediaItem.mk (js "emma-1") (js "Emma") None BOOK (js "Jane Austen")
             (js "1815") (js "...") WANT_TO None None [] (js "2021") [] None None]
          [UserCollection.mk (js "sf-1") (js "Sci-Fi") None BOOK (js "2020");
           UserCollection.mk (js "fav-1") (js "Favorites") None MOVIE (js "2021")]
          None 0.

Definition exampleResult : SearchResult.t :=
  SearchResult.mk (js "Foundation") BOOK (js "Isaac Asimov") (js "1951") (js "...").

(* ================================================================== *)
(** * Proofs *)

(* ------------------------------------------------------------------ *)
(** ** Library engine: supporting lemmas *)

Lemma existsb_jseqb_In (x : jsstring) (s : list jsstring) :
  existsb (jseqb x) s = true <-> In x s.
Proof.
  rewrite existsb_exists. split.
  - intros [y [Hy Hxy]]. apply jseqb_eq in Hxy. subst. exact Hy.
  - intros H. exists x. split; [exact H | apply jseqb_refl].
Qed.

Lemma setAdd_In (s : list jsstring) (x y : jsstring) :
  In y (setAdd s x) <-> In y s \/ y = x.
Proof.
  unfold setAdd. destruct (existsb (jseqb x) s) eqn:E.
  - apply existsb_jseqb_In in E. split; [tauto|]. intros [H|H]; subst; auto.
  - rewrite in_app_iff. simpl. split; intros [H|H]; auto.
    + destruct H; auto. contradiction.
Qed.

Lemma setAdd_NoDup (s : list jsstring) (x : jsstring) :
  NoDup s -> NoDup (setAdd s x).
Proof.
  intro Hs. unfold setAdd. destruct (existsb (jseqb x) s) eqn:E; [exact Hs|].
  apply NoDup_app; auto using NoDup_cons, NoDup_nil.
  intros y Hy [Hyx|[]]. subst. rewrite <- existsb_jseqb_In in Hy. congruence.
Qed.

Lemma setFromList_spec (xs acc : list jsstring) :
  NoDup acc ->
  NoDup (fold_left setAdd xs acc) /\
  (forall y, In y (fold_left setAdd xs acc) <-> In y acc \/ In y xs).
Proof.
  revert acc; induction xs as [|x xs IH]; intros acc Hacc; simpl.
  - split; [exact Hacc|]. intro y. tauto.
  - destruct (IH (setAdd acc x) (setAdd_NoDup acc x Hacc)) as [H1 H2].
    split; [exact H1|]. intro y. rewrite H2, setAdd_In.
    pose proof (@eq_sym _ y x). pose proof (@eq_sym _ x y). tauto.
Qed.

Lemma findIndex_spec {A} (p : A -> bool) (l : list A) (k : nat) :
  findIndex p l = Some k ->
  (exists x, nth_error l k = Some x /\ p x = true) /\
  (forall j y, (j < k)%nat -> nth_error l j = Some y -> p y = false).
Proof.
  revert k; induction l as [|x l IH]; intros k H; simpl in H; [discriminate|].
  destruct (p x) eqn:Px.
  - injection H as <-. split; [exists x; auto|]. intros j y Hj. lia.
  - destruct (findIndex p l) as [k'|] eqn:E; simpl in H; [|discriminate].
    injection H as <-. destruct (IH k' eq_refl) as [[y [Hy Py]] Hbefore].
    split; [exists y; auto|].
    intros [|j] z Hj Hz; simpl in Hz; [congruence|].
    apply (Hbefore j z); [lia | exact Hz].
Qed.

Lemma findIndex_None {A} (p : A -> bool) (l : list A) :
  findIndex p l = None -> forall x, In x l -> p x = false.
Proof.
  induction l as [|y l IH]; simpl; intros H x Hx; [contradiction|].
  destruct (p y) eqn:Py; [discriminate|].
  destruct (findIndex p l) eqn:E; [discriminate|].
  destruct Hx as [<-|Hx]; auto.
Qed.

Lemma replaceAt_nth {A} (k : nat) (v : A) (l : list A) :
  (k < length l)%nat ->
  length (replaceAt k v l) = length l /\
  nth_error (replaceAt k v l) k = Some v /\
  (forall j, j <> k -> nth_error (replaceAt k v l) j = nth_error l j).
Proof.
  revert k; induction l as [|x l IH]; intros k Hk; simpl in Hk; [lia|].
  destruct k as [|k]; simpl.
  - split; [reflexivity|]. split; [reflexivity|].
    intros [|j] Hj; [congruence | reflexivity].
  - destruct (IH k ltac:(lia)) as [H1 [H2 H3]].
    split; [lia|]. split; [exact H2|].
    intros [|j] Hj; simpl; [reflexivity|]. apply H3. lia.
Qed.

Lemma filter_negb_jseqb_In (x y : jsstring) (l : list jsstring) :
  In y (filter (fun id => negb (jseqb id x)) l) <-> In y l /\ y <> x.
Proof.
  rewrite filter_In. split.
  - intros [H1 H2]. split; [exact H1|]. intro E. subst.
    rewrite jseqb_refl in H2. discriminate.
  - intros [H1 H2]. split; [exact H1|].
    destruct (jseqb y x) eqn:E; [apply jseqb_eq in E; contradiction | reflexivity].
Qed.

(* ------------------------------------------------------------------ *)
(** ** Library engine: claims *)

(** C10: removing a search result from the library deletes every library item
    whose title, creator and type all equal the result's, whatever its
    memberships or user state, and keeps every other item (and the
    collections) as they were. *)
Theorem handleRemoveFromSearch_removes_all_matches
    (st : AppState) (rTitle rCreator : jsstring) (rType : ItemType) :
  let st' := handleRemoveFromSearch st rTitle rCreator rType in
  (forall i, In i (items st') <->
     In i (items st) /\
     ~ (MediaItem.title i = rTitle /\ MediaItem.creator i = rCreator
        /\ MediaItem.type i = rType)) /\
  userCollections st' = userCollections st.
Proof.
  simpl. split; [|reflexivity]. intro i. rewrite filter_In.
  destruct (jseqb (MediaItem.title i) rTitle) eqn:E1;
  destruct (jseqb (MediaItem.creator i) rCreator) eqn:E2;
  destruct (itemType_eqb (MediaItem.type i) rType) eqn:E3; simpl;
  repeat match goal with
  | H : jseqb _ _ = true |- _ => apply jseqb_eq in H
  | H : itemType_eqb _ _ = true |- _ => apply itemType_eqb_eq in H
  end;
  split; intros [H1 H2]; try discriminate; split; auto; try tauto;
  intros [H4 [H5 H6]]; subst;
  rewrite ?jseqb_refl in *; rewrite ?(proj2 (itemType_eqb_eq _ _) eq_refl) in *;
  discriminate.
Qed.

(** C3: [deleteCollection id] removes [id] from the membership set of every
    item and removes the collection; no item is deleted, and every field of
    every item other than its membership set is unchanged. *)
Theorem handleDeleteCollection_cascades (st : AppState) (collectionId : jsstring) :
  let st' := handleDeleteCollection st collectionId in
  userCollections st' =
    filter (fun c => negb (jseqb (UserCollection.id c) collectionId)) (userCollections st) /\
  (forall c, In c (userCollections st') <->
     In c (userCollections st) /\ UserCollection.id c <> collectionId) /\
  Forall2 (fun i i' =>
      ~ In collectionId (MediaItem.collectionIds i') /\
      (forall x, In x (MediaItem.collectionIds i') <->
                 In x (MediaItem.collectionIds i) /\ x <> collectionId) /\
      i' = withCollectionIds i (MediaItem.collectionIds i'))
    (items st) (items st').
Proof.
  simpl. split; [reflexivity|]. split.
  - intro c. rewrite filter_In. split.
    + intros [H1 H2]. split; [exact H1|]. intro E. subst.
      rewrite jseqb_refl in H2. discriminate.
    + intros [H1 H2]. split; [exact H1|].
      destruct (jseqb (UserCollection.id c) collectionId) eqn:E;
        [apply jseqb_eq in E; contradiction | reflexivity].
  - induction (items st) as [|i l IH]; simpl; constructor; [|exact IH].
    simpl. split; [|split; [|reflexivity]].
    + rewrite filter_negb_jseqb_In. tauto.
    + intro x. apply filter_negb_jseqb_In.
Qed.

(** The example of the specification: items of the deleted collection stay in
    the library, with the id removed from their membership sets. *)
Example handleDeleteCollection_example :
  let mkItem (id : jsstring) (cids : list jsstring) :=
    MediaItem.mk id id None BOOK [] [] [] WANT_TO None None [] [] cids None None in
  let st := mkState [mkItem (js "a") [js "c1"]; mkItem (js "b") [js "c1"];
                     mkItem (js "c") [js "c1"; js "c2"]]
              [UserCollection.mk (js "c1") (js "Fav") None BOOK [];
               UserCollection.mk (js "c2") (js "Other") None BOOK []] None 0 in
  let st' := handleDeleteCollection st (js "c1") in
  map MediaItem.id (items st') = [js "a"; js "b"; js "c"] /\
  map MediaItem.collectionIds (items st') = [[]; []; [js "c2"]] /\
  map UserCollection.id (userCollections st') = [js "c2"].
Proof. repeat split; reflexivity. Qed.

Lemma existsb_sameTitle (lower : jsstring -> jsstring) (cols : list UserCollection.t)
    (ty : ItemType) (t : jsstring) :
  existsb (fun c => itemType_eqb (UserCollection.type c) ty
             && jseqb (lower (UserCollection.title c)) (lower t)) cols = true <->
  exists c, In c cols /\ UserCollection.type c = ty
            /\ lower (UserCollection.title c) = lower t.
Proof.
  rewrite existsb_exists. split.
  - intros [c [Hc H]]. apply andb_prop in H as [H1 H2].
    apply itemType_eqb_eq in H1. apply jseqb_eq in H2. eauto.
  - intros [c [Hc [H1 H2]]]. exists c. split; [exact Hc|].
    rewrite H1, H2, jseqb_refl, (proj2 (itemType_eqb_eq ty ty) eq_refl). reflexivity.
Qed.

Lemma truthy_false (s : jsstring) : truthy s = false <-> s = [].
Proof. destruct s; simpl; split; congruence. Qed.

(** C2 (as amended): [createCollection] returns [null] iff the trimmed title
    is empty or a same-type collection has a case-insensitively equal title;
    on failure items and collections are unchanged; only the duplicate case
    shows an error toast (an empty title is refused silently); otherwise the
    collection with a freshly generated id and the trimmed title is
    appended. *)
Theorem handleCreateCollection_spec (randomUUIDs : nat -> jsstring) (nowISO : jsstring)
    (toLowerCase : jsstring -> jsstring) (st : AppState)
    (title description : jsstring) (itemType : ItemType) :
  let r := handleCreateCollection randomUUIDs nowISO toLowerCase st title description itemType in
  (fst r = None <->
     trim title = [] \/
     exists c, In c (userCollections st) /\ UserCollection.type c = itemType
               /\ toLowerCase (UserCollection.title c) = toLowerCase (trim title)) /\
  (fst r = None ->
     items (snd r) = items st /\ userCollections (snd r) = userCollections st) /\
  (trim title = [] -> snd r = st) /\
  (fst r = None -> trim title <> [] ->
     toast (snd r) = Some (js "A collection with this name already exists.", ToastError)) /\
  (forall id, fst r = Some id ->
     id = randomUUIDs (uuidSeed st) /\ items (snd r) = items st /\
     userCollections (snd r) = userCollections st ++
       [UserCollection.mk id (trim title) (Some description) itemType nowISO]).
Proof.
  simpl. unfold handleCreateCollection.
  destruct (truthy (trim title)) eqn:Ht; simpl.
  - assert (Hne : trim title <> []) by (intro E; rewrite E in Ht; discriminate).
    destruct (existsb _ (userCollections st)) eqn:Ex; simpl.
    + apply existsb_sameTitle in Ex.
      repeat split; auto; try discriminate; intros; try contradiction.
    + assert (Hno : ~ exists c, In c (userCollections st) /\ UserCollection.type c = itemType
               /\ toLowerCase (UserCollection.title c) = toLowerCase (trim title)).
      { intro H. apply existsb_sameTitle in H. congruence. }
      split; [split; [discriminate | intros [H|H]; contradiction]|].
      split; [discriminate|]. split; [intro; contradiction|].
      split; [discriminate|].
      intros id0 Hid. injection Hid as <-. repeat split.
  - apply truthy_false in Ht.
    repeat split; auto; intros; try contradiction; try discriminate.
Qed.

(** C2 counterexample: a blank title makes [createCollection] fail without
    any user-visible error (no toast is shown). *)
Lemma handleCreateCollection_blank_is_silent :
  let st := mkState [] [] None 0 in
  let r := handleCreateCollection (fun _ => js "id") [] (fun s => s) st (js "   ") [] BOOK in
  fst r = None /\ toast (snd r) = None.
Proof. split; reflexivity. Qed.

Lemma replaceAt_idem {A} (k : nat) (v : A) (l : list A) :
  replaceAt k v (replaceAt k v l) = replaceAt k v l.
Proof.
  revert k; induction l as [|x l IH]; intros [|k]; simpl; try reflexivity.
  rewrite IH. reflexivity.
Qed.

Lemma findIndex_replaceAt {A} (p : A -> bool) (k : nat) (v : A) (l : list A) :
  findIndex p l = Some k -> p v = true -> findIndex p (replaceAt k v l) = Some k.
Proof.
  revert k; induction l as [|x l IH]; intros k H Hv; simpl in H; [discriminate|].
  destruct (p x) eqn:Px.
  - injection H as <-. simpl. rewrite Hv. reflexivity.
  - destruct (findIndex p l) as [k'|] eqn:E; simpl in H; [|discriminate].
    injection H as <-. simpl. rewrite Px, (IH k' eq_refl Hv). reflexivity.
Qed.

Lemma nth_error_length_lt {A} (l : list A) (k : nat) (x : A) :
  nth_error l k = Some x -> (k < length l)%nat.
Proof. intro H. apply nth_error_Some. congruence. Qed.

(** C7: accepting a shared edit replaces, in place, the first item with the
    payload's id when there is one and inserts the item otherwise; the
    stored item is the payload's item with the sharer added to its
    collaborator set, which has no duplicate names; accepting the same edit
    again changes nothing more. *)
Theorem handleAcceptEdit_spec (st : AppState) (p : SharedItemPayload.t) :
  let it := SharedItemPayload.item p in
  let sharer := SharedItemPayload.sharer p in
  let st' := handleAcceptEdit st p in
  exists cs,
    NoDup cs /\ In sharer cs /\
    (forall x, In x cs <->
       x = sharer \/ In x (match MediaItem.collaborators it with Some l => l | None => [] end)) /\
    ((exists k,
        (forall j y, (j < k)%nat -> nth_error (items st) j = Some y ->
                     MediaItem.id y <> MediaItem.id it) /\
        (exists y, nth_error (items st) k = Some y /\ MediaItem.id y = MediaItem.id it) /\
        length (items st') = length (items st) /\
        nth_error (items st') k = Some (withCollaborators it cs) /\
        (forall j, j <> k -> nth_error (items st') j = nth_error (items st) j))
     \/
     ((forall y, In y (items st) -> MediaItem.id y <> MediaItem.id it) /\
      items st' = withCollaborators it cs :: items st)) /\
    items (handleAcceptEdit st' p) = items st'.
Proof.
  simpl. set (it := SharedItemPayload.item p). set (sh := SharedItemPayload.sharer p).
  set (base := match MediaItem.collaborators it with Some l => l | None => [] end).
  set (cs := setAdd (setFromList base) sh).
  destruct (setFromList_spec base [] (NoDup_nil _)) as [Hnd Hin].
  exists cs.
  assert (Hcs : forall x, In x cs <-> x = sh \/ In x base).
  { intro x. unfold cs. rewrite setAdd_In. unfold setFromList. rewrite Hin. simpl. tauto. }
  split; [apply setAdd_NoDup; exact Hnd|].
  split; [apply Hcs; left; reflexivity|].
  split; [exact Hcs|].
  unfold handleAcceptEdit. fold it. fold sh. fold base. fold cs.
  set (pid := fun i => jseqb (MediaItem.id i) (MediaItem.id it)).
  assert (Hpu : pid (withCollaborators it cs) = true) by apply jseqb_refl.
  destruct (findIndex pid (items st)) as [k|] eqn:Ef; simpl.
  - destruct (findIndex_spec pid (items st) k Ef) as [[y [Hy Py]] Hbefore].
    destruct (replaceAt_nth k (withCollaborators it cs) (items st)
                (nth_error_length_lt _ _ _ Hy)) as [H1 [H2 H3]].
    split.
    + left. exists k. split.
      * intros j z Hj Hz E. specialize (Hbefore j z Hj Hz). unfold pid in Hbefore.
        rewrite E, jseqb_refl in Hbefore. discriminate.
      * split; [exists y; split; [exact Hy | apply jseqb_eq; exact Py]|].
        split; [exact H1|]. split; [exact H2 | exact H3].
    + rewrite (findIndex_replaceAt pid k _ _ Ef Hpu). simpl.
      apply replaceAt_idem.
  - split.
    + right. split; [|reflexivity]. intros y Hy E.
      pose proof (findIndex_None pid _ Ef y Hy) as Hf. unfold pid in Hf.
      rewrite E, jseqb_refl in Hf. discriminate.
    + simpl. rewrite Hpu. reflexivity.
Qed.

(** C8 counterexample: accepting a shared edit whose item has the id of a
    library book but the type [MOVIE] turns that book into a movie. *)
Lemma handleAcceptEdit_changes_type :
  let book := MediaItem.mk (js "a") (js "Dune") None BOOK (js "Frank Herbert")
                (js "1965") [] WANT_TO None None [] [] [] None None in
  let edited := MediaItem.mk (js "a") (js "Dune") None MOVIE (js "Frank Herbert")
                  (js "1965") [] WANT_TO None None [] [] [] None None in
  let st := mkState [book] [] None 0 in
  let st' := handleAcceptEdit st (SharedItemPayload.mk edited (js "Bob")) in
  map MediaItem.id (items st) = [js "a"] /\ map MediaItem.id (items st') = [js "a"] /\
  map MediaItem.type (items st) = [BOOK] /\ map MediaItem.type (items st') = [MOVIE].
Proof. repeat split; reflexivity. Qed.

(* ------------------------------------------------------------------ *)
(** ** Import: supporting lemmas *)

Lemma handleCreateCollection_cases (R : nat -> jsstring) (now : jsstring)
    (lower : jsstring -> jsstring) (st : AppState) (t d : jsstring) (ty : ItemType) :
  let r := handleCreateCollection R now lower st t d ty in
  (fst r = None /\ items (snd r) = items st /\ userCollections (snd r) = userCollections st
   /\ uuidSeed (snd r) = uuidSeed st) \/
  (fst r = Some (R (uuidSeed st)) /\ items (snd r) = items st /\
   uuidSeed (snd r) = S (uuidSeed st) /\
   userCollections (snd r) = userCollections st ++
     [UserCollection.mk (R (uuidSeed st)) (trim t) (Some d) ty now] /\
   (forall c, In c (userCollections st) -> UserCollection.type c = ty ->
      lower (UserCollection.title c) <> lower (trim t))).
Proof.
  simpl. unfold handleCreateCollection.
  destruct (negb (truthy (trim t))); [left; auto|].
  destruct (existsb _ (userCollections st)) eqn:Ex; [left; simpl; auto|].
  right. simpl. repeat split; try reflexivity.
  intros c Hc Hty E. assert (H : exists c, In c (userCollections st) /\
    UserCollection.type c = ty /\ lower (UserCollection.title c) = lower (trim t)) by eauto.
  apply existsb_sameTitle in H. congruence.
Qed.

Lemma NoDupTitles_snoc (lower : jsstring -> jsstring) (cs : list UserCollection.t)
    (n : UserCollection.t) :
  NoDupTitles lower cs ->
  (forall c, In c cs -> UserCollection.type c = UserCollection.type n ->
     lower (UserCollection.title c) <> lower (UserCollection.title n)) ->
  NoDupTitles lower (cs ++ [n]).
Proof.
  intros Hcs Hn i j c d Hij Hi Hj Hty.
  assert (Hlen : forall k x, nth_error (cs ++ [n]) k = Some x ->
            ((k < length cs)%nat /\ nth_error cs k = Some x) \/ (k = length cs /\ x = n)).
  { intros k x Hk. destruct (Nat.lt_ge_cases k (length cs)) as [Hlt|Hge].
    - left. rewrite nth_error_app1 in Hk by exact Hlt. auto.
    - right. rewrite nth_error_app2 in Hk by exact Hge.
      destruct (k - length cs)%nat as [|m] eqn:Em; simpl in Hk.
      + injection Hk as <-. split; [lia | reflexivity].
      + destruct m; discriminate. }
  destruct (Hlen i c Hi) as [[Hi1 Hi2]|[Hi1 ->]];
  destruct (Hlen j d Hj) as [[Hj1 Hj2]|[Hj1 ->]].
  - exact (Hcs i j c d Hij Hi2 Hj2 Hty).
  - apply Hn; [eapply nth_error_In; eauto | exact Hty].
  - intro E. apply (Hn d); [eapply nth_error_In; eauto | auto | auto].
  - lia.
Qed.

Lemma NoDup_map_inj {A B} (f : A -> B) (l : list A) (x y : A) :
  NoDup (map f l) -> In x l -> In y l -> f x = f y -> x = y.
Proof.
  induction l as [|z l IH]; simpl; intros Hnd Hx Hy E; [contradiction|].
  inversion Hnd as [|? ? Hnin Hnd']; subst.
  destruct Hx as [<-|Hx], Hy as [<-|Hy]; auto.
  - exfalso. apply Hnin. rewrite E. apply in_map. exact Hy.
  - exfalso. apply Hnin. rewrite <- E. apply in_map. exact Hx.
Qed.

Lemma withCollectionIds_twice (i : MediaItem.t) (a b : list jsstring) :
  withCollectionIds (withCollectionIds i a) b = withCollectionIds i b.
Proof. reflexivity. Qed.

Lemma withCollectionIds_id (i : MediaItem.t) (a : list jsstring) :
  MediaItem.id (withCollectionIds i a) = MediaItem.id i.
Proof. reflexivity. Qed.


Lemma linkedAs_unmatched (library : list MediaItem.t) (nid : jsstring)
    (pre : list SharedItem.t) (s : SharedItem.t) (i i' : MediaItem.t) :
  findExisting library s = None ->
  linkedAs library nid pre i i' -> linkedAs library nid (pre ++ [s]) i i'.
Proof.
  intros Hs [[-> H]|[s0 [Hs0 [Hf ->]]]].
  - left. split; [reflexivity|]. intros s1 e Hs1 He.
    apply in_app_or in Hs1 as [Hs1|[<-|[]]]; [eauto | congruence].
  - right. exists s0. split; [apply in_or_app; left; exact Hs0|]. auto.
Qed.

Lemma linkedAs_link (library : list MediaItem.t) (nid : jsstring)
    (pre : list SharedItem.t) (s : SharedItem.t) (e : MediaItem.t) :
  NoDup (map MediaItem.id library) ->
  findExisting library s = Some e ->
  forall L0 L, (forall x, In x L0 -> In x library) ->
  Forall2 (linkedAs library nid pre) L0 L ->
  Forall2 (linkedAs library nid (pre ++ [s])) L0
    (map (fun i => if jseqb (MediaItem.id i) (MediaItem.id e)
                   then withCollectionIds i (MediaItem.collectionIds e ++ [nid]) else i) L).
Proof.
  intros Hnd Hs L0 L Hsub H. unfold findExisting in Hs.
  pose proof (find_some _ _ Hs) as [He _].
  induction H as [|i i' L0 L Hii' HF IH]; simpl; constructor.
  - assert (Hid : MediaItem.id i' = MediaItem.id i)
      by (destruct Hii' as [[-> _]|[s0 [_ [_ ->]]]]; reflexivity).
    assert (Hi : In i library) by (apply Hsub; left; reflexivity).
    destruct (jseqb (MediaItem.id i') (MediaItem.id e)) eqn:E.
    + apply jseqb_eq in E. rewrite Hid in E.
      assert (i = e) by (apply (NoDup_map_inj MediaItem.id library); auto). subst e.
      right. exists s. split; [apply in_or_app; right; left; reflexivity|].
      split; [exact Hs|].
      destruct Hii' as [[-> _]|[s0 [_ [_ ->]]]]; reflexivity.
    + destruct Hii' as [[-> Hpre]|[s0 [Hs0 [Hf ->]]]].
      * left. split; [reflexivity|]. intros s1 e1 Hs1 He1.
        apply in_app_or in Hs1 as [Hs1|[<-|[]]]; [eauto|].
        unfold findExisting in He1. rewrite Hs in He1. injection He1 as <-.
        intro E'. rewrite E', jseqb_refl in E. discriminate.
      * right. exists s0. split; [apply in_or_app; left; exact Hs0|]. auto.
  - apply IH. intros x Hx. apply Hsub. right. exact Hx.
Qed.

Lemma importItems_spec (R : nat -> jsstring) (now : jsstring)
    (library : list MediaItem.t) (nid : jsstring) (pt : ItemType) (sis : list SharedItem.t) :
  NoDup (map MediaItem.id library) ->
  forall st acc pre,
  Forall2 (linkedAs library nid pre) library (items st) ->
  let r := importItems R now library nid pt sis st acc in
  userCollections (fst r) = userCollections st /\
  uuidSeed (fst r) = (uuidSeed st + length (filter (isNewDescriptor library) sis))%nat /\
  snd r = acc ++ importedNewItems R now nid pt (uuidSeed st)
                   (filter (isNewDescriptor library) sis) /\
  Forall2 (linkedAs library nid (pre ++ sis)) library (items (fst r)).
Proof.
  intros Hnd. induction sis as [|s sis IH]; intros st acc pre HF; simpl.
  - rewrite !app_nil_r, Nat.add_0_r. repeat split; auto.
  - destruct (findExisting library s) as [e|] eqn:Hs.
    + assert (Hn : isNewDescriptor library s = false)
        by (unfold isNewDescriptor; rewrite Hs; reflexivity).
      rewrite Hn.
      destruct (IH (handleItemCollectionUpdate st (MediaItem.id e)
                       (MediaItem.collectionIds e ++ [nid])) acc (pre ++ [s]))
        as [H1 [H2 [H3 H4]]].
      { simpl. apply linkedAs_link; auto. }
      rewrite <- app_assoc in H4. simpl in *. repeat split; auto.
    + assert (Hn : isNewDescriptor library s = true)
        by (unfold isNewDescriptor; rewrite Hs; reflexivity).
      rewrite Hn. simpl.
      destruct (IH (mkState (items st) (userCollections st) (toast st) (S (uuidSeed st)))
                   (acc ++ [newSharedItem now (R (uuidSeed st)) nid pt s]) (pre ++ [s]))
        as [H1 [H2 [H3 H4]]].
      { simpl. eapply Forall2_impl; [|exact HF].
        intros a b Hab. apply linkedAs_unmatched; auto. }
      rewrite <- app_assoc in H4. simpl in *.
      split; [exact H1|]. split; [rewrite H2; lia|].
      split; [rewrite H3, <- app_assoc; reflexivity | exact H4].
Qed.

Lemma importItems_cols (R : nat -> jsstring) (now : jsstring)
    (library : list MediaItem.t) (nid : jsstring) (pt : ItemType) (sis : list SharedItem.t) :
  forall st acc,
  userCollections (fst (importItems R now library nid pt sis st acc)) = userCollections st.
Proof.
  induction sis as [|s sis IH]; intros st acc; simpl; [reflexivity|].
  destruct (findExisting library s); rewrite IH; reflexivity.
Qed.

Lemma importWithTitle_cols (R : nat -> jsstring) (now : jsstring)
    (lower : jsstring -> jsstring) (st : AppState) (p : SharedCollectionPayload.t)
    (t : jsstring) :
  let st' := importWithTitle R now lower st p t in
  userCollections st' = userCollections st \/
  exists n, userCollections st' = userCollections st ++ [n] /\
    (forall d, In d (userCollections st) ->
       UserCollection.type d = UserCollection.type n ->
       lower (UserCollection.title d) <> lower (UserCollection.title n)).
Proof.
  simpl. unfold importWithTitle.
  destruct (handleCreateCollection_cases R now lower st t []
              (SharedCollectionPayload.type p)) as [[Hf [_ [Hc _]]]|[Hf [_ [_ [Hc Hu]]]]];
    destruct (handleCreateCollection R now lower st t [] (SharedCollectionPayload.type p))
      as [r st1]; simpl in *; subst r.
  - left. exact Hc.
  - right. exists (UserCollection.mk (R (uuidSeed st)) (trim t) (Some [])
                      (SharedCollectionPayload.type p) now).
    split; [|exact Hu].
    destruct (importItems _ _ _ _ _ _ _ _) as [st2 newItems] eqn:E.
    pose proof (importItems_cols R now (items st) (R (uuidSeed st))
                  (SharedCollectionPayload.type p) (SharedCollectionPayload.items p) st1 [])
      as Hi. rewrite E in Hi. simpl in Hi.
    destruct newItems; simpl; rewrite Hi, Hc; reflexivity.
Qed.

Lemma handleImportCollection_cols (R : nat -> jsstring) (now : jsstring)
    (lower : jsstring -> jsstring) (fuel : nat) (st st' : AppState)
    (p : SharedCollectionPayload.t) :
  handleImportCollection R now lower fuel st p = Some st' ->
  userCollections st' = userCollections st \/
  exists n, userCollections st' = userCollections st ++ [n] /\
    (forall d, In d (userCollections st) ->
       UserCollection.type d = UserCollection.type n ->
       lower (UserCollection.title d) <> lower (UserCollection.title n)).
Proof.
  unfold handleImportCollection. destruct (resolveTitle _ _ _ _ _ _ _) as [t|]; [|discriminate].
  intro H. injection H as <-. apply importWithTitle_cols.
Qed.

Lemma NoDupTitles_app (lower : jsstring -> jsstring) (added base : list UserCollection.t) :
  NoDupTitles lower base ->
  (forall k c, nth_error added k = Some c ->
     forall d, In d (base ++ firstn k added) ->
       UserCollection.type d = UserCollection.type c ->
       lower (UserCollection.title d) <> lower (UserCollection.title c)) ->
  NoDupTitles lower (base ++ added).
Proof.
  revert base; induction added as [|c added IH]; intros base Hb Ha.
  - rewrite app_nil_r. exact Hb.
  - replace (base ++ c :: added) with ((base ++ [c]) ++ added) by (rewrite <- app_assoc; reflexivity).
    apply IH.
    + apply NoDupTitles_snoc; [exact Hb|].
      intros d Hd. apply (Ha O c eq_refl d). rewrite app_nil_r. exact Hd.
    + intros k c' Hk d Hd. apply (Ha (S k) c' Hk d).
      rewrite <- app_assoc in Hd. exact Hd.
Qed.

Lemma importedNewItems_ids (R : nat -> jsstring) (now nid : jsstring) (pt : ItemType)
    (l : list SharedItem.t) :
  forall seed,
  length (importedNewItems R now nid pt seed l) = length l /\
  map MediaItem.id (importedNewItems R now nid pt seed l) = map R (seq seed (length l)).
Proof.
  induction l as [|s l IH]; intro seed; simpl; [auto|].
  destruct (IH (S seed)) as [H1 H2]. rewrite H1, H2. auto.
Qed.

Lemma importedNewItems_fields (R : nat -> jsstring) (now nid : jsstring) (pt : ItemType)
    (P : SharedItem.t -> Prop) (l : list SharedItem.t) :
  Forall P l -> forall seed,
  Forall2 (fun s n => P s /\ exists k, n = newSharedItem now (R k) nid pt s)
    l (importedNewItems R now nid pt seed l).
Proof.
  induction 1 as [|s l Hs Hl IH]; intro seed; simpl; constructor; eauto.
Qed.

Lemma importAll_cols (R : nat -> jsstring) (now : jsstring) (lower : jsstring -> jsstring)
    (fuel : nat) (ps : list SharedCollectionPayload.t) :
  forall st st', importAll R now lower fuel st ps = Some st' ->
  exists added, userCollections st' = userCollections st ++ added /\
    (forall k c, nth_error added k = Some c ->
       forall d, In d (userCollections st ++ firstn k added) ->
         UserCollection.type d = UserCollection.type c ->
         lower (UserCollection.title d) <> lower (UserCollection.title c)).
Proof.
  induction ps as [|p ps IH]; intros st st' H; simpl in H.
  - injection H as <-. exists []. split; [rewrite app_nil_r; reflexivity|].
    intros [|k] c Hk; discriminate.
  - destruct (handleImportCollection R now lower fuel st p) as [st1|] eqn:E; [|discriminate].
    destruct (IH st1 st' H) as [added [Hc Ha]].
    destruct (handleImportCollection_cols R now lower fuel st st1 p E) as [H1|[n [H1 Hn]]].
    + exists added. rewrite <- H1. auto.
    + exists (n :: added). split; [rewrite Hc, H1, <- app_assoc; reflexivity|].
      intros [|k] c Hk d Hd.
      * simpl in Hk. injection Hk as <-. rewrite app_nil_r in Hd. auto.
      * simpl in Hk, Hd. apply (Ha k c Hk d).
        rewrite H1, <- app_assoc. exact Hd.
Qed.

Lemma Forall2_linkedAs_nil (library : list MediaItem.t) (nid : jsstring) :
  forall L, (forall x, In x L -> In x library) ->
  Forall2 (linkedAs library nid []) L L.
Proof.
  induction L as [|i L IH]; intro Hsub; constructor.
  - left. split; [reflexivity|]. intros s e [].
  - apply IH. intros x Hx. apply Hsub. right. exact Hx.
Qed.

(* ------------------------------------------------------------------ *)
(** ** Import: claims *)

(** C4: when [importCollection] creates its collection (id [nid]), every
    library item found for an incoming descriptor by identical
    (title, creator, type) is linked into it (its membership gains [nid], all
    else unchanged) and no item is created for it; the other library items
    are unchanged; every unmatched descriptor yields one new item with a
    fresh UUID, wish-listed status, no memories, the current timestamp and
    membership exactly [nid].  When the collection cannot be created nothing
    changes. *)
Theorem handleImportCollection_links_or_creates (R : nat -> jsstring) (now : jsstring)
    (lower : jsstring -> jsstring) (fuel : nat) (st st' : AppState)
    (p : SharedCollectionPayload.t) :
  NoDup (map MediaItem.id (items st)) ->
  handleImportCollection R now lower fuel st p = Some st' ->
  (items st' = items st /\ userCollections st' = userCollections st) \/
  exists nid newItems olds,
    nid = R (uuidSeed st) /\
    (exists title, userCollections st' = userCollections st ++
       [UserCollection.mk nid title (Some []) (SharedCollectionPayload.type p) now]) /\
    items st' = newItems ++ olds /\
    Forall2 (fun i i' =>
        (i' = i /\ forall s e, In s (SharedCollectionPayload.items p) ->
                     findExisting (items st) s = Some e -> MediaItem.id e <> MediaItem.id i) \/
        (exists s, In s (SharedCollectionPayload.items p) /\
                   findExisting (items st) s = Some i /\
                   i' = withCollectionIds i (MediaItem.collectionIds i ++ [nid])))
      (items st) olds /\
    Forall2 (fun s n =>
        findExisting (items st) s = None /\
        MediaItem.status n = WANT_TO /\ MediaItem.memories n = [] /\
        MediaItem.addedAt n = now /\ MediaItem.collectionIds n = [nid] /\
        MediaItem.title n = orElse (SharedItem.title s) (js "Unknown") /\
        MediaItem.creator n = orElse (SharedItem.creator s) (js "Unknown") /\
        MediaItem.type n = match SharedItem.type s with
                           | Some ty => ty | None => SharedCollectionPayload.type p end)
      (filter (isNewDescriptor (items st)) (SharedCollectionPayload.items p)) newItems /\
    map MediaItem.id newItems = map R (seq (S (uuidSeed st)) (length newItems)).
Proof.
  intros Hnd. unfold handleImportCollection.
  destruct (resolveTitle _ _ _ _ _ _ _) as [t|]; [|discriminate].
  intro H. injection H as <-. unfold importWithTitle.
  destruct (handleCreateCollection_cases R now lower st t []
              (SharedCollectionPayload.type p)) as [[Hf [Hi [Hc _]]]|[Hf [Hi [Hs [Hc _]]]]];
    destruct (handleCreateCollection R now lower st t [] (SharedCollectionPayload.type p))
      as [r st1]; simpl in *; subst r.
  - left. auto.
  - right.
    set (nid := R (uuidSeed st)).
    assert (HF0 : Forall2 (linkedAs (items st) nid []) (items st) (items st1))
      by (rewrite Hi; apply Forall2_linkedAs_nil; auto).
    destruct (importItems_spec R now (items st) nid (SharedCollectionPayload.type p)
                (SharedCollectionPayload.items p) Hnd st1 [] [] HF0) as [_ [_ [H3 H4]]].
    destruct (importItems R now (items st) nid _ _ st1 []) as [st2 newItems] eqn:E.
    simpl in H3, H4. rewrite Hs in H3.
    exists nid, newItems, (items st2).
    split; [reflexivity|].
    assert (Hc2 : userCollections st2 = userCollections st1).
    { pose proof (importItems_cols R now (items st) nid (SharedCollectionPayload.type p)
                    (SharedCollectionPayload.items p) st1 []) as Hx.
      rewrite E in Hx. exact Hx. }
    split; [exists (trim t); destruct newItems; simpl; rewrite Hc2, Hc; reflexivity|].
    split; [destruct newItems; reflexivity|].
    split; [exact H4|]. subst newItems.
    pose proof (importedNewItems_ids R now nid (SharedCollectionPayload.type p)
                  (filter (isNewDescriptor (items st)) (SharedCollectionPayload.items p))
                  (S (uuidSeed st))) as [Hl Hids].
    split.
    + eapply Forall2_impl;
        [|apply (importedNewItems_fields R now nid _
                   (fun s => findExisting (items st) s = None)); apply Forall_forall].
      * intros s n [Hn [k ->]]. simpl. repeat split; exact Hn.
      * intros s Hs'. apply filter_In in Hs' as [_ Hs'].
        unfold isNewDescriptor in Hs'. destruct (findExisting (items st) s); congruence.
    + rewrite Hids, Hl. reflexivity.
Qed.

(** C5: however many payloads are imported one after the other (the same
    one again and again included), every collection the imports add has a
    title that no earlier collection of its type matches case-insensitively;
    so a collection set without such duplicates never gets one. *)
Theorem importAll_never_duplicates_titles (R : nat -> jsstring) (now : jsstring)
    (lower : jsstring -> jsstring) (fuel : nat) (ps : list SharedCollectionPayload.t)
    (st st' : AppState) :
  importAll R now lower fuel st ps = Some st' ->
  (exists added, userCollections st' = userCollections st ++ added /\
    (forall k c, nth_error added k = Some c ->
       forall d, In d (userCollections st ++ firstn k added) ->
         UserCollection.type d = UserCollection.type c ->
         lower (UserCollection.title d) <> lower (UserCollection.title c))) /\
  (NoDupTitles lower (userCollections st) -> NoDupTitles lower (userCollections st')).
Proof.
  intro H. destruct (importAll_cols R now lower fuel ps st st' H) as [added [Hc Ha]].
  split; [exists added; auto|].
  intro Hb. rewrite Hc. apply NoDupTitles_app; auto.
Qed.

Lemma handleImportCollection_links_or_creates_witness :
  let R := counterUUIDs in let now := js "2024" in let lower := asciiToLowerCase in
  let fuel := 5%nat in let st := exampleLibrary in let p := examplePayload in
  exists st',
  NoDup (map MediaItem.id (items st)) /\
  handleImportCollection R now lower fuel st p = Some st' /\
  ((items st' = items st /\ userCollections st' = userCollections st) \/
  exists nid newItems olds,
    nid = R (uuidSeed st) /\
    (exists title, userCollections st' = userCollections st ++
       [UserCollection.mk nid title (Some []) (SharedCollectionPayload.type p) now]) /\
    items st' = newItems ++ olds /\
    Forall2 (fun i i' =>
        (i' = i /\ forall s e, In s (SharedCollectionPayload.items p) ->
                     findExisting (items st) s = Some e -> MediaItem.id e <> MediaItem.id i) \/
        (exists s, In s (SharedCollectionPayload.items p) /\
                   findExisting (items st) s = Some i /\
                   i' = withCollectionIds i (MediaItem.collectionIds i ++ [nid])))
      (items st) olds /\
    Forall2 (fun s n =>
        findExisting (items st) s = None /\
        MediaItem.status n = WANT_TO /\ MediaItem.memories n = [] /\
        MediaItem.addedAt n = now /\ MediaItem.collectionIds n = [nid] /\
        MediaItem.title n = orElse (SharedItem.title s) (js "Unknown") /\
        MediaItem.creator n = orElse (SharedItem.creator s) (js "Unknown") /\
        MediaItem.type n = match SharedItem.type s with
                           | Some ty => ty | None => SharedCollectionPayload.type p end)
      (filter (isNewDescriptor (items st)) (SharedCollectionPayload.items p)) newItems /\
    map MediaItem.id newItems = map R (seq (S (uuidSeed st)) (length newItems))).
Proof.
  intros R now lower fuel st p. eexists.
  assert (Hnd : NoDup (map MediaItem.id (items st)))
    by (simpl; constructor; [intros [] | constructor]).
  split; [exact Hnd|]. split; [vm_compute; reflexivity|].
  apply (handleImportCollection_links_or_creates R now lower fuel st); [exact Hnd|].
  vm_compute. reflexivity.
Defined.

(** The specification's example: importing "Favorites" into a library that
    has Frank Herbert's "Dune" links that book instead of duplicating it;
    only "Foundation" is created. *)
Example handleImportCollection_dune_example :
  match handleImportCollection counterUUIDs (js "2024") asciiToLowerCase 5 exampleLibrary
          examplePayload with
  | Some st' =>
      map MediaItem.title (items st') = [js "Foundation"; js "Dune"] /\
      map MediaItem.collectionIds (items st') = [[js "id-0"]; [js "id-0"]] /\
      map MediaItem.id (items st') = [js "id-1"; js "dune-1"] /\
      map UserCollection.title (userCollections st') = [js "Favorites (Imported)"]
  | None => False
  end.
Proof. vm_compute. repeat split. Qed.

(** Importing the same payload twice: the disambiguator is appended. *)
Example importAll_twice_example :
  match importAll counterUUIDs (js "2024") asciiToLowerCase 5 exampleLibrary
          [examplePayload; examplePayload] with
  | Some st' =>
      map UserCollection.title (userCollections st') =
        [js "Favorites (Imported)"; js "Favorites (Imported) (1)"] /\
      length (items st') = 2%nat
  | None => False
  end.
Proof. vm_compute. repeat split. Qed.

Lemma importAll_never_duplicates_titles_witness :
  let R := counterUUIDs in let now := js "2024" in let lower := asciiToLowerCase in
  let fuel := 5%nat in let st := exampleLibrary in
  let ps := [examplePayload; examplePayload; examplePayload] in
  exists st',
  importAll R now lower fuel st ps = Some st' /\
  (exists added, userCollections st' = userCollections st ++ added /\
    (forall k c, nth_error added k = Some c ->
       forall d, In d (userCollections st ++ firstn k added) ->
         UserCollection.type d = UserCollection.type c ->
         lower (UserCollection.title d) <> lower (UserCollection.title c))) /\
  (NoDupTitles lower (userCollections st) -> NoDupTitles lower (userCollections st')).
Proof.
  intros R now lower fuel st ps. eexists. split; [vm_compute; reflexivity|].
  apply (importAll_never_duplicates_titles R now lower fuel ps st).
  vm_compute. reflexivity.
Defined.

(* ------------------------------------------------------------------ *)
(** ** Library engine: item types *)

Lemma map_id_type_ext (f : MediaItem.t -> MediaItem.t) (l : list MediaItem.t) :
  (forall i, MediaItem.id (f i) = MediaItem.id i /\ MediaItem.type (f i) = MediaItem.type i) ->
  map MediaItem.id (map f l) = map MediaItem.id l /\
  map MediaItem.type (map f l) = map MediaItem.type l.
Proof.
  intro H. rewrite !map_map. split; apply map_ext; intro i; apply H.
Qed.

Lemma map_replaceAt {A B} (f : A -> B) (k : nat) (v : A) (l : list A) :
  map f (replaceAt k v l) = replaceAt k (f v) (map f l).
Proof.
  revert k; induction l as [|x l IH]; intros [|k]; simpl; try reflexivity.
  rewrite IH. reflexivity.
Qed.

Lemma replaceAt_same {A} (k : nat) (l : list A) (y : A) :
  nth_error l k = Some y -> replaceAt k y l = l.
Proof.
  revert k; induction l as [|x l IH]; intros [|k] H; simpl in *; try discriminate.
  - injection H as ->. reflexivity.
  - rewrite (IH k H). reflexivity.
Qed.

Lemma importItems_keeps_id_type (R : nat -> jsstring) (now : jsstring)
    (library : list MediaItem.t) (nid : jsstring) (pt : ItemType)
    (sis : list SharedItem.t) (st : AppState) (acc : list MediaItem.t) :
  let st' := fst (importItems R now library nid pt sis st acc) in
  map MediaItem.id (items st') = map MediaItem.id (items st) /\
  map MediaItem.type (items st') = map MediaItem.type (items st).
Proof.
  revert st acc; induction sis as [|s sis IH]; intros st acc; simpl; [auto|].
  destruct (findExisting library s) as [e|].
  - destruct (IH (handleItemCollectionUpdate st (MediaItem.id e)
                    (MediaItem.collectionIds e ++ [nid])) acc) as [H1 H2].
    simpl in H1, H2. rewrite H1, H2.
    apply map_id_type_ext. intro i. destruct (jseqb _ _); auto.
  - destruct (IH (snd (randomUUID R st))
                 (acc ++ [newSharedItem now (fst (randomUUID R st)) nid pt s])) as [H1 H2].
    exact (conj H1 H2).
Qed.

Lemma handleImportCollection_keeps_id_type (R : nat -> jsstring) (now : jsstring)
    (lower : jsstring -> jsstring) (fuel : nat) (st : AppState)
    (p : SharedCollectionPayload.t) :
  match handleImportCollection R now lower fuel st p with
  | Some st' => exists newItems olds, items st' = newItems ++ olds /\
      map MediaItem.id olds = map MediaItem.id (items st) /\
      map MediaItem.type olds = map MediaItem.type (items st)
  | None => True
  end.
Proof.
  unfold handleImportCollection.
  destruct (resolveTitle _ _ _ _ _ _) as [t|]; [|exact I].
  unfold importWithTitle.
  destruct (handleCreateCollection_cases R now lower st t []
              (SharedCollectionPayload.type p)) as [[E [Hi _]]|[E [Hi _]]];
  destruct (handleCreateCollection R now lower st t [] _) as [[nid|] st1]; simpl in E, Hi;
    try discriminate.
  - exists [], (items st1). rewrite Hi. auto.
  - pose proof (importItems_keeps_id_type R now (items st) nid (SharedCollectionPayload.type p)
                  (SharedCollectionPayload.items p) st1 []) as [H1 H2].
    destruct (importItems R now (items st) nid _ _ st1 []) as [st2 newItems]; simpl in H1, H2.
    rewrite Hi in H1, H2.
    destruct newItems as [|n ns]; simpl.
    + exists [], (items st2). auto.
    + exists (n :: ns), (items st2). auto.
Qed.

(** C8 (as amended): [updateItem] and [acceptItemEdit] store the supplied
    record as it is, so the item they write gets the supplied record's type,
    whatever type the library item with that id had; every other item of the
    library keeps its position, id and type. All other engine operations keep
    the type of every item they keep: each either leaves the items alone,
    maps them position by position with their ids and types unchanged,
    filters some out, or puts new items in front of the old ones
    ([addToLibrary] with the search result's type, [handleCreateAndAdd],
    and [handleImportCollection], which links matched items through
    [setItemCollections] and prepends the items it creates). *)
Theorem item_type_changes_only_by_replacement :
  (forall st u,
     map MediaItem.id (items (handleUpdateItem st u)) = map MediaItem.id (items st) /\
     map MediaItem.type (items (handleUpdateItem st u)) =
     map (fun i => if jseqb (MediaItem.id i) (MediaItem.id u)
                   then MediaItem.type u else MediaItem.type i) (items st)) /\
  (forall st p,
     let it := SharedItemPayload.item p in
     let st' := handleAcceptEdit st p in
     (exists k y,
        nth_error (items st) k = Some y /\ MediaItem.id y = MediaItem.id it /\
        (forall j z, (j < k)%nat -> nth_error (items st) j = Some z ->
                     MediaItem.id z <> MediaItem.id it) /\
        map MediaItem.id (items st') = map MediaItem.id (items st) /\
        map MediaItem.type (items st') =
          replaceAt k (MediaItem.type it) (map MediaItem.type (items st))) \/
     ((forall y, In y (items st) -> MediaItem.id y <> MediaItem.id it) /\
      map MediaItem.id (items st') = MediaItem.id it :: map MediaItem.id (items st) /\
      map MediaItem.type (items st') = MediaItem.type it :: map MediaItem.type (items st))) /\
  (forall st itemId cids,
     let st' := handleItemCollectionUpdate st itemId cids in
     map MediaItem.id (items st') = map MediaItem.id (items st) /\
     map MediaItem.type (items st') = map MediaItem.type (items st)) /\
  (forall st cid,
     let st' := handleDeleteCollection st cid in
     map MediaItem.id (items st') = map MediaItem.id (items st) /\
     map MediaItem.type (items st') = map MediaItem.type (items st)) /\
  (forall st t c ty i,
     In i (items (handleRemoveFromSearch st t c ty)) -> In i (items st)) /\
  (forall R now lower st t d ty,
     items (snd (handleCreateCollection R now lower st t d ty)) = items st) /\
  (forall R now st r cid, exists n,
     items (addToLibrary R now st r cid) = n :: items st /\
     MediaItem.type n = SearchResult.type r) /\
  (forall R now lower st ty r name desc,
     let st' := handleCreateAndAdd R now lower st ty r name desc in
     items st' = items st \/
     exists n, items st' = n :: items st /\ MediaItem.type n = SearchResult.type r) /\
  (forall st id i, In i (items (handleDeleteItem st id)) -> In i (items st)) /\
  (forall lower st ty a t d, items (handleSaveCollection lower st ty a t d) = items st) /\
  (forall st ids s,
     let st' := handleBatchStatus st ids s in
     map MediaItem.id (items st') = map MediaItem.id (items st) /\
     map MediaItem.type (items st') = map MediaItem.type (items st)) /\
  (forall st view a ids,
     let st' := handleBatchDelete st view a ids in
     (map MediaItem.id (items st') = map MediaItem.id (items st) /\
      map MediaItem.type (items st') = map MediaItem.type (items st)) \/
     (forall i, In i (items st') -> In i (items st))) /\
  (forall st a ids,
     let st' := handleAddToCollectionFromLibrary st a ids in
     map MediaItem.id (items st') = map MediaItem.id (items st) /\
     map MediaItem.type (items st') = map MediaItem.type (items st)) /\
  (forall R now lower fuel st p,
     match handleImportCollection R now lower fuel st p with
     | Some st' => exists newItems olds, items st' = newItems ++ olds /\
         map MediaItem.id olds = map MediaItem.id (items st) /\
         map MediaItem.type olds = map MediaItem.type (items st)
     | None => True
     end).
Proof.
  split; [|split; [|split; [|split; [|split; [|split; [|split; [|split;
    [|split; [|split; [|split; [|split; [|split]]]]]]]]]]]].
  - (* updateItem *)
    intros st u. simpl. rewrite !map_map. split; apply map_ext; intro i;
      destruct (jseqb _ _) eqn:E; try reflexivity.
    symmetry. apply jseqb_eq. exact E.
  - (* acceptItemEdit *)
    intros st p. simpl. unfold handleAcceptEdit.
    set (upd := withCollaborators (SharedItemPayload.item p) _).
    assert (Hui : MediaItem.id upd = MediaItem.id (SharedItemPayload.item p)) by reflexivity.
    assert (Hut : MediaItem.type upd = MediaItem.type (SharedItemPayload.item p)) by reflexivity.
    set (pid := fun i => jseqb (MediaItem.id i) (MediaItem.id (SharedItemPayload.item p))).
    destruct (findIndex pid (items st)) as [k|] eqn:Ef; simpl.
    + left. destruct (findIndex_spec pid (items st) k Ef) as [[y [Hy Py]] Hbefore].
      exists k, y. split; [exact Hy|].
      assert (Hyi : MediaItem.id y = MediaItem.id (SharedItemPayload.item p))
        by (apply jseqb_eq; exact Py).
      split; [exact Hyi|].
      split.
      * intros j z Hj Hz E. specialize (Hbefore j z Hj Hz). unfold pid in Hbefore.
        rewrite E, jseqb_refl in Hbefore. discriminate.
      * rewrite !map_replaceAt, Hui, Hut. split; [|reflexivity].
        rewrite <- Hyi. apply replaceAt_same.
        rewrite nth_error_map, Hy. reflexivity.
    + right. split; [|split; reflexivity].
      intros y Hy E. pose proof (findIndex_None pid _ Ef y Hy) as Hf. unfold pid in Hf.
      rewrite E, jseqb_refl in Hf. discriminate.
  - (* setItemCollections *)
    intros st itemId cids. simpl. apply map_id_type_ext. intro i.
    destruct (jseqb _ _); auto.
  - (* deleteCollection *)
    intros st cid. simpl. apply map_id_type_ext. intro i. auto.
  - (* removeFromSearch *)
    intros st t c ty i H. simpl in H. apply filter_In in H. tauto.
  - (* createCollection *)
    intros R now lower st t d ty. unfold handleCreateCollection.
    destruct (negb _); [reflexivity|].
    destruct (existsb _ _); reflexivity.
  - (* addToLibrary *)
    intros R now st r cid. unfold addToLibrary, randomUUID, setItems. simpl.
    eexists. split; reflexivity.
  - (* handleCreateAndAdd *)
    intros R now lower st ty r name desc. simpl. unfold handleCreateAndAdd.
    destruct (truthy (trim name)); [|left; reflexivity].
    destruct (handleCreateCollection_cases R now lower st name desc ty) as [[_ [Hi _]]|[_ [Hi _]]];
    destruct (handleCreateCollection R now lower st name desc ty) as [[nid|] st1];
      simpl in Hi |- *.
    + destruct (truthy nid); [|left; exact Hi].
      right. unfold addToLibrary, randomUUID, setItems. simpl. rewrite Hi.
      eexists. split; reflexivity.
    + left. exact Hi.
    + destruct (truthy nid); [|left; exact Hi].
      right. unfold addToLibrary, randomUUID, setItems. simpl. rewrite Hi.
      eexists. split; reflexivity.
    + left. exact Hi.
  - (* deleteItem *)
    intros st id i H. simpl in H. apply filter_In in H. tauto.
  - (* saveCollection *)
    intros lower st ty [a|] t d; unfold handleSaveCollection; [|reflexivity].
    destruct (negb (truthy a)); [reflexivity|].
    destruct (negb (truthy (trim t))); [reflexivity|].
    destruct (existsb _ _); reflexivity.
  - (* batchStatus *)
    intros st ids s. simpl. apply map_id_type_ext. intro i.
    destruct (setHas _ _); auto.
  - (* batchDelete *)
    intros st view a ids. simpl. unfold handleBatchDelete.
    assert (Hdel : forall i, In i (items (showToast (setItems st (filter (fun item =>
                     negb (setHas ids (MediaItem.id item))))) (js "Deleted " ++
                     natToJs (length ids) ++ js " items.") ToastInfo)) -> In i (items st)).
    { intros i H. simpl in H. apply filter_In in H. tauto. }
    destruct view; try (right; exact Hdel).
    destruct a as [a|]; [|right; exact Hdel].
    destruct (truthy a); [|right; exact Hdel].
    left. simpl. apply map_id_type_ext. intro i. destruct (setHas _ _); auto.
  - (* addToCollectionFromLibrary *)
    intros st [a|] ids; simpl; [|auto].
    destruct (truthy a); simpl; [|auto].
    apply map_id_type_ext. intro i.
    destruct (setHas _ _); [|auto]. destruct (negb _); auto.
  - (* import *)
    apply handleImportCollection_keeps_id_type.
Qed.

(* ------------------------------------------------------------------ *)
(** ** Sorting: supporting lemmas *)

Section SortLemmas.
Context {A : Type}.

Lemma insertBy_perm (cmp : A -> A -> option Z) (x : A) (l : list A) :
  Permutation (x :: l) (insertBy cmp x l).
Proof.
  induction l as [|y l IH]; simpl; [reflexivity|].
  destruct (sortCompare (cmp x y) <=? 0); [reflexivity|].
  rewrite perm_swap. apply perm_skip. exact IH.
Qed.

Lemma arraySort_perm (cmp : A -> A -> option Z) (l : list A) :
  Permutation l (arraySort cmp l).
Proof.
  induction l as [|x l IH]; simpl; [reflexivity|].
  rewrite <- insertBy_perm. apply perm_skip. exact IH.
Qed.

Lemma consistent_refl (cmp : A -> A -> option Z) :
  Consistent cmp -> forall a, sortCompare (cmp a a) = 0.
Proof.
  intros [Hs _] a. specialize (Hs a a).
  destruct (sortCompare (cmp a a)); simpl in *; lia.
Qed.

Lemma consistent_flip (cmp : A -> A -> option Z) :
  Consistent cmp -> forall a b, sortCompare (cmp a b) > 0 -> sortCompare (cmp b a) < 0.
Proof.
  intros [Hs _] a b H. specialize (Hs a b).
  destruct (sortCompare (cmp a b)), (sortCompare (cmp b a)); simpl in *; lia.
Qed.

Lemma insertBy_sorted (cmp : A -> A -> option Z) (x : A) (l : list A) :
  Consistent cmp ->
  Sorted (fun a b => sortCompare (cmp a b) <= 0) l ->
  Sorted (fun a b => sortCompare (cmp a b) <= 0) (insertBy cmp x l).
Proof.
  intros Hc H. induction H as [|y l Hl IH Hhd]; simpl.
  - repeat constructor.
  - destruct (sortCompare (cmp x y) <=? 0) eqn:E.
    + constructor; [constructor; auto|]. constructor. apply Z.leb_le. exact E.
    + apply Z.leb_gt in E. constructor; [exact IH|].
      pose proof (consistent_flip cmp Hc x y ltac:(lia)) as Hyx.
      destruct l as [|z l]; simpl; [constructor; lia|].
      destruct (sortCompare (cmp x z) <=? 0); constructor; [lia|].
      inversion Hhd; assumption.
Qed.

Lemma arraySort_sorted (cmp : A -> A -> option Z) (l : list A) :
  Consistent cmp -> Sorted (fun a b => sortCompare (cmp a b) <= 0) (arraySort cmp l).
Proof.
  intro Hc. induction l as [|x l IH]; simpl; [constructor|].
  apply insertBy_sorted; assumption.
Qed.

Lemma sorted_strict (cmp : A -> A -> option Z) (l : list A) :
  Sorted (fun a b => sortCompare (cmp a b) <= 0) l -> NoDup l ->
  (forall a b, In a l -> In b l -> a <> b -> sortCompare (cmp a b) <> 0) ->
  Sorted (fun a b => sortCompare (cmp a b) < 0) l.
Proof.
  induction 1 as [|x l Hl IH Hhd]; intros Hnd Hne; constructor.
  - inversion Hnd; subst. apply IH; auto.
    intros a b Ha Hb. apply Hne; right; assumption.
  - destruct Hhd as [|y l' Hxy]; constructor.
    inversion Hnd as [|? ? Hnin _]; subst.
    assert (x <> y) by (intro E; subst; apply Hnin; left; reflexivity).
    specialize (Hne x y (or_introl eq_refl) (or_intror (or_introl eq_refl)) H). lia.
Qed.

Lemma nondegenerate_pairwise (cmp : A -> A -> option Z) (l : list A) :
  (forall a, sortCompare (cmp a a) = 0) ->
  NonDegenerate cmp l ->
  NoDup l /\ (forall a b, In a l -> In b l -> a <> b -> sortCompare (cmp a b) <> 0).
Proof.
  intros Hrefl Hnd. split.
  - apply NoDup_nth_error. intros i j Hi Hij.
    destruct (Nat.eq_dec i j) as [E|Ne]; [exact E|exfalso].
    destruct (nth_error l i) as [a|] eqn:Ea; [|apply nth_error_None in Ea; lia].
    apply (Hnd i j a a Ne Ea (eq_sym Hij)). apply Hrefl.
  - intros a b Ha Hb Hab.
    apply In_nth_error in Ha as [i Hi]. apply In_nth_error in Hb as [j Hj].
    apply (Hnd i j a b); auto. intro E. subst. congruence.
Qed.

Lemma StronglySorted_unique (R : A -> A -> Prop) :
  (forall a, ~ R a a) -> (forall a b, R a b -> ~ R b a) ->
  forall l1 l2, StronglySorted R l1 -> StronglySorted R l2 -> Permutation l1 l2 -> l1 = l2.
Proof.
  intros Hirr Hasym. induction l1 as [|x l1 IH]; intros l2 H1 H2 Hp.
  - symmetry. apply Permutation_nil. exact Hp.
  - destruct l2 as [|y l2]; [apply Permutation_sym, Permutation_nil in Hp; discriminate|].
    apply StronglySorted_inv in H1 as [H1 F1]. apply StronglySorted_inv in H2 as [H2 F2].
    assert (Hx : In x (y :: l2)) by (apply (Permutation_in x Hp); left; reflexivity).
    destruct Hx as [<-|Hx].
    + f_equal. apply IH; auto. apply Permutation_cons_inv in Hp. exact Hp.
    + exfalso. rewrite Forall_forall in F1, F2.
      assert (Hy : In y (x :: l1)) by (apply (Permutation_in y (Permutation_sym Hp)); left; reflexivity).
      destruct Hy as [<-|Hy].
      * apply (Hirr x). apply F2. exact Hx.
      * apply (Hasym x y); [apply F1 | apply F2]; assumption.
Qed.

Lemma StronglySorted_rev_flip (R : A -> A -> Prop) (l : list A) :
  StronglySorted R l -> StronglySorted (fun a b => R b a) (rev l).
Proof.
  induction 1 as [|x l Hl IH Hf]; simpl; [constructor|].
  clear Hl. rewrite Forall_forall in Hf.
  assert (Hf' : forall y, In y (rev l) -> R x y) by (intros y Hy; apply Hf, in_rev, Hy).
  clear Hf. induction IH as [|y l' Hl' IH' Hf2]; simpl; repeat constructor.
  - apply IH'. intros z Hz. apply Hf'. right. exact Hz.
  - apply Forall_app. split; [exact Hf2|]. constructor; [|constructor].
    apply Hf'. left. reflexivity.
Qed.

Lemma arraySort_opp_rev (cmp : A -> A -> option Z) (l : list A) :
  Consistent cmp -> NonDegenerate cmp l ->
  arraySort (fun a b => option_map Z.opp (cmp a b)) l = rev (arraySort cmp l).
Proof.
  intros Hc Hnd.
  set (cmp' := fun a b => option_map Z.opp (cmp a b)).
  assert (Hopp : forall a b, sortCompare (cmp' a b) = - sortCompare (cmp a b))
    by (intros a b; unfold cmp'; destruct (cmp a b); reflexivity).
  pose proof (consistent_refl cmp Hc) as Hrefl.
  assert (Hc' : Consistent cmp').
  { destruct Hc as [Hs Ht]. split.
    - intros a b. rewrite !Hopp, !Z.sgn_opp, Hs. reflexivity.
    - intros a b d H1 H2. rewrite Hopp in *.
      pose proof (consistent_flip cmp (conj Hs Ht) a b ltac:(lia)) as H1'.
      pose proof (consistent_flip cmp (conj Hs Ht) b d ltac:(lia)) as H2'.
      pose proof (Ht d b a H2' H1') as H3.
      pose proof (Hs d a). destruct (sortCompare (cmp a d)), (sortCompare (cmp d a));
        simpl in *; lia. }
  destruct (nondegenerate_pairwise cmp l Hrefl Hnd) as [HnoDup Hne].
  set (R := fun a b => sortCompare (cmp b a) < 0).
  assert (HtR : forall x y z, R x y -> R y z -> R x z)
    by (intros x y z H1 H2; unfold R in *; exact (proj2 Hc z y x H2 H1)).
  apply (StronglySorted_unique R).
  - intros a. unfold R. rewrite Hrefl. lia.
  - intros a b H1 H2. unfold R in *.
    pose proof (proj1 Hc a b). destruct (sortCompare (cmp a b)), (sortCompare (cmp b a));
      simpl in *; lia.
  - pose proof (arraySort_perm cmp' l) as Hp.
    assert (Hs : Sorted (fun a b => sortCompare (cmp' a b) < 0) (arraySort cmp' l)).
    { apply sorted_strict; [apply arraySort_sorted; exact Hc'| |].
      - apply (Permutation_NoDup Hp HnoDup).
      - intros a b Ha Hb Hab. rewrite Hopp.
        apply (Permutation_in _ (Permutation_sym Hp)) in Ha.
        apply (Permutation_in _ (Permutation_sym Hp)) in Hb.
        specialize (Hne a b Ha Hb Hab). lia. }
    apply Sorted_StronglySorted in Hs.
    + clear -Hs Hopp Hc. induction Hs as [|x l' Hl IH Hf]; constructor; [exact IH|].
      eapply Forall_impl; [|exact Hf]. intros y Hy. unfold R.
      cbv beta in Hy. rewrite Hopp in Hy. apply (consistent_flip cmp Hc). lia.
    + intros x y z H1 H2. exact (proj2 Hc' x y z H1 H2).
  - apply StronglySorted_rev_flip.
    pose proof (arraySort_perm cmp l) as Hp.
    apply Sorted_StronglySorted; [intros x y z; exact (proj2 Hc x y z)|].
    apply sorted_strict; [apply arraySort_sorted; exact Hc| |].
    + apply (Permutation_NoDup Hp HnoDup).
    + intros a b Ha Hb. apply Hne.
      * exact (Permutation_in _ (Permutation_sym Hp) Ha).
      * exact (Permutation_in _ (Permutation_sym Hp) Hb).
  - rewrite <- arraySort_perm, <- Permutation_rev, <- arraySort_perm. reflexivity.
Qed.

End SortLemmas.

Lemma comparison_consistent (getTime : jsstring -> option Z)
    (localeCompare : jsstring -> jsstring -> Z) :
  (forall a b, Z.sgn (localeCompare b a) = - Z.sgn (localeCompare a b)) ->
  (forall a b d, localeCompare a b < 0 -> localeCompare b d < 0 -> localeCompare a d < 0) ->
  forall sortCriteria, Consistent (comparison getTime localeCompare sortCriteria).
Proof.
  intros Hs Ht [| |]; split; simpl.
  - intros a b.
    destruct (getTime (MediaItem.addedAt a)), (getTime (MediaItem.addedAt b)); simpl;
      try reflexivity.
    rewrite <- Z.sgn_opp. f_equal. lia.
  - intros a b d.
    destruct (getTime (MediaItem.addedAt a)), (getTime (MediaItem.addedAt b)),
             (getTime (MediaItem.addedAt d)); simpl; lia.
  - intros a b. apply Hs.
  - intros a b d. apply Ht.
  - intros a b. rewrite <- Z.sgn_opp. f_equal. lia.
  - intros a b d. lia.
Qed.

(* ------------------------------------------------------------------ *)
(** ** Sorting: claim *)

(** C6: for a consistent [localeCompare], [getSortedItems] returns a
    permutation of its input ordered by the chosen key (added timestamp,
    title by [localeCompare], or rating with an absent rating as 0); and
    when no two items compare equal under that key, sorting in descending
    order gives exactly the reverse of the ascending result. *)
Theorem getSortedItems_desc_is_reverse (getTime : jsstring -> option Z)
    (localeCompare : jsstring -> jsstring -> Z)
    (Hsgn : forall a b, Z.sgn (localeCompare b a) = - Z.sgn (localeCompare a b))
    (Htrans : forall a b d, localeCompare a b < 0 -> localeCompare b d < 0 ->
                            localeCompare a d < 0)
    (sortCriteria : SortCriteria) (l : list MediaItem.t) :
  Permutation l (getSortedItems getTime localeCompare sortCriteria ASC l) /\
  Sorted (fun a b => sortCompare (comparison getTime localeCompare sortCriteria a b) <= 0)
    (getSortedItems getTime localeCompare sortCriteria ASC l) /\
  (NonDegenerate (comparison getTime localeCompare sortCriteria) l ->
   getSortedItems getTime localeCompare sortCriteria DESC l =
   rev (getSortedItems getTime localeCompare sortCriteria ASC l)).
Proof.
  pose proof (comparison_consistent getTime localeCompare Hsgn Htrans sortCriteria) as Hc.
  split; [apply arraySort_perm|]. split; [apply arraySort_sorted; exact Hc|].
  intro Hnd. unfold getSortedItems, sortComparator.
  apply arraySort_opp_rev; assumption.
Qed.

Lemma getSortedItems_desc_is_reverse_witness :
  let getTime := fun _ : jsstring => @None Z in
  let localeCompare := fun _ _ : jsstring => 0 in
  let mk (t : jsstring) (r : option Z) :=
    MediaItem.mk t t None GAME [] [] [] COMPLETED r None [] [] [] None None in
  let l := [mk (js "a") (Some 3); mk (js "b") None; mk (js "c") (Some 5)] in
  (forall a b, Z.sgn (localeCompare b a) = - Z.sgn (localeCompare a b)) /\
  (forall a b d, localeCompare a b < 0 -> localeCompare b d < 0 -> localeCompare a d < 0) /\
  NonDegenerate (comparison getTime localeCompare RATING) l /\
  getSortedItems getTime localeCompare RATING DESC l =
  rev (getSortedItems getTime localeCompare RATING ASC l).
Proof.
  intros getTime localeCompare mk l.
  assert (H1 : forall a b, Z.sgn (localeCompare b a) = - Z.sgn (localeCompare a b))
    by reflexivity.
  assert (H2 : forall a b d, localeCompare a b < 0 -> localeCompare b d < 0 ->
                             localeCompare a d < 0)
    by (intros a b d H; discriminate H).
  assert (H3 : NonDegenerate (comparison getTime localeCompare RATING) l).
  { intros i j a b Hij Hi Hj.
    destruct i as [|[|[|i]]]; destruct j as [|[|[|j]]]; simpl in Hi, Hj;
      try discriminate; try (destruct i; discriminate); try (destruct j; discriminate);
      injection Hi as <-; injection Hj as <-; try congruence; vm_compute; discriminate. }
  split; [exact H1|]. split; [exact H2|]. split; [exact H3|].
  exact (proj2 (proj2 (getSortedItems_desc_is_reverse getTime localeCompare H1 H2 RATING l)) H3).
Defined.

(** Sorting by title with the code-unit order, both directions. *)
Example getSortedItems_title_example :
  let mk (t : jsstring) :=
    MediaItem.mk t t None BOOK [] [] [] WANT_TO None None [] [] [] None None in
  let l := [mk (js "Dune"); mk (js "Anathem"); mk (js "Emma")] in
  map MediaItem.title (getSortedItems (fun _ => None) codeUnitCompare TITLE ASC l) =
    [js "Anathem"; js "Dune"; js "Emma"] /\
  map MediaItem.title (getSortedItems (fun _ => None) codeUnitCompare TITLE DESC l) =
    [js "Emma"; js "Dune"; js "Anathem"].
Proof. split; vm_compute; reflexivity. Qed.

(* ------------------------------------------------------------------ *)
(** ** Searching: supporting lemmas *)

Lemma lastSearch_snoc (events : list SearchEvent) (e : SearchEvent) :
  lastSearch (events ++ [e]) =
  match e with
  | Search q ty => if Nat.eqb (length (trim q)) 0 then lastSearch events else Some (q, ty)
  | _ => lastSearch events
  end.
Proof.
  induction events as [|a events IH]; simpl.
  - destruct e; try reflexivity.
  - rewrite IH. destruct e; try reflexivity.
    destruct (Nat.eqb _ 0); reflexivity.
Qed.

Lemma filter_timers_of (c : nat) (l : list (nat * jsstring * ItemType)) :
  (forall c' q ty, In (c', q, ty) l -> c' = c) ->
  filter (fun t => negb (timerOf c t)) l = [].
Proof.
  induction l as [|[[c' q] ty] l IH]; intros H; simpl; [reflexivity|].
  rewrite (H c' q ty (or_introl eq_refl)). unfold timerOf. simpl.
  rewrite Nat.eqb_refl. simpl. apply IH. intros c'' q' ty' Hin.
  exact (H c'' q' ty' (or_intror Hin)).
Qed.

Lemma SearchInv_timers_current (events : list SearchEvent) (s : SearchState) (c : nat) :
  SearchInv events s -> abortControllerRef s = Some c ->
  filter (fun t => negb (timerOf c t)) (pendingTimers s) = [].
Proof.
  intros [_ [H1 _]] Hr. apply filter_timers_of.
  intros c' q ty Hin. destruct (H1 c' q ty Hin) as [Hc _]. congruence.
Qed.

Lemma SearchInv_timers_idle (events : list SearchEvent) (s : SearchState) :
  SearchInv events s -> abortControllerRef s = None -> pendingTimers s = [].
Proof.
  intros [_ [H1 _]] Hr. destruct (pendingTimers s) as [|[[c q] ty] l] eqn:E;
    [reflexivity|].
  destruct (H1 c q ty) as [Hc _]; [rewrite ?E; left; reflexivity|]. congruence.
Qed.

Lemma handleSearch_current (events : list SearchEvent) (s : SearchState)
    (c : nat) (q : jsstring) (ty : ItemType) :
  SearchInv events s -> abortControllerRef s = Some c ->
  Nat.eqb (length (trim q)) 0 = false ->
  handleSearch q ty s =
  mkSearchState (Some (nextController s)) (c :: abortedSignals s)
    [(nextController s, q, ty)] emptyResults true (S (nextController s)).
Proof.
  intros Hinv Hr Hq. pose proof Hinv as [H0 _].
  pose proof (H0 c Hr) as Hlt.
  pose proof (SearchInv_timers_current events s c Hinv Hr) as Hf.
  unfold handleSearch. rewrite Hq, Hr. unfold abortController, rejectContinuation.
  rewrite Hf. simpl.
  destruct (Nat.eqb (nextController s) c) eqn:E.
  - apply Nat.eqb_eq in E. lia.
  - reflexivity.
Qed.

Lemma handleSearch_idle (events : list SearchEvent) (s : SearchState)
    (q : jsstring) (ty : ItemType) :
  SearchInv events s -> abortControllerRef s = None ->
  Nat.eqb (length (trim q)) 0 = false ->
  handleSearch q ty s =
  mkSearchState (Some (nextController s)) (abortedSignals s)
    [(nextController s, q, ty)] emptyResults true (S (nextController s)).
Proof.
  intros Hinv Hr Hq.
  pose proof (SearchInv_timers_idle events s Hinv Hr) as Ht.
  unfold handleSearch. rewrite Hq, Hr. simpl. rewrite Ht. reflexivity.
Qed.

Lemma SearchInv_init : SearchInv [] initialSearchState.
Proof.
  split; [|split].
  - intros c H. discriminate H.
  - intros c q ty H. destruct H.
  - left. reflexivity.
Qed.

Lemma SearchInv_step (events : list SearchEvent) (s : SearchState) (e : SearchEvent) :
  SearchInv events s -> SearchInv (events ++ [e]) (searchStep s e).
Proof.
  intros Hinv. pose proof Hinv as [H0 [H1 H2]].
  unfold SearchInv. rewrite lastSearch_snoc.
  destruct e as [q ty| | |c year]; simpl.
  - destruct (Nat.eqb (length (trim q)) 0) eqn:Hq.
    + unfold handleSearch. rewrite Hq. exact Hinv.
    + destruct (abortControllerRef s) as [c|] eqn:Hr.
      * rewrite (handleSearch_current events s c q ty Hinv Hr Hq). simpl.
        split; [|split].
        -- intros c' E. injection E as <-. lia.
        -- intros c' q' ty' [E|[]]. injection E as <- <- <-. split; reflexivity.
        -- left. reflexivity.
      * rewrite (handleSearch_idle events s q ty Hinv Hr Hq). simpl.
        split; [|split].
        -- intros c' E. injection E as <-. lia.
        -- intros c' q' ty' [E|[]]. injection E as <- <- <-. split; reflexivity.
        -- left. reflexivity.
  - unfold handleStopSearch. destruct (abortControllerRef s) as [c|] eqn:Hr.
    + unfold abortController, rejectContinuation. simpl.
      rewrite (SearchInv_timers_current events s c Hinv Hr).
      split; [|split].
      * intros c' E. discriminate E.
      * intros c' q' ty' [].
      * exact H2.
    + rewrite Hr. split; [|split]; [exact H0|exact H1|exact H2].
  - unfold resetSearch. simpl. destruct (abortControllerRef s) as [c|] eqn:Hr.
    + unfold abortController, rejectContinuation. simpl.
      rewrite (SearchInv_timers_current events s c Hinv Hr).
      split; [|split].
      * intros c' E. discriminate E.
      * intros c' q' ty' [].
      * left. reflexivity.
    + simpl. split; [|split].
      * intros c' E. rewrite ?Hr in E. discriminate E.
      * intros c' q' ty' Hin. rewrite (SearchInv_timers_idle events s Hinv Hr) in Hin.
        destruct Hin.
      * left. reflexivity.
  - unfold fireTimer.
    destruct (find (timerOf c) (pendingTimers s)) as [[[c' q] ty]|] eqn:Hfind;
      [|exact Hinv].
    apply find_some in Hfind. destruct Hfind as [Hin Ht].
    unfold timerOf in Ht. simpl in Ht. apply Nat.eqb_eq in Ht. subst c'.
    destruct (H1 c q ty Hin) as [Hr Hl].
    rewrite (SearchInv_timers_current events s c Hinv Hr).
    unfold rejectContinuation, resolveContinuation, isCurrent. simpl. rewrite Hr.
    rewrite Nat.eqb_refl.
    destruct (existsb (Nat.eqb c) (abortedSignals s)); simpl; (split; [|split]).
    + intros c' E. discriminate E.
    + intros c' q' ty' [].
    + exact H2.
    + intros c' E. discriminate E.
    + intros c' q' ty' [].
    + right. exists q, ty, year. split; [exact Hl|reflexivity].
Qed.

Lemma SearchInv_run (events : list SearchEvent) : SearchInv events (runSearch events).
Proof.
  induction events as [|e events IH] using rev_ind.
  - exact SearchInv_init.
  - unfold runSearch. rewrite fold_left_app. simpl. apply SearchInv_step. exact IH.
Qed.

(* ------------------------------------------------------------------ *)
(** ** Searching: claim *)

(** C9: on every run of the page, a new search with a non-blank query
    aborts the request in flight before it starts its own (the abort clears
    the old request's timer and rejects it, so its late resolution never
    reaches the results), and no timer of a superseded request remains. Every pending timer belongs to the tracked
    controller and carries the latest search's query, and the displayed
    results are always empty or the results of the latest search's query. *)
Theorem handleSearch_shows_only_latest (events : list SearchEvent) :
  let s := runSearch events in
  (searchResults s = emptyResults \/
   exists q ty year, lastSearch events = Some (q, ty) /\
                     searchResults s = placeholderResults q ty year) /\
  (forall c q ty, In (c, q, ty) (pendingTimers s) ->
     abortControllerRef s = Some c /\ lastSearch events = Some (q, ty)) /\
  (forall c q ty, abortControllerRef s = Some c -> Nat.eqb (length (trim q)) 0 = false ->
     In c (abortedSignals (handleSearch q ty s)) /\
     forall c' q' ty', In (c', q', ty') (pendingTimers (handleSearch q ty s)) -> c' <> c).
Proof.
  intros s. pose proof (SearchInv_run events) as Hinv. fold s in Hinv.
  pose proof Hinv as [H0 [H1 H2]].
  split; [exact H2|]. split; [exact H1|].
  intros c q ty Hr Hq.
  rewrite (handleSearch_current events s c q ty Hinv Hr Hq). simpl.
  split; [left; reflexivity|].
  intros c' q' ty' [E|[]]. injection E as <- _ _.
  pose proof (H0 c Hr). lia.
Qed.

(** Two searches in a row, then both timers: only the second query is shown
    (the first timer was cleared by the abort). *)
Example handleSearch_two_searches_example :
  searchResults (runSearch [Search (js "dune") BOOK; Search (js "emma") BOOK;
                            TimerFires 0 (js "2026"); TimerFires 1 (js "2026")]) =
  placeholderResults (js "emma") BOOK (js "2026").
Proof. vm_compute. reflexivity. Qed.

(* ------------------------------------------------------------------ *)
(** ** Sharing a collection: the share token round trip *)

Lemma hexValue_lower (n : Z) : 0 <= n < 16 -> hexValue (hexDigitLower n) = Some n.
Proof.
  intros H. unfold hexDigitLower, hexValue.
  destruct (n <? 10) eqn:E.
  - apply Z.ltb_lt in E.
    replace ((48 <=? 48 + n) && (48 + n <=? 57)) with true by (symmetry; apply andb_true_intro; split; apply Z.leb_le; lia).
    f_equal. lia.
  - apply Z.ltb_ge in E.
    replace ((48 <=? 87 + n) && (87 + n <=? 57)) with false by (symmetry; apply andb_false_intro2; apply Z.leb_gt; lia).
    replace ((65 <=? 87 + n) && (87 + n <=? 70)) with false by (symmetry; apply andb_false_intro2; apply Z.leb_gt; lia).
    replace ((97 <=? 87 + n) && (87 + n <=? 102)) with true by (symmetry; apply andb_true_intro; split; apply Z.leb_le; lia).
    f_equal. lia.
Qed.

Lemma hexValue_upper (n : Z) : 0 <= n < 16 -> hexValue (hexDigitUpper n) = Some n.
Proof.
  intros H. unfold hexDigitUpper, hexValue.
  destruct (n <? 10) eqn:E.
  - apply Z.ltb_lt in E.
    replace ((48 <=? 48 + n) && (48 + n <=? 57)) with true by (symmetry; apply andb_true_intro; split; apply Z.leb_le; lia).
    f_equal. lia.
  - apply Z.ltb_ge in E.
    replace ((48 <=? 55 + n) && (55 + n <=? 57)) with false by (symmetry; apply andb_false_intro2; apply Z.leb_gt; lia).
    replace ((65 <=? 55 + n) && (55 + n <=? 70)) with true by (symmetry; apply andb_true_intro; split; apply Z.leb_le; lia).
    f_equal. lia.
Qed.

Lemma hexDigitLower_range (n : Z) : 0 <= n < 16 -> 48 <= hexDigitLower n <= 102.
Proof. intros H. unfold hexDigitLower. destruct (n <? 10) eqn:E; [apply Z.ltb_lt in E|apply Z.ltb_ge in E]; lia. Qed.

Lemma hexDigitUpper_range (n : Z) : 0 <= n < 16 -> 48 <= hexDigitUpper n <= 70.
Proof. intros H. unfold hexDigitUpper. destruct (n <? 10) eqn:E; [apply Z.ltb_lt in E|apply Z.ltb_ge in E]; lia. Qed.

Lemma mod16_range (x : Z) : 0 <= x mod 16 < 16.
Proof. apply Z.mod_pos_bound. lia. Qed.

Lemma parseStringChars_unicodeEscape (c : Z) (s : jsstring) :
  0 <= c < 65536 ->
  parseStringChars (unicodeEscape c ++ s) = consUnit c (parseStringChars s).
Proof.
  intros H. unfold unicodeEscape. simpl.
  rewrite !hexValue_lower by apply mod16_range.
  f_equal. Z.div_mod_to_equations. lia.
Qed.

Lemma parseStringChars_plain (c : Z) (s : jsstring) :
  32 <= c -> c <> 34 -> c <> 92 ->
  parseStringChars (c :: s) = consUnit c (parseStringChars s).
Proof.
  intros H1 H2 H3. simpl.
  replace (c =? 34) with false by (symmetry; apply Z.eqb_neq; exact H2).
  replace (c =? 92) with false by (symmetry; apply Z.eqb_neq; exact H3).
  replace (c <? 32) with false by (symmetry; apply Z.ltb_ge; exact H1).
  reflexivity.
Qed.

Lemma isCodeUnit_spec (c : Z) : isCodeUnit c = true <-> 0 <= c < 65536.
Proof.
  unfold isCodeUnit. rewrite andb_true_iff, Z.leb_le, Z.ltb_lt. tauto.
Qed.

Ltac zbool :=
  repeat match goal with
  | H : (_ =? _) = true |- _ => apply Z.eqb_eq in H
  | H : (_ =? _) = false |- _ => apply Z.eqb_neq in H
  | H : (_ <? _) = true |- _ => apply Z.ltb_lt in H
  | H : (_ <? _) = false |- _ => apply Z.ltb_ge in H
  | H : (_ <=? _) = true |- _ => apply Z.leb_le in H
  | H : (_ <=? _) = false |- _ => apply Z.leb_gt in H
  | H : (_ && _) = true |- _ => apply andb_true_iff in H; destruct H
  | H : (_ && _) = false |- _ => apply andb_false_iff in H; destruct H
  | H : (_ || _) = true |- _ => apply orb_true_iff in H; destruct H
  | H : (_ || _) = false |- _ => apply orb_false_iff in H; destruct H
  | H : negb _ = true |- _ => apply negb_true_iff in H
  | H : negb _ = false |- _ => apply negb_false_iff in H
  end.

Arguments unicodeEscape : simpl never.

Lemma parseStringChars_quoteChars (s rest : jsstring) :
  forallb isCodeUnit s = true ->
  parseStringChars (quoteChars s ++ 34 :: rest) = Some (s, rest).
Proof.
  remember (length s) as n eqn:Hn. revert s Hn.
  induction n as [n IH] using (well_founded_induction lt_wf).
  intros s Hn Hs. destruct s as [|c s'].
  - reflexivity.
  - simpl in Hs. apply andb_true_iff in Hs as [Hc Hs']. apply isCodeUnit_spec in Hc.
    assert (IH1 : parseStringChars (quoteChars s' ++ 34 :: rest) = Some (s', rest)).
    { apply (IH (length s')); [simpl in Hn; lia|reflexivity|exact Hs']. }
    cbn [quoteChars].
    destruct (c =? 8) eqn:E8; [zbool; subst; simpl; rewrite IH1; reflexivity|].
    destruct (c =? 9) eqn:E9; [zbool; subst; simpl; rewrite IH1; reflexivity|].
    destruct (c =? 10) eqn:E10; [zbool; subst; simpl; rewrite IH1; reflexivity|].
    destruct (c =? 12) eqn:E12; [zbool; subst; simpl; rewrite IH1; reflexivity|].
    destruct (c =? 13) eqn:E13; [zbool; subst; simpl; rewrite IH1; reflexivity|].
    destruct (c =? 34) eqn:E34; [zbool; subst; simpl; rewrite IH1; reflexivity|].
    destruct (c =? 92) eqn:E92; [zbool; subst; simpl; rewrite IH1; reflexivity|].
    zbool.
    destruct (c <? 32) eqn:E32.
    { rewrite <- app_assoc. rewrite parseStringChars_unicodeEscape by lia.
      rewrite IH1. reflexivity. }
    zbool.
    destruct (isLeadSurrogate c) eqn:EL.
    + unfold isLeadSurrogate in EL. zbool.
      destruct s' as [|d s''].
      * rewrite parseStringChars_unicodeEscape by lia. reflexivity.
      * cbv beta iota. destruct (isTrailSurrogate d) eqn:ET.
        -- unfold isTrailSurrogate in ET. zbool.
           simpl in Hs'. apply andb_true_iff in Hs' as [Hd Hs''].
           apply isCodeUnit_spec in Hd.
           assert (IH2 : parseStringChars (quoteChars s'' ++ 34 :: rest) = Some (s'', rest)).
           { apply (IH (length s'')); [simpl in Hn; lia|reflexivity|exact Hs'']. }
           simpl app. rewrite parseStringChars_plain by lia.
           rewrite parseStringChars_plain by lia. rewrite IH2. reflexivity.
        -- rewrite <- app_assoc. rewrite parseStringChars_unicodeEscape by lia.
           rewrite IH1. reflexivity.
    + destruct (isTrailSurrogate c) eqn:ET.
      * rewrite <- app_assoc. rewrite parseStringChars_unicodeEscape by lia.
        rewrite IH1. reflexivity.
      * simpl app. rewrite parseStringChars_plain by lia. rewrite IH1. reflexivity.
Qed.

Lemma serializeJson_head (v : json) :
  jsonStringsOk v = true ->
  exists c t, serializeJson v = c :: t /\ isJsonWhiteSpace c = false /\ c <> 93 /\ c <> 125 /\ c <> 44.
Proof.
  destruct v as [| [|] | lx | s | elems | ms]; simpl; unfold QuoteJSONString; intros H; try discriminate H;
    do 2 eexists; repeat split; try reflexivity; intro E; vm_compute in E; discriminate E.
Qed.

Lemma skipWs_serializeJson (v : json) (rest : jsstring) :
  jsonStringsOk v = true ->
  skipWs (serializeJson v ++ rest) = serializeJson v ++ rest.
Proof.
  intros H. destruct (serializeJson_head v H) as (c & t & E & Hw & _).
  rewrite E. simpl. rewrite Hw. reflexivity.
Qed.

Lemma parseMembers_step (k : jsstring) (x : json) (tail : jsstring) (f : nat) :
  forallb isCodeUnit k = true ->
  (forall fuel rest, (jsonSize x <= fuel)%nat ->
     parseValue fuel (serializeJson x ++ rest) = Some (x, rest)) ->
  (jsonSize x <= f)%nat ->
  parseMembers (S f) ((QuoteJSONString k ++ 58 :: serializeJson x) ++ tail) =
  match skipWs tail with
  | 44 :: r3 =>
      match parseMembers f r3 with Some (ms, r4) => Some ((k, x) :: ms, r4) | None => None end
  | 125 :: r3 => Some ([(k, x)], r3)
  | _ => None
  end.
Proof.
  intros Hk Hx Hf. unfold QuoteJSONString.
  rewrite <- app_comm_cons, <- !app_assoc. cbn [app].
  cbn [parseMembers skipWs isJsonWhiteSpace Z.eqb Pos.eqb orb].
  rewrite <- !app_assoc. cbn [app].
  rewrite parseStringChars_quoteChars by exact Hk.
  cbn [skipWs isJsonWhiteSpace Z.eqb Pos.eqb orb].
  rewrite Hx by exact Hf. reflexivity.
Qed.

Lemma parseValue_serializeJson (v : json) :
  jsonStringsOk v = true ->
  forall fuel rest, (jsonSize v <= fuel)%nat ->
  parseValue fuel (serializeJson v ++ rest) = Some (v, rest).
Proof.
  induction v as [| b | lx | s | elems IHe | ms IHm] using json_ind';
    intros Hok fuel rest Hf; (destruct fuel as [|fuel]; [simpl in Hf; lia|]).
  - reflexivity.
  - destruct b; reflexivity.
  - discriminate Hok.
  - simpl in Hok. change (serializeJson (JStr s)) with (34 :: quoteChars s ++ [34]).
    rewrite <- app_comm_cons, <- app_assoc. cbn [app].
    simpl. rewrite parseStringChars_quoteChars by exact Hok.
    reflexivity.
  - simpl in Hok, Hf. destruct elems as [|v vs]; [reflexivity|].
    change (serializeJson (JArr (v :: vs)))
      with (91 :: joinComma (map serializeJson (v :: vs)) ++ [93]).
    rewrite <- app_comm_cons, <- app_assoc. cbn [app].
    cbn [parseValue skipWs isJsonWhiteSpace Z.eqb Pos.eqb orb].
    apply Nat.succ_le_mono in Hf.
    rewrite forallb_forall in Hok.
    assert (Hel : forall l, (forall x, In x l -> jsonStringsOk x = true) -> Forall (fun v0 =>
        jsonStringsOk v0 = true -> forall fuel0 rest0, (jsonSize v0 <= fuel0)%nat ->
        parseValue fuel0 (serializeJson v0 ++ rest0) = Some (v0, rest0)) l ->
        l <> [] -> forall fuel0 rest0,
        (fold_right (fun e n => S (jsonSize e + n)) O l <= fuel0)%nat ->
        parseElements fuel0 (joinComma (map serializeJson l) ++ 93 :: rest0) = Some (l, rest0)).
    { clear. induction l as [|x l IHl]; intros Hok Hp Hne fuel0 rest0 Hf; [congruence|].
      destruct fuel0 as [|fuel0]; [simpl in Hf; lia|].
      inversion Hp as [|? ? Hx Hp']; subst.
      simpl in Hf. apply Nat.succ_le_mono in Hf.
      assert (Hxo : jsonStringsOk x = true) by (apply Hok; left; reflexivity).
      destruct l as [|y l'].
      - simpl. rewrite Hx by (exact Hxo || lia). reflexivity.
      - change (joinComma (map serializeJson (x :: y :: l')))
          with (serializeJson x ++ 44 :: joinComma (map serializeJson (y :: l'))).
        rewrite <- app_assoc. simpl app. simpl parseElements. rewrite Hx by (exact Hxo || lia).
        simpl skipWs. cbn [isJsonWhiteSpace Z.eqb Pos.eqb orb].
        rewrite IHl; [reflexivity| |exact Hp'|congruence|].
        + intros z Hz. apply Hok. right. exact Hz.
        + simpl in Hf |- *. lia. }
    destruct (serializeJson_head v (Hok v (or_introl eq_refl))) as (c & t & E & Hw & H93 & _).
    assert (Hsk : skipWs (joinComma (map serializeJson (v :: vs)) ++ 93 :: rest) =
                  joinComma (map serializeJson (v :: vs)) ++ 93 :: rest).
    { destruct vs; simpl; rewrite E; simpl; rewrite Hw; reflexivity. }
    rewrite Hsk.
    assert (Hhd : exists t', joinComma (map serializeJson (v :: vs)) ++ 93 :: rest = c :: t').
    { destruct vs; simpl; rewrite E; eexists; reflexivity. }
    destruct Hhd as [t' Ht']. rewrite Ht'.
    replace (match c with 93 => _ | _ => _ end) with
      (match parseElements fuel (c :: t') with Some (vs0, r) => Some (JArr vs0, r) | None => None end).
    2:{ destruct c as [|p|p]; try reflexivity; destruct p; try reflexivity;
        repeat (destruct p; try reflexivity); exfalso; lia. }
    rewrite <- Ht'. rewrite Hel; [reflexivity|exact Hok|exact IHe|congruence|exact Hf].
  - simpl in Hok, Hf. destruct ms as [|[k x] ms']; [reflexivity|].
    set (memberText := fun kv : jsstring * json =>
           let '(k0, e) := kv in QuoteJSONString k0 ++ 58 :: serializeJson e).
    change (serializeJson (JObj ((k, x) :: ms')))
      with (123 :: joinComma (map memberText ((k, x) :: ms')) ++ [125]).
    rewrite <- app_comm_cons, <- app_assoc. cbn [app].
    cbn [parseValue skipWs isJsonWhiteSpace Z.eqb Pos.eqb orb].
    apply Nat.succ_le_mono in Hf.
    rewrite forallb_forall in Hok.
    assert (Hmem : forall l,
        (forall kv, In kv l -> (let '(k0, e) := kv in
                                forallb isCodeUnit k0 && jsonStringsOk e) = true) ->
        Forall (fun kv => jsonStringsOk (snd kv) = true -> forall fuel0 rest0,
                   (jsonSize (snd kv) <= fuel0)%nat ->
                   parseValue fuel0 (serializeJson (snd kv) ++ rest0) = Some (snd kv, rest0)) l ->
        l <> [] -> forall fuel0 rest0,
        (fold_right (fun '(_, e) n => S (jsonSize e + n)) O l <= fuel0)%nat ->
        parseMembers fuel0 (joinComma (map memberText l) ++ 125 :: rest0) = Some (l, rest0)).
    { clear. induction l as [|[k0 x0] l IHl]; intros Hok Hp Hne fuel0 rest0 Hf; [congruence|].
      destruct fuel0 as [|fuel0]; [simpl in Hf; lia|].
      inversion Hp as [|? ? Hx Hp']; subst.
      simpl in Hf. apply Nat.succ_le_mono in Hf.
      assert (Hxo : forallb isCodeUnit k0 && jsonStringsOk x0 = true)
        by exact (Hok (k0, x0) (or_introl eq_refl)).
      apply andb_true_iff in Hxo as [Hk0 Hx0]. simpl in Hx.
      destruct l as [|y l'].
      - change (joinComma (map memberText [(k0, x0)])) with
          (QuoteJSONString k0 ++ 58 :: serializeJson x0).
        rewrite parseMembers_step; [reflexivity|exact Hk0|exact (Hx Hx0)|lia].
      - change (joinComma (map memberText ((k0, x0) :: y :: l')))
          with ((QuoteJSONString k0 ++ 58 :: serializeJson x0) ++
                  44 :: joinComma (map memberText (y :: l'))).
        rewrite <- app_assoc. cbn [app].
        rewrite parseMembers_step; [|exact Hk0|exact (Hx Hx0)|lia].
        cbn [skipWs isJsonWhiteSpace Z.eqb Pos.eqb orb].
        rewrite IHl; [reflexivity| |exact Hp'|congruence|].
        + intros z Hz. apply Hok. right. exact Hz.
        + simpl in Hf |- *. lia. }
    assert (Hhd : exists t', joinComma (map memberText ((k, x) :: ms')) ++ 125 :: rest = 34 :: t').
    { destruct ms'; simpl; unfold QuoteJSONString; eexists; reflexivity. }
    destruct Hhd as [t' Ht']. rewrite Ht'. cbn [skipWs isJsonWhiteSpace Z.eqb Pos.eqb orb].
    rewrite <- Ht'. rewrite Hmem; [reflexivity|exact Hok|exact IHm|congruence|exact Hf].
Qed.

Lemma joinComma_length (ps : list jsstring) :
  (fold_right (fun p n => S (length p + n)) O ps <= S (length (joinComma ps)))%nat.
Proof.
  induction ps as [|p ps IH]; simpl; [lia|].
  destruct ps as [|q ps']; simpl in *; [lia|].
  rewrite length_app. simpl. lia.
Qed.

Lemma jsonSize_le_length (v : json) :
  jsonStringsOk v = true -> (jsonSize v <= length (serializeJson v))%nat.
Proof.
  induction v as [| b | lx | s | elems IHe | ms IHm] using json_ind'; intros Hok.
  - simpl. lia.
  - destruct b; simpl; lia.
  - discriminate Hok.
  - simpl. lia.
  - simpl in Hok |- *. rewrite length_app. simpl.
    rewrite forallb_forall in Hok.
    assert (H : (fold_right (fun e n => S (jsonSize e + n)) O elems <=
                 fold_right (fun p n => S (length p + n)) O (map serializeJson elems))%nat).
    { clear - IHe Hok. induction elems as [|e l IH]; simpl; [lia|].
      inversion IHe as [|? ? He Hl]; subst.
      assert (jsonSize e <= length (serializeJson e))%nat
        by (apply He, Hok; left; reflexivity).
      assert (fold_right (fun e n => S (jsonSize e + n)) O l <=
              fold_right (fun p n => S (length p + n)) O (map serializeJson l))%nat
        by (apply IH; [exact Hl|intros x Hx; apply Hok; right; exact Hx]).
      lia. }
    pose proof (joinComma_length (map serializeJson elems)). lia.
  - cbn [jsonStringsOk] in Hok. cbn [serializeJson jsonSize length]. rewrite length_app.
    cbn [length].
    rewrite forallb_forall in Hok.
    set (memberText := fun kv : jsstring * json =>
           let '(k0, e) := kv in QuoteJSONString k0 ++ 58 :: serializeJson e).
    assert (H : (fold_right (fun '(_, e) n => S (jsonSize e + n)) O ms <=
                 fold_right (fun p n => S (length p + n)) O (map memberText ms))%nat).
    { clear - IHm Hok. induction ms as [|[k e] l IH]; simpl; [lia|].
      inversion IHm as [|? ? He Hl]; subst.
      assert (Hke : forallb isCodeUnit k && jsonStringsOk e = true)
        by exact (Hok (k, e) (or_introl eq_refl)).
      apply andb_true_iff in Hke as [_ Heo].
      assert (jsonSize e <= length (serializeJson e))%nat by exact (He Heo).
      assert (fold_right (fun '(_, e) n => S (jsonSize e + n)) O l <=
              fold_right (fun p n => S (length p + n)) O (map memberText l))%nat
        by (apply IH; [exact Hl|intros x Hx; apply Hok; right; exact Hx]).
      assert (jsonSize e <= length ((quoteChars k ++ [34%Z]) ++ 58%Z :: serializeJson e))%nat
        by (rewrite length_app; simpl; lia).
      cbn [map fold_right]. lia. }
    pose proof (joinComma_length (map memberText ms)). fold memberText. lia.
Qed.

Lemma JSON_parse_serializeJson (v : json) :
  jsonStringsOk v = true -> JSON_parse (serializeJson v) = Some v.
Proof.
  intros Hok. unfold JSON_parse.
  pose proof (parseValue_serializeJson v Hok (S (length (serializeJson v))) [])
    as H. rewrite app_nil_r in H. rewrite H; [reflexivity|].
  pose proof (jsonSize_le_length v Hok). lia.
Qed.

Lemma stringifyValue_serializeJson (v : jsval) :
  stringifyValue v = option_map serializeJson (jsvalToJson v).
Proof.
  induction v as [| | b | s | elems IHe | ps IHp] using jsval_ind'.
  - reflexivity.
  - reflexivity.
  - destruct b; reflexivity.
  - reflexivity.
  - cbn [stringifyValue jsvalToJson option_map serializeJson]. f_equal. f_equal.
    f_equal. f_equal. rewrite map_map. apply map_ext_in.
    intros e He. rewrite Forall_forall in IHe. rewrite (IHe e He).
    destruct (jsvalToJson e); reflexivity.
  - cbn [stringifyValue jsvalToJson option_map serializeJson]. f_equal. f_equal.
    f_equal. f_equal. induction ps as [|[k e] ps IH]; [reflexivity|].
    inversion IHp as [|? ? He Hps]; subst. simpl in He.
    cbn [flat_map]. rewrite map_app. rewrite (IH Hps). f_equal.
    rewrite He. destruct (jsvalToJson e); reflexivity.
Qed.

Arguments readOctet : simpl never.
Arguments hexDigitUpper : simpl never.

Lemma readOctet_percent (b : Z) (r : jsstring) :
  0 <= b < 256 ->
  readOctet (37 :: hexDigitUpper (b / 16) :: hexDigitUpper (b mod 16) :: r) = Some (b, r).
Proof.
  intros H. unfold readOctet.
  rewrite !hexValue_upper.
  - f_equal. f_equal. pose proof (Z.div_mod b 16). lia.
  - apply Z.mod_pos_bound. lia.
  - split; [apply Z.div_pos; lia|apply Z.div_lt_upper_bound; lia].
Qed.

Lemma percentEncode_cons (b : Z) (bs r : jsstring) :
  percentEncode (b :: bs) ++ r =
  37 :: hexDigitUpper (b / 16) :: hexDigitUpper (b mod 16) :: (percentEncode bs ++ r).
Proof. reflexivity. Qed.

Ltac zb_rewrite :=
  repeat (match goal with
  | |- context [?a <? ?b] =>
      first [ rewrite (proj2 (Z.ltb_lt a b)) by lia | rewrite (proj2 (Z.ltb_ge a b)) by lia ]
  | |- context [?a <=? ?b] =>
      first [ rewrite (proj2 (Z.leb_le a b)) by lia | rewrite (proj2 (Z.leb_gt a b)) by lia ]
  | |- context [?a =? ?b] =>
      first [ rewrite (proj2 (Z.eqb_eq a b)) by lia | rewrite (proj2 (Z.eqb_neq a b)) by lia ]
  end; cbn [andb orb negb readContinuations]).

Lemma decodeURIAux_1 (b0 : Z) (f : nat) (r : jsstring) :
  0 <= b0 < 128 ->
  decodeURIAux (S f) (percentEncode [b0] ++ r) = decodeStep b0 f r.
Proof.
  intros H. rewrite percentEncode_cons. cbn [decodeURIAux Z.eqb negb Pos.eqb].
  rewrite readOctet_percent by lia. zb_rewrite. reflexivity.
Qed.

Lemma decodeURIAux_2 (b0 b1 : Z) (f : nat) (r : jsstring) :
  194 <= b0 < 224 -> 128 <= b1 < 192 ->
  decodeURIAux (S f) (percentEncode [b0; b1] ++ r) =
  decodeStep ((b0 - 192) * 64 + (b1 - 128)) f r.
Proof.
  intros H0 H1. rewrite !percentEncode_cons. cbn [decodeURIAux Z.eqb negb Pos.eqb].
  rewrite readOctet_percent by lia. zb_rewrite.
  rewrite readOctet_percent by lia. zb_rewrite.
  reflexivity.
Qed.

Lemma decodeURIAux_3 (b0 b1 b2 : Z) (f : nat) (r : jsstring) :
  224 <= b0 < 240 -> 128 <= b1 < 192 -> 128 <= b2 < 192 ->
  2048 <= ((b0 - 224) * 64 + (b1 - 128)) * 64 + (b2 - 128) ->
  ~ (55296 <= ((b0 - 224) * 64 + (b1 - 128)) * 64 + (b2 - 128) <= 57343) ->
  decodeURIAux (S f) (percentEncode [b0; b1; b2] ++ r) =
  decodeStep (((b0 - 224) * 64 + (b1 - 128)) * 64 + (b2 - 128)) f r.
Proof.
  intros H0 H1 H2 H3 H4. rewrite !percentEncode_cons. cbn [decodeURIAux Z.eqb negb Pos.eqb].
  rewrite readOctet_percent by lia. zb_rewrite.
  rewrite readOctet_percent by lia. zb_rewrite.
  rewrite readOctet_percent by lia. zb_rewrite.
  destruct (55296 <=? _) eqn:E1; destruct (_ <=? 57343) eqn:E2; zbool; try lia;
    reflexivity.
Qed.

Lemma decodeURIAux_4 (b0 b1 b2 b3 : Z) (f : nat) (r : jsstring) :
  240 <= b0 < 248 -> 128 <= b1 < 192 -> 128 <= b2 < 192 -> 128 <= b3 < 192 ->
  65536 <= ((((b0 - 240) * 64 + (b1 - 128)) * 64 + (b2 - 128)) * 64 + (b3 - 128)) <= 1114111 ->
  decodeURIAux (S f) (percentEncode [b0; b1; b2; b3] ++ r) =
  decodeStep ((((b0 - 240) * 64 + (b1 - 128)) * 64 + (b2 - 128)) * 64 + (b3 - 128)) f r.
Proof.
  intros H0 H1 H2 H3 H4. rewrite !percentEncode_cons. cbn [decodeURIAux Z.eqb negb Pos.eqb].
  rewrite readOctet_percent by lia. zb_rewrite.
  rewrite readOctet_percent by lia. zb_rewrite.
  rewrite readOctet_percent by lia. zb_rewrite.
  rewrite readOctet_percent by lia. zb_rewrite.
  reflexivity.
Qed.

(** Every Unicode scalar value survives UTF-8 percent-encoding. *)
Lemma decodeURIAux_utf8Octets (cp : Z) (f : nat) (r : jsstring) :
  0 <= cp <= 1114111 -> ~ (55296 <= cp <= 57343) ->
  decodeURIAux (S f) (percentEncode (utf8Octets cp) ++ r) = decodeStep cp f r.
Proof.
  intros H1 H2. unfold utf8Octets.
  destruct (cp <? 128) eqn:E1; zbool.
  { apply decodeURIAux_1. lia. }
  destruct (cp <? 2048) eqn:E2; zbool.
  { rewrite decodeURIAux_2 by (Z.div_mod_to_equations; lia).
    f_equal. Z.div_mod_to_equations. lia. }
  destruct (cp <? 65536) eqn:E3; zbool.
  { rewrite decodeURIAux_3 by (Z.div_mod_to_equations; lia).
    f_equal. Z.div_mod_to_equations. lia. }
  rewrite decodeURIAux_4 by (Z.div_mod_to_equations; lia).
  f_equal. Z.div_mod_to_equations. lia.
Qed.

Lemma utf8Octets_range (cp : Z) :
  0 <= cp <= 1114111 -> utf8Octets cp <> [] /\ Forall (fun b => 0 <= b < 256) (utf8Octets cp).
Proof.
  intros H. unfold utf8Octets.
  destruct (cp <? 128) eqn:E1; zbool.
  { split; [discriminate|]. repeat constructor; lia. }
  destruct (cp <? 2048) eqn:E2; zbool.
  { split; [discriminate|]. repeat constructor; Z.div_mod_to_equations; lia. }
  destruct (cp <? 65536) eqn:E3; zbool.
  { split; [discriminate|]. repeat constructor; Z.div_mod_to_equations; lia. }
  split; [discriminate|]. repeat constructor; Z.div_mod_to_equations; lia.
Qed.

Lemma percentEncode_bytes (bs : list Z) :
  Forall (fun b => 0 <= b < 256) bs ->
  forallb isByteb (percentEncode bs) = true /\ length (percentEncode bs) = (3 * length bs)%nat.
Proof.
  induction bs as [|b bs IH]; intros H; [split; reflexivity|].
  inversion H as [|? ? Hb Hbs]; subst. destruct (IH Hbs) as [IH1 IH2].
  assert (Hd1 : 0 <= b / 16 < 16) by (Z.div_mod_to_equations; lia).
  assert (Hd2 : 0 <= b mod 16 < 16) by (apply Z.mod_pos_bound; lia).
  pose proof (hexDigitUpper_range _ Hd1). pose proof (hexDigitUpper_range _ Hd2).
  change (percentEncode (b :: bs)) with
    (37 :: hexDigitUpper (b / 16) :: hexDigitUpper (b mod 16) :: percentEncode bs).
  split.
  - cbn [forallb]. rewrite IH1. unfold isByteb. zb_rewrite. reflexivity.
  - cbn [length]. rewrite IH2. lia.
Qed.

Lemma isURIUnescaped_range (c : Z) : isURIUnescaped c = true -> 33 <= c <= 126 /\ c <> 37.
Proof.
  unfold isURIUnescaped. simpl existsb. intros H. zbool; lia.
Qed.

Lemma surrogatePair_spec (c d : Z) :
  isLeadSurrogate c = true -> isTrailSurrogate d = true ->
  65536 <= UTF16SurrogatePairToCodePoint c d <= 1114111 /\
  UTF16EncodeCodePoint (UTF16SurrogatePairToCodePoint c d) = [c; d].
Proof.
  unfold isLeadSurrogate, isTrailSurrogate, UTF16SurrogatePairToCodePoint, UTF16EncodeCodePoint.
  intros Hc Hd. zbool. split; [lia|].
  zb_rewrite. f_equal; [|f_equal]; Z.div_mod_to_equations; lia.
Qed.

Lemma encodeURIComponent_roundtrip (s : jsstring) :
  wellFormedUTF16 s = true ->
  exists e, encodeURIComponent s = Some e /\ forallb isByteb e = true /\
            forall f, (length e < f)%nat -> decodeURIAux f e = Some s.
Proof.
  remember (length s) as n eqn:Hn. revert s Hn.
  induction n as [n IH] using (well_founded_induction lt_wf).
  intros s Hn Hwf. destruct s as [|c rest].
  { exists []. split; [reflexivity|]. split; [reflexivity|].
    intros f Hf. destruct f; [simpl in Hf; lia|reflexivity]. }
  cbn [wellFormedUTF16] in Hwf. apply andb_true_iff in Hwf as [Hcu Hwf].
  apply isCodeUnit_spec in Hcu.
  cbn [encodeURIComponent].
  destruct (isURIUnescaped c) eqn:EU.
  - apply isURIUnescaped_range in EU as [Hr H37].
    assert (Hwr : wellFormedUTF16 rest = true).
    { unfold isLeadSurrogate, isTrailSurrogate in Hwf.
      revert Hwf. zb_rewrite. auto. }
    destruct (IH (length rest) ltac:(simpl in Hn; lia) rest eq_refl Hwr) as (e & He & Hb & Hd).
    rewrite He. exists (c :: e). split; [reflexivity|]. split.
    + cbn [forallb]. rewrite Hb. unfold isByteb. zb_rewrite. reflexivity.
    + intros f Hf. destruct f as [|f]; [simpl in Hf; lia|].
      cbn [decodeURIAux]. zb_rewrite. rewrite Hd by (simpl in Hf; lia). reflexivity.
  - destruct (isTrailSurrogate c) eqn:ET.
    { exfalso. destruct (isLeadSurrogate c) eqn:EL.
      - unfold isLeadSurrogate, isTrailSurrogate in *. zbool; lia.
      - cbn [negb andb] in Hwf. discriminate Hwf. }
    destruct (isLeadSurrogate c) eqn:EL.
    + destruct rest as [|d rest']; [discriminate Hwf|].
      apply andb_true_iff in Hwf as [Hdt Hwr].
      rewrite Hdt.
      destruct (surrogatePair_spec c d EL Hdt) as [Hcp Henc].
      destruct (IH (length rest') ltac:(simpl in Hn; lia) rest' eq_refl Hwr) as (e & He & Hb & Hd).
      rewrite He.
      destruct (utf8Octets_range (UTF16SurrogatePairToCodePoint c d) ltac:(lia)) as [Hne Hoct].
      destruct (percentEncode_bytes _ Hoct) as [Hpb Hpl].
      eexists. split; [reflexivity|]. split.
      * rewrite forallb_app, Hpb, Hb. reflexivity.
      * intros f Hf. rewrite length_app, Hpl in Hf.
        destruct (utf8Octets (UTF16SurrogatePairToCodePoint c d)) eqn:Eo; [congruence|].
        destruct f as [|f]; [lia|].
        rewrite <- Eo. rewrite decodeURIAux_utf8Octets by lia.
        unfold decodeStep. rewrite Hd by (simpl in Hf; lia). rewrite Henc. reflexivity.
    + cbn [negb andb] in Hwf.
      destruct (IH (length rest) ltac:(simpl in Hn; lia) rest eq_refl Hwf) as (e & He & Hb & Hd).
      rewrite He.
      assert (Hns : ~ (55296 <= c <= 57343)).
      { unfold isLeadSurrogate, isTrailSurrogate in *. zbool; lia. }
      destruct (utf8Octets_range c ltac:(lia)) as [Hne Hoct].
      destruct (percentEncode_bytes _ Hoct) as [Hpb Hpl].
      eexists. split; [reflexivity|]. split.
      * rewrite forallb_app, Hpb, Hb. reflexivity.
      * intros f Hf. rewrite length_app, Hpl in Hf.
        destruct (utf8Octets c) eqn:Eo; [congruence|].
        destruct f as [|f]; [lia|].
        rewrite <- Eo. rewrite decodeURIAux_utf8Octets by lia.
        unfold decodeStep. rewrite Hd by (simpl in Hf; lia).
        unfold UTF16EncodeCodePoint. zb_rewrite. reflexivity.
Qed.

Lemma wellFormedUTF16_cons_plain (c : Z) (s : jsstring) :
  0 <= c < 55296 \/ 57344 <= c < 65536 ->
  wellFormedUTF16 (c :: s) = wellFormedUTF16 s.
Proof.
  intros H. cbn [wellFormedUTF16]. unfold isCodeUnit, isLeadSurrogate, isTrailSurrogate.
  destruct H as [H|H]; zb_rewrite; reflexivity.
Qed.

Lemma wellFormedUTF16_app (a b : jsstring) :
  wellFormedUTF16 a = true -> wellFormedUTF16 b = true -> wellFormedUTF16 (a ++ b) = true.
Proof.
  remember (length a) as n eqn:Hn. revert a Hn.
  induction n as [n IH] using (well_founded_induction lt_wf).
  intros a Hn Ha Hb. destruct a as [|c a']; [exact Hb|].
  cbn [wellFormedUTF16 app] in Ha |- *. apply andb_true_iff in Ha as [Hc Ha].
  rewrite Hc. cbn [andb].
  destruct (isLeadSurrogate c).
  - destruct a' as [|d a'']; [discriminate Ha|].
    apply andb_true_iff in Ha as [Hd Ha]. cbn [app]. rewrite Hd. cbn [andb].
    apply (IH (length a'')); [simpl in Hn; lia|reflexivity|exact Ha|exact Hb].
  - apply andb_true_iff in Ha as [Ht Ha]. rewrite Ht. cbn [andb].
    apply (IH (length a')); [simpl in Hn; lia|reflexivity|exact Ha|exact Hb].
Qed.

Lemma wellFormedUTF16_ascii (s : jsstring) :
  Forall (fun c => 0 <= c < 128) s -> wellFormedUTF16 s = true.
Proof.
  induction s as [|c s IH]; intros H; [reflexivity|].
  inversion H; subst. rewrite wellFormedUTF16_cons_plain by lia. auto.
Qed.

Lemma unicodeEscape_ascii (c : Z) : Forall (fun x => 0 <= x < 128) (unicodeEscape c).
Proof.
  unfold unicodeEscape.
  repeat constructor; try lia;
    (apply hexDigitLower_range || idtac); try apply mod16_range;
    match goal with |- context [hexDigitLower ?n] =>
      pose proof (hexDigitLower_range n (mod16_range _)) end; lia.
Qed.

Lemma wellFormedUTF16_quoteChars (s : jsstring) :
  forallb isCodeUnit s = true -> wellFormedUTF16 (quoteChars s) = true.
Proof.
  remember (length s) as n eqn:Hn. revert s Hn.
  induction n as [n IH] using (well_founded_induction lt_wf).
  intros s Hn Hs. destruct s as [|c s']; [reflexivity|].
  simpl in Hs. apply andb_true_iff in Hs as [Hc Hs']. apply isCodeUnit_spec in Hc.
  assert (IH1 : wellFormedUTF16 (quoteChars s') = true)
    by (apply (IH (length s')); [simpl in Hn; lia|reflexivity|exact Hs']).
  assert (Hesc : forall t, wellFormedUTF16 t = true ->
                           wellFormedUTF16 (unicodeEscape c ++ t) = true).
  { intros t Ht. apply wellFormedUTF16_app; [|exact Ht].
    apply wellFormedUTF16_ascii, unicodeEscape_ascii. }
  cbn [quoteChars].
  destruct (c =? 8) eqn:E8; [cbn [wellFormedUTF16]; exact IH1|].
  destruct (c =? 9) eqn:E9; [cbn [wellFormedUTF16]; exact IH1|].
  destruct (c =? 10) eqn:E10; [cbn [wellFormedUTF16]; exact IH1|].
  destruct (c =? 12) eqn:E12; [cbn [wellFormedUTF16]; exact IH1|].
  destruct (c =? 13) eqn:E13; [cbn [wellFormedUTF16]; exact IH1|].
  destruct (c =? 34) eqn:E34; [cbn [wellFormedUTF16]; exact IH1|].
  destruct (c =? 92) eqn:E92; [cbn [wellFormedUTF16]; exact IH1|].
  destruct (c <? 32) eqn:E32; [apply Hesc, IH1|].
  destruct (isLeadSurrogate c) eqn:EL.
  - destruct s' as [|d s''].
    + rewrite <- (app_nil_r (unicodeEscape c)). apply Hesc. reflexivity.
    + cbv beta iota. destruct (isTrailSurrogate d) eqn:ET; [|apply Hesc, IH1].
      simpl in Hs'. apply andb_true_iff in Hs' as [Hd Hs''].
      cbn [wellFormedUTF16]. apply isCodeUnit_spec in Hc. rewrite Hc, EL, ET.
      cbn [andb]. apply (IH (length s'')); [simpl in Hn; lia|reflexivity|exact Hs''].
  - destruct (isTrailSurrogate c) eqn:ET; [apply Hesc, IH1|].
    cbn [wellFormedUTF16]. apply isCodeUnit_spec in Hc. rewrite Hc, EL, ET. exact IH1.
Qed.

Lemma wellFormedUTF16_joinComma (ps : list jsstring) :
  Forall (fun p => wellFormedUTF16 p = true) ps -> wellFormedUTF16 (joinComma ps) = true.
Proof.
  induction ps as [|p ps IH]; intros H; [reflexivity|].
  inversion H as [|? ? Hp Hps]; subst.
  destruct ps as [|q ps']; [exact Hp|].
  change (joinComma (p :: q :: ps')) with (p ++ 44 :: joinComma (q :: ps')).
  apply wellFormedUTF16_app; [exact Hp|].
  rewrite wellFormedUTF16_cons_plain by lia. apply IH, Hps.
Qed.

Lemma wellFormedUTF16_serializeJson (v : json) :
  jsonStringsOk v = true -> wellFormedUTF16 (serializeJson v) = true.
Proof.
  induction v as [| b | lx | s | elems IHe | ms IHm] using json_ind'; intros Hok.
  - reflexivity.
  - destruct b; reflexivity.
  - discriminate Hok.
  - change (serializeJson (JStr s)) with (34 :: quoteChars s ++ [34]).
    rewrite wellFormedUTF16_cons_plain by lia.
    apply wellFormedUTF16_app; [apply wellFormedUTF16_quoteChars, Hok|reflexivity].
  - cbn [serializeJson]. rewrite wellFormedUTF16_cons_plain by lia.
    apply wellFormedUTF16_app; [|reflexivity].
    apply wellFormedUTF16_joinComma. cbn [jsonStringsOk] in Hok.
    rewrite forallb_forall in Hok. rewrite Forall_forall in IHe |- *.
    intros p Hp. apply in_map_iff in Hp as (e & <- & He).
    apply IHe; [exact He|apply Hok, He].
  - cbn [serializeJson]. rewrite wellFormedUTF16_cons_plain by lia.
    apply wellFormedUTF16_app; [|reflexivity].
    apply wellFormedUTF16_joinComma. cbn [jsonStringsOk] in Hok.
    rewrite forallb_forall in Hok. rewrite Forall_forall in IHm |- *.
    intros p Hp. apply in_map_iff in Hp as ([k e] & <- & He).
    pose proof (Hok (k, e) He) as Hke. apply andb_true_iff in Hke as [Hk He'].
    unfold QuoteJSONString. rewrite <- app_comm_cons.
    rewrite wellFormedUTF16_cons_plain by lia. rewrite <- app_assoc.
    apply wellFormedUTF16_app; [apply wellFormedUTF16_quoteChars, Hk|].
    cbn [app]. rewrite !wellFormedUTF16_cons_plain by lia.
    exact (IHm (k, e) He He').
Qed.

Lemma base64Value_base64Char (v : Z) : 0 <= v < 64 -> base64Value (base64Char v) = Some v.
Proof.
  intros H. unfold base64Char, base64Value.
  destruct (v <? 26) eqn:E1; zbool; [zb_rewrite; f_equal; lia|].
  destruct (v <? 52) eqn:E2; zbool; [zb_rewrite; f_equal; lia|].
  destruct (v <? 62) eqn:E3; zbool; [zb_rewrite; f_equal; lia|].
  destruct (v =? 62) eqn:E4; zbool; [subst; reflexivity|].
  assert (v = 63) by lia. subst. reflexivity.
Qed.

Lemma base64Char_range (v : Z) :
  0 <= v < 64 -> isAsciiWhiteSpace (base64Char v) = false /\ base64Char v <> 61.
Proof.
  intros H. unfold base64Char, isAsciiWhiteSpace.
  destruct (v <? 26) eqn:E1; zbool; [zb_rewrite; split; [reflexivity|lia]|].
  destruct (v <? 52) eqn:E2; zbool; [zb_rewrite; split; [reflexivity|lia]|].
  destruct (v <? 62) eqn:E3; zbool; [zb_rewrite; split; [reflexivity|lia]|].
  destruct (v =? 62) eqn:E4; split; try reflexivity; lia.
Qed.

Lemma base64Encode_structure (bytes : list Z) :
  Forall (fun b => 0 <= b < 256) bytes ->
  exists vs pad,
    base64Encode bytes = map base64Char vs ++ pad /\
    Forall (fun v => 0 <= v < 64) vs /\
    base64DecodeValues vs = Some bytes /\
    ((pad = [] /\ Nat.modulo (length vs) 4 = O) \/
     (pad = [61] /\ Nat.modulo (length vs) 4 = 3%nat) \/
     (pad = [61; 61] /\ Nat.modulo (length vs) 4 = 2%nat)).
Proof.
  remember (length bytes) as n eqn:Hn. revert bytes Hn.
  induction n as [n IH] using (well_founded_induction lt_wf).
  intros bytes Hn Hb. destruct bytes as [|b0 [|b1 [|b2 rest]]].
  - exists [], []. split; [reflexivity|]. split; [constructor|]. split; [reflexivity|].
    left. split; reflexivity.
  - inversion Hb; subst.
    exists [b0 / 4; b0 mod 4 * 16], [61; 61]. split; [reflexivity|].
    split; [repeat constructor; Z.div_mod_to_equations; lia|].
    split; [simpl; f_equal; f_equal; Z.div_mod_to_equations; lia|].
    right; right. split; reflexivity.
  - inversion Hb as [|? ? Hb0 Hb']; subst. inversion Hb' as [|? ? Hb1 _]; subst.
    exists [b0 / 4; b0 mod 4 * 16 + b1 / 16; b1 mod 16 * 4], [61]. split; [reflexivity|].
    split; [repeat constructor; Z.div_mod_to_equations; lia|].
    split; [simpl; f_equal; f_equal; [|f_equal]; Z.div_mod_to_equations; lia|].
    right; left. split; reflexivity.
  - inversion Hb as [|? ? Hb0 Hb']; subst. inversion Hb' as [|? ? Hb1 Hb'']; subst.
    inversion Hb'' as [|? ? Hb2 Hrest]; subst.
    destruct (IH (length rest) ltac:(simpl; lia) rest eq_refl Hrest)
      as (vs & pad & He & Hvs & Hd & Hp).
    exists (b0 / 4 :: b0 mod 4 * 16 + b1 / 16 :: b1 mod 16 * 4 + b2 / 64 :: b2 mod 64 :: vs), pad.
    split; [cbn [base64Encode map]; rewrite He; reflexivity|].
    split; [repeat constructor; try (Z.div_mod_to_equations; lia); exact Hvs|].
    split.
    + cbn [base64DecodeValues]. rewrite Hd. f_equal. f_equal; [|f_equal; [|f_equal]];
        Z.div_mod_to_equations; lia.
    + cbn [length].
      replace (S (S (S (S (length vs))))) with (length vs + 1 * 4)%nat by lia.
      rewrite Nat.Div0.mod_add. exact Hp.
Qed.

Lemma filter_id_all {A} (f : A -> bool) (l : list A) :
  (forall x, In x l -> f x = true) -> filter f l = l.
Proof.
  induction l as [|x l IH]; intros H; [reflexivity|].
  simpl. rewrite (H x (or_introl eq_refl)). f_equal. apply IH. intros y Hy. apply H. right. exact Hy.
Qed.

Lemma atob_base64Encode (bytes : list Z) :
  Forall (fun b => 0 <= b < 256) bytes -> atob (base64Encode bytes) = Some bytes.
Proof.
  intros Hb. destruct (base64Encode_structure bytes Hb) as (vs & pad & He & Hvs & Hd & Hp).
  rewrite He. unfold atob.
  assert (Hnot : forall x, In x (map base64Char vs) -> isAsciiWhiteSpace x = false /\ x <> 61).
  { intros x Hx. apply in_map_iff in Hx as (v & <- & Hv).
    rewrite Forall_forall in Hvs. apply base64Char_range, Hvs, Hv. }
  rewrite filter_id_all.
  2:{ intros x Hx. apply in_app_or in Hx as [Hx|Hx].
      - rewrite (proj1 (Hnot x Hx)). reflexivity.
      - destruct Hp as [[-> _]|[[-> _]|[-> _]]]; simpl in Hx;
          repeat (destruct Hx as [<-|Hx]; [reflexivity|]); destruct Hx. }
  assert (Hlen : Nat.modulo (length (map base64Char vs ++ pad)) 4 = O).
  { rewrite length_app, length_map.
    destruct Hp as [[-> H]|[[-> H]|[-> H]]]; simpl length;
      rewrite Nat.Div0.add_mod, H; reflexivity. }
  rewrite Hlen. cbn [Nat.eqb].
  assert (Hstrip : stripPadding (map base64Char vs ++ pad) = map base64Char vs).
  { unfold stripPadding. rewrite rev_app_distr.
    assert (Hlast : forall r, rev (map base64Char vs) = r ->
              match r with [] => True | x :: _ => x <> 61 end).
    { intros r Hr. destruct r as [|x r]; [exact I|].
      apply (proj2 (Hnot x ltac:(apply in_rev; rewrite Hr; left; reflexivity))). }
    destruct Hp as [[-> _]|[[-> _]|[-> _]]]; cbn [rev app].
    - rewrite app_nil_r. pose proof (Hlast _ eq_refl) as Hl.
      destruct (rev (map base64Char vs)) as [|a [|b r]] eqn:E.
      + apply (f_equal (@rev Z)) in E. rewrite rev_involutive in E. rewrite E. reflexivity.
      + rewrite (proj2 (Z.eqb_neq a 61) Hl). reflexivity.
      + rewrite (proj2 (Z.eqb_neq a 61) Hl). reflexivity.
    - pose proof (Hlast _ eq_refl) as Hl.
      destruct (rev (map base64Char vs)) as [|a r] eqn:E.
      + apply (f_equal (@rev Z)) in E. rewrite rev_involutive in E. rewrite E. reflexivity.
      + rewrite (proj2 (Z.eqb_neq a 61) Hl). cbn [Z.eqb Pos.eqb].
        change (rev r ++ [a]) with (rev (a :: r)). rewrite <- E, rev_involutive. reflexivity.
    - cbn [Z.eqb Pos.eqb]. rewrite rev_involutive. reflexivity. }
  rewrite Hstrip.
  assert (Hmod : Nat.modulo (length (map base64Char vs)) 4 <> 1%nat).
  { rewrite length_map. destruct Hp as [[_ H]|[[_ H]|[_ H]]]; rewrite H; discriminate. }
  destruct (Nat.eqb (Nat.modulo (length (map base64Char vs)) 4) 1) eqn:E1.
  { apply Nat.eqb_eq in E1. contradiction. }
  assert (Hmap : mapOption base64Value (map base64Char vs) = Some vs).
  { clear - Hvs. induction vs as [|v vs IH]; [reflexivity|].
    inversion Hvs; subst. simpl. rewrite base64Value_base64Char by assumption.
    rewrite IH by assumption. reflexivity. }
  rewrite Hmap. exact Hd.
Qed.

Lemma itemTypeName_codeUnits (t : ItemType) : forallb isCodeUnit (itemTypeName t) = true.
Proof. destruct t; reflexivity. Qed.

Lemma sharedItemDescriptor_json (i : MediaItem.t) :
  exists d, jsvalToJson (sharedItemDescriptor i) = Some d /\
    jsonGet d (js "status") = None /\ jsonGet d (js "rating") = None /\
    jsonGet d (js "review") = None /\ jsonGet d (js "memories") = None /\
    (forallb isCodeUnit (MediaItem.title i) && forallb isCodeUnit (MediaItem.creator i) &&
     forallb isCodeUnit (MediaItem.year i) && forallb isCodeUnit (MediaItem.description i) &&
     match MediaItem.coverUrl i with Some u => forallb isCodeUnit u | None => true end = true ->
     jsonStringsOk d = true).
Proof.
  destruct (MediaItem.coverUrl i) as [u|] eqn:Hc;
    (eexists; split; [unfold sharedItemDescriptor; rewrite Hc; reflexivity|]);
    (split; [reflexivity|]); (split; [reflexivity|]); (split; [reflexivity|]);
    (split; [reflexivity|]);
    intros H; pose proof (itemTypeName_codeUnits (MediaItem.type i)) as Ht;
    repeat rewrite andb_true_iff in H; cbn -[isCodeUnit itemTypeName];
    rewrite Ht; repeat rewrite andb_true_iff; tauto.
Qed.

Lemma sharePayload_json (c : UserCollection.t) (items : list MediaItem.t) (sharer : option jsstring) :
  jsvalToJson (sharePayload c items sharer) =
  Some (JObj ([(js "title", JStr (UserCollection.title c));
               (js "type", JStr (itemTypeName (UserCollection.type c)))] ++
              match sharer with Some n => [(js "sharer", JStr n)] | None => [] end ++
              [(js "items", JArr (map (fun i => match jsvalToJson (sharedItemDescriptor i) with
                                               | Some j => j | None => JNull end) items))])).
Proof.
  unfold sharePayload. destruct sharer; cbn [jsvalToJson flat_map app]; rewrite map_map; reflexivity.
Qed.

Lemma jsonStringsOk_map_descriptors (items : list MediaItem.t) :
  forallb (fun i =>
    forallb isCodeUnit (MediaItem.title i) && forallb isCodeUnit (MediaItem.creator i) &&
    forallb isCodeUnit (MediaItem.year i) && forallb isCodeUnit (MediaItem.description i) &&
    match MediaItem.coverUrl i with Some u => forallb isCodeUnit u | None => true end) items = true ->
  forallb jsonStringsOk (map (fun i => match jsvalToJson (sharedItemDescriptor i) with
                                       | Some j => j | None => JNull end) items) = true.
Proof.
  induction items as [|i items IH]; intros H; [reflexivity|].
  cbn [forallb map] in *. apply andb_true_iff in H as [Hi Hr].
  destruct (sharedItemDescriptor_json i) as (d & Hd & _ & _ & _ & _ & Hok).
  rewrite Hd, Hok, IH by assumption. reflexivity.
Qed.

Lemma descriptors_no_personal_fields (items : list MediaItem.t) :
  Forall (fun d => jsonGet d (js "status") = None /\ jsonGet d (js "rating") = None /\
                   jsonGet d (js "review") = None /\ jsonGet d (js "memories") = None)
    (map (fun i => match jsvalToJson (sharedItemDescriptor i) with
                   | Some j => j | None => JNull end) items).
Proof.
  induction items as [|i items IH]; [constructor|].
  destruct (sharedItemDescriptor_json i) as (d & Hd & H1 & H2 & H3 & H4 & _).
  cbn [map]. rewrite Hd. constructor; [tauto|exact IH].
Qed.

Lemma forallb_isByteb_Forall (e : list Z) :
  forallb isByteb e = true -> Forall (fun b => 0 <= b < 256) e.
Proof.
  intros H. apply Forall_forall. intros x Hx. rewrite forallb_forall in H.
  specialize (H x Hx). unfold isByteb in H. zbool. lia.
Qed.

(** C1: the share token of a collection decodes to a payload with the
    collection's title and type, the sharer (absent for a public link),
    one descriptor per encoded item, and no status, rating, review or
    memories field in any descriptor. *)
Theorem shareToken_roundtrip (c : UserCollection.t) (items : list MediaItem.t)
    (sharer : option jsstring) :
  shareStringsOk c items sharer = true ->
  exists token payload,
    encodeCollection c items sharer = Some token /\
    decodeShareToken token = Some payload /\
    jsonGet payload (js "title") = Some (JStr (UserCollection.title c)) /\
    jsonGet payload (js "type") = Some (JStr (itemTypeName (UserCollection.type c))) /\
    jsonGet payload (js "sharer") = option_map JStr sharer /\
    exists descriptors,
      jsonGet payload (js "items") = Some (JArr descriptors) /\
      length descriptors = length items /\
      Forall (fun d => jsonGet d (js "status") = None /\ jsonGet d (js "rating") = None /\
                       jsonGet d (js "review") = None /\ jsonGet d (js "memories") = None)
        descriptors.
Proof.
  intros Hok. unfold shareStringsOk in Hok. repeat rewrite andb_true_iff in Hok.
  destruct Hok as [[Htitle Hsharer] Hitems].
  set (descs := map (fun i => match jsvalToJson (sharedItemDescriptor i) with
                               | Some j => j | None => JNull end) items).
  set (J := JObj ([(js "title", JStr (UserCollection.title c));
               (js "type", JStr (itemTypeName (UserCollection.type c)))] ++
              match sharer with Some n => [(js "sharer", JStr n)] | None => [] end ++
              [(js "items", JArr descs)])).
  assert (HJ : JSON_stringify (sharePayload c items sharer) = Some (serializeJson J)).
  { unfold JSON_stringify. rewrite stringifyValue_serializeJson, sharePayload_json. reflexivity. }
  assert (HJok : jsonStringsOk J = true).
  { subst J. pose proof (jsonStringsOk_map_descriptors items Hitems) as Hd.
    pose proof (itemTypeName_codeUnits (UserCollection.type c)) as Ht.
    fold descs in Hd.
    destruct sharer as [n|]; cbn [jsonStringsOk app forallb];
      rewrite Htitle, Ht, Hd; [rewrite Hsharer|]; reflexivity. }
  destruct (encodeURIComponent_roundtrip (serializeJson J)
              (wellFormedUTF16_serializeJson J HJok)) as (e & He & Hbytes & Hdec).
  exists (base64Encode e), J.
  split.
  { unfold encodeCollection. rewrite HJ, He. unfold btoa. rewrite Hbytes. reflexivity. }
  split.
  { unfold decodeShareToken. rewrite (atob_base64Encode e (forallb_isByteb_Forall e Hbytes)).
    unfold decodeURIComponent. rewrite (Hdec (S (length e)) ltac:(lia)).
    apply JSON_parse_serializeJson, HJok. }
  assert (Hdescs : length descs = length items /\
            Forall (fun d => jsonGet d (js "status") = None /\ jsonGet d (js "rating") = None /\
                             jsonGet d (js "review") = None /\ jsonGet d (js "memories") = None)
              descs).
  { split; [apply length_map | apply descriptors_no_personal_fields]. }
  destruct sharer as [n|];
    (split; [reflexivity|]); (split; [reflexivity|]); (split; [reflexivity|]);
    exists descs; (split; [reflexivity | exact Hdescs]).
Qed.

Lemma shareToken_roundtrip_witness :
  let c := UserCollection.mk (js "c1") (js "Caf" ++ [233]) None BOOK (js "2024") in
  let items := [MediaItem.mk (js "dune-1") (js "Dune") None BOOK (js "Frank Herbert")
                  (js "1965") (js "Spice") COMPLETED (Some 5) (Some (js "Great")) []
                  (js "2020") [js "c1"] (Some (js "https://x/c.jpg")) None] in
  let sharer := Some (js "Ana") in
  shareStringsOk c items sharer = true /\
  exists token payload,
    encodeCollection c items sharer = Some token /\
    decodeShareToken token = Some payload /\
    jsonGet payload (js "title") = Some (JStr (UserCollection.title c)) /\
    jsonGet payload (js "type") = Some (JStr (itemTypeName (UserCollection.type c))) /\
    jsonGet payload (js "sharer") = option_map JStr sharer /\
    exists descriptors,
      jsonGet payload (js "items") = Some (JArr descriptors) /\
      length descriptors = length items /\
      Forall (fun d => jsonGet d (js "status") = None /\ jsonGet d (js "rating") = None /\
                       jsonGet d (js "review") = None /\ jsonGet d (js "memories") = None)
        descriptors.
Proof.
  intros c items sharer. split.
  - vm_compute. reflexivity.
  - apply shareToken_roundtrip. vm_compute. reflexivity.
Defined.

Example share_codec_example :
  match JSON_stringify (JsObject [(js "a", JsString [233]);
                                  (js "b", JsArray [JsString (js "x")]);
                                  (js "c", JsUndefined)]) with
  | Some s => match encodeURIComponent s with Some e => btoa e | None => None end
  | None => None
  end = Some (js "JTdCJTIyYSUyMiUzQSUyMiVDMyVBOSUyMiUyQyUyMmIlMjIlM0ElNUIlMjJ4JTIyJTVEJTdE").
Proof. vm_compute. reflexivity. Qed.

Example share_decode_example :
  decodeShareToken (js "JTdCJTIyYSUyMiUzQSUyMiVDMyVBOSUyMiUyQyUyMmIlMjIlM0ElNUIlMjJ4JTIyJTVEJTdE") =
  Some (JObj [(js "a", JStr [233]); (js "b", JArr [JStr (js "x")])]).
Proof. vm_compute. reflexivity. Qed.

(* ------------------------------------------------------------------ *)
(** ** Further properties of the page's handlers *)

Lemma filter_comm {A} (f g : A -> bool) (l : list A) :
  filter f (filter g l) = filter g (filter f l).
Proof.
  induction l as [|x l IH]; [reflexivity|]. simpl.
  destruct (g x) eqn:Eg, (f x) eqn:Ef; simpl; rewrite ?Eg, ?Ef, IH; reflexivity.
Qed.

Lemma statusName_tab (s : ItemStatus) (tab : jsstring) :
  jseqb (statusName s) tab = true ->
  existsb (jseqb tab) [js "WANT_TO"; js "IN_PROGRESS"; js "COMPLETED"] = true.
Proof.
  intros H. apply jseqb_eq in H. subst. destruct s; reflexivity.
Qed.

Lemma filter_none {A} (f : A -> bool) (l : list A) :
  (forall x, f x = false) -> filter f l = [].
Proof. intros H. induction l as [|x l IH]; simpl; [reflexivity|]. rewrite H. exact IH. Qed.

(** The number on every tab is the number of items the tab lists. *)
(** X1: the count [getCount] shows on a status tab of the library is the
    number of items [currentTabItems] lists under that tab, for every tab
    name and with or without the uncategorized filter (an unknown tab
    counts and lists nothing). *)
Theorem currentTabItems_length_getCount (fi : list MediaItem.t) (tab : jsstring) (u : bool) :
  length (currentTabItems fi tab u) = getCount fi u tab.
Proof.
  unfold currentTabItems, getCount.
  destruct (jseqb tab (js "ALL")) eqn:Eall; simpl negb; cbv iota.
  - reflexivity.
  - destruct (existsb (jseqb tab) [js "WANT_TO"; js "IN_PROGRESS"; js "COMPLETED"]) eqn:Ein.
    + destruct u; [rewrite filter_comm|]; reflexivity.
    + rewrite (filter_none (fun i => jseqb (statusName (MediaItem.status i)) tab)).
      * destruct u; reflexivity.
      * intros i. destruct (jseqb (statusName (MediaItem.status i)) tab) eqn:E; [|reflexivity].
        apply statusName_tab in E. congruence.
Qed.

(** X2: the count of the [ALL] tab is the sum of the counts of the three
    status tabs. *)
Theorem getCount_all_sum (fi : list MediaItem.t) (u : bool) :
  getCount fi u (js "ALL") =
  (getCount fi u (js "WANT_TO") + getCount fi u (js "IN_PROGRESS")
   + getCount fi u (js "COMPLETED"))%nat.
Proof.
  unfold getCount.
  generalize (if u then filter uncategorized fi else fi) as l. intros l.
  assert (E1 : jseqb (js "ALL") (js "ALL") = true) by reflexivity.
  assert (E2 : jseqb (js "WANT_TO") (js "ALL") = false) by reflexivity.
  assert (E3 : jseqb (js "IN_PROGRESS") (js "ALL") = false) by reflexivity.
  assert (E4 : jseqb (js "COMPLETED") (js "ALL") = false) by reflexivity.
  assert (F2 : existsb (jseqb (js "WANT_TO")) [js "WANT_TO"; js "IN_PROGRESS"; js "COMPLETED"] = true) by reflexivity.
  assert (F3 : existsb (jseqb (js "IN_PROGRESS")) [js "WANT_TO"; js "IN_PROGRESS"; js "COMPLETED"] = true) by reflexivity.
  assert (F4 : existsb (jseqb (js "COMPLETED")) [js "WANT_TO"; js "IN_PROGRESS"; js "COMPLETED"] = true) by reflexivity.
  rewrite E1, E2, E3, E4, F2, F3, F4.
  induction l as [|i l IH]; [reflexivity|].
  cbn [filter length]. destruct (MediaItem.status i);
    repeat match goal with
    | |- context [jseqb (statusName ?s) (js ?t)] =>
        let b := eval vm_compute in (jseqb (statusName s) (js t)) in
        change (jseqb (statusName s) (js t)) with b
    end; cbn [length]; lia.
Qed.

Lemma setHas_In (s : list jsstring) (x : jsstring) : setHas s x = true <-> In x s.
Proof. apply existsb_jseqb_In. Qed.

Lemma setDelete_In (s : list jsstring) (x y : jsstring) :
  In y (setDelete s x) <-> In y s /\ y <> x.
Proof.
  unfold setDelete. rewrite filter_In. split.
  - intros [H1 H2]. split; [exact H1|]. intros ->. rewrite jseqb_refl in H2. discriminate.
  - intros [H1 H2]. split; [exact H1|]. destruct (jseqb y x) eqn:E; [|reflexivity].
    apply jseqb_eq in E. contradiction.
Qed.

Lemma filter_neq_notin (s : list jsstring) (x : jsstring) :
  ~ In x s -> filter (fun y => negb (jseqb y x)) s = s.
Proof.
  induction s as [|a s IH]; intros H; [reflexivity|]. simpl.
  destruct (jseqb a x) eqn:E.
  - apply jseqb_eq in E. subst. exfalso. apply H. left. reflexivity.
  - simpl. rewrite IH; [reflexivity|]. intros Hx. apply H. right. exact Hx.
Qed.

(** X3: [toggleSelection] (and [toggleLibrarySelection], the same code)
    on a duplicate-free selection removes the id when it is selected and
    adds it otherwise, keeps the selection duplicate-free, and toggling a
    new id twice gives back the original selection. *)
Theorem toggleSelection_spec (selectedIds : list jsstring) (x : jsstring) :
  NoDup selectedIds ->
  NoDup (toggleSelection selectedIds x) /\
  (forall y, In y (toggleSelection selectedIds x) <->
             (y <> x /\ In y selectedIds) \/ (y = x /\ ~ In x selectedIds)) /\
  (~ In x selectedIds -> toggleSelection (toggleSelection selectedIds x) x = selectedIds).
Proof.
  intros Hnd. unfold toggleSelection. destruct (setHas selectedIds x) eqn:E.
  - apply setHas_In in E. split; [unfold setDelete; apply NoDup_filter, Hnd|].
    split; [|intros Hn; contradiction].
    intros y. rewrite setDelete_In. split; [intros [H1 H2]; left; auto|].
    intros [[H1 H2]|[H1 H2]]; [auto|subst; contradiction].
  - assert (Hn : ~ In x selectedIds) by (intros H; apply setHas_In in H; congruence).
    split; [apply setAdd_NoDup, Hnd|]. split.
    + intros y. rewrite setAdd_In. split.
      * intros [H|H]; [|right; auto]. left. split; [intros ->; contradiction|exact H].
      * intros [[_ H]|[H _]]; auto.
    + intros _.
      assert (Ha : setAdd selectedIds x = selectedIds ++ [x]).
      { unfold setAdd. change (existsb (jseqb x) selectedIds) with (setHas selectedIds x).
        rewrite E. reflexivity. }
      rewrite Ha.
      assert (Hx : setHas (selectedIds ++ [x]) x = true)
        by (apply setHas_In, in_or_app; right; left; reflexivity).
      rewrite Hx. unfold setDelete. rewrite filter_app, filter_neq_notin by exact Hn.
      simpl. rewrite jseqb_refl. simpl. apply app_nil_r.
Qed.

Lemma setFromList_aux (l acc : list jsstring) :
  NoDup (acc ++ l) -> fold_left setAdd l acc = acc ++ l.
Proof.
  revert acc. induction l as [|x l IH]; intros acc H; simpl; [rewrite app_nil_r; reflexivity|].
  unfold setAdd at 2.
  assert (Hx : existsb (jseqb x) acc = false).
  { destruct (existsb (jseqb x) acc) eqn:E; [|reflexivity].
    apply existsb_jseqb_In in E. apply NoDup_remove_2 in H. exfalso. apply H.
    apply in_or_app. left. exact E. }
  rewrite Hx, IH; [rewrite <- app_assoc; reflexivity|]. rewrite <- app_assoc. exact H.
Qed.

Lemma setFromList_NoDup (l : list jsstring) : NoDup l -> setFromList l = l.
Proof. intros H. unfold setFromList. apply (setFromList_aux l []). exact H. Qed.

(** X4: when the selection size differs from the number of shown items,
    [toggleSelectAll] selects exactly the shown items' ids (in order); a
    second call then clears the selection. *)
Theorem toggleSelectAll_selects_then_clears (selectedIds : list jsstring)
    (fi : list MediaItem.t) :
  NoDup (map MediaItem.id fi) -> length selectedIds <> length fi ->
  toggleSelectAll selectedIds fi = map MediaItem.id fi /\
  toggleSelectAll (toggleSelectAll selectedIds fi) fi = [].
Proof.
  intros Hnd Hlen. unfold toggleSelectAll.
  destruct (Nat.eqb (length selectedIds) (length fi)) eqn:E.
  { apply Nat.eqb_eq in E. contradiction. }
  rewrite setFromList_NoDup by exact Hnd. split; [reflexivity|].
  rewrite length_map, Nat.eqb_refl. reflexivity.
Qed.

(** X5: [toggleCollection] of a media card flips the membership of the
    collection id and keeps every other id; toggling twice keeps the same
    members, and gives back the exact list when the id was absent. *)
Theorem toggleCollection_twice (item : MediaItem.t) (c : jsstring) :
  let ids := MediaItem.collectionIds item in
  let once := toggleCollection item c in
  (In c once <-> ~ In c ids) /\
  (forall y, y <> c -> (In y once <-> In y ids)) /\
  (forall y, In y (toggleCollection (withCollectionIds item once) c) <-> In y ids) /\
  (~ In c ids -> toggleCollection (withCollectionIds item once) c = ids).
Proof.
  intros ids once.
  assert (Hgen : forall l, (In c (toggleCollection (withCollectionIds item l) c) <-> ~ In c l) /\
            (forall y, y <> c -> (In y (toggleCollection (withCollectionIds item l) c) <-> In y l))).
  { intros l. unfold toggleCollection. cbn [MediaItem.collectionIds withCollectionIds].
    destruct (existsb (jseqb c) l) eqn:E.
    - apply existsb_jseqb_In in E. split.
      + rewrite (setDelete_In l c c). split; [intros [_ H]; contradiction H; reflexivity|].
        intros H; contradiction.
      + intros y Hy. change (In y (setDelete l c) <-> In y l). rewrite setDelete_In. tauto.
    - assert (Hn : ~ In c l) by (intros H; apply existsb_jseqb_In in H; congruence).
      split.
      + split; [intros _; exact Hn|]. intros _. apply in_or_app. right. left. reflexivity.
      + intros y Hy. rewrite in_app_iff. simpl. split; [intros [H|[H|[]]]; [exact H|congruence]|].
        intros H; left; exact H. }
  assert (Hw : withCollectionIds item ids = item) by (destruct item; reflexivity).
  pose proof (Hgen ids) as [H1 H2]. rewrite Hw in H1, H2. fold once in H1, H2.
  pose proof (Hgen once) as [H3 H4].
  split; [exact H1|]. split; [exact H2|]. split.
  - intros y. destruct (list_eq_dec Z.eq_dec y c) as [->|Hy].
    + rewrite H3, H1. destruct (in_dec (list_eq_dec Z.eq_dec) c ids); tauto.
    + rewrite H4 by exact Hy. apply H2, Hy.
  - intros Hn. unfold once, toggleCollection at 2. fold ids.
    destruct (existsb (jseqb c) ids) eqn:E.
    { apply existsb_jseqb_In in E. contradiction. }
    unfold toggleCollection. cbn [MediaItem.collectionIds withCollectionIds].
    assert (Hx : existsb (jseqb c) (ids ++ [c]) = true)
      by (apply existsb_jseqb_In, in_or_app; right; left; reflexivity).
    rewrite Hx, filter_app, filter_neq_notin by exact Hn.
    simpl. rewrite jseqb_refl. simpl. apply app_nil_r.
Qed.

Lemma filter_id_notin (l : list MediaItem.t) (x : jsstring) :
  ~ In x (map MediaItem.id l) ->
  filter (fun i => negb (jseqb (MediaItem.id i) x)) l = l.
Proof.
  induction l as [|i l IH]; intros H; [reflexivity|]. simpl.
  destruct (jseqb (MediaItem.id i) x) eqn:E.
  - apply jseqb_eq in E. exfalso. apply H. left. exact E.
  - simpl. rewrite IH; [reflexivity|]. intros Hx. apply H. right. exact Hx.
Qed.

(** X6: [addToLibrary] puts a new item at the front of the library: a
    fresh UUID, the search result's title, creator and type, status
    [WANT_TO], no memories, the current date, and the given collection if it
    is non-empty. The collections are untouched, the result then shows as
    added, and [handleRemoveFromSearch] afterwards leaves the same library
    as it would have left before the addition. *)
Theorem addToLibrary_spec (R : nat -> jsstring) (now : jsstring) (st : AppState)
    (r : SearchResult.t) (collectionId : option jsstring) :
  let st' := addToLibrary R now st r collectionId in
  (exists newItem,
     items st' = newItem :: items st /\
     MediaItem.id newItem = R (uuidSeed st) /\
     MediaItem.title newItem = SearchResult.title r /\
     MediaItem.creator newItem = SearchResult.creator r /\
     MediaItem.type newItem = SearchResult.type r /\
     MediaItem.status newItem = WANT_TO /\ MediaItem.memories newItem = [] /\
     MediaItem.addedAt newItem = now /\
     MediaItem.collectionIds newItem =
       match collectionId with Some c => if truthy c then [c] else [] | None => [] end) /\
  userCollections st' = userCollections st /\
  isAdded (items st') r = true /\
  items (handleRemoveFromSearch st' (SearchResult.title r) (SearchResult.creator r)
           (SearchResult.type r)) =
  items (handleRemoveFromSearch st (SearchResult.title r) (SearchResult.creator r)
           (SearchResult.type r)).
Proof.
  intros st'. unfold st', addToLibrary, randomUUID. cbn [items userCollections uuidSeed setItems].
  split; [eexists; repeat split; reflexivity|]. split; [reflexivity|]. split.
  - cbn [isAdded existsb MediaItem.title MediaItem.creator]. rewrite !jseqb_refl. reflexivity.
  - unfold handleRemoveFromSearch, setItems. cbn [items filter MediaItem.title MediaItem.creator MediaItem.type].
    rewrite !jseqb_refl. destruct (SearchResult.type r); reflexivity.
Qed.

(** X7: deleting the item [addToLibrary] just added (by its new id, when
    that id is not already in the library) gives back the library. *)
Theorem addToLibrary_then_delete (R : nat -> jsstring) (now : jsstring) (st : AppState)
    (r : SearchResult.t) (collectionId : option jsstring) :
  ~ In (R (uuidSeed st)) (map MediaItem.id (items st)) ->
  items (handleDeleteItem (addToLibrary R now st r collectionId) (R (uuidSeed st))) = items st.
Proof.
  intros H. unfold handleDeleteItem, addToLibrary, randomUUID, setItems. cbn [items filter MediaItem.id].
  rewrite jseqb_refl. cbn [negb]. apply filter_id_notin, H.
Qed.

(** X8: when the search result is not shown as added (no item has its
    title and creator), [handleRemoveFromSearch] changes nothing. *)
Theorem handleRemoveFromSearch_needs_isAdded (st : AppState) (r : SearchResult.t) :
  isAdded (items st) r = false ->
  items (handleRemoveFromSearch st (SearchResult.title r) (SearchResult.creator r)
           (SearchResult.type r)) = items st.
Proof.
  unfold handleRemoveFromSearch, setItems, isAdded. cbn [items].
  induction (items st) as [|i l IH]; intros H; [reflexivity|].
  cbn [existsb] in H. apply orb_false_iff in H as [H1 H2]. cbn [filter].
  rewrite H1. cbn [andb negb]. rewrite IH by exact H2. reflexivity.
Qed.

Lemma handleCreateCollection_outcome (R : nat -> jsstring) (now : jsstring)
    (lower : jsstring -> jsstring) (st : AppState) (title description : jsstring) (ty : ItemType) :
  let r := handleCreateCollection R now lower st title description ty in
  (fst r = None /\ items (snd r) = items st /\ userCollections (snd r) = userCollections st) \/
  (fst r = Some (R (uuidSeed st)) /\ truthy (trim title) = true /\
   items (snd r) = items st /\ uuidSeed (snd r) = S (uuidSeed st) /\
   userCollections (snd r) = userCollections st ++
     [UserCollection.mk (R (uuidSeed st)) (trim title) (Some description) ty now]).
Proof.
  intros r. unfold r, handleCreateCollection.
  destruct (truthy (trim title)) eqn:Et; cbn [negb].
  - destruct (existsb _ (userCollections st)); [left; repeat split|right; repeat split].
  - left. repeat split.
Qed.

Lemma map_withCollectionIds_notin (l : list MediaItem.t) (x : jsstring) :
  (forall i, In i l -> ~ In x (MediaItem.collectionIds i)) ->
  map (fun item => withCollectionIds item
         (filter (fun id => negb (jseqb id x)) (MediaItem.collectionIds item))) l = l.
Proof.
  induction l as [|i l IH]; intros H; [reflexivity|]. simpl.
  rewrite filter_neq_notin by (apply H; left; reflexivity).
  rewrite IH by (intros j Hj; apply H; right; exact Hj).
  destruct i; reflexivity.
Qed.

Lemma filter_colid_notin (l : list UserCollection.t) (x : jsstring) :
  ~ In x (map UserCollection.id l) ->
  filter (fun c => negb (jseqb (UserCollection.id c) x)) l = l.
Proof.
  induction l as [|c l IH]; intros H; [reflexivity|]. simpl.
  destruct (jseqb (UserCollection.id c) x) eqn:E.
  - apply jseqb_eq in E. exfalso. apply H. left. exact E.
  - simpl. rewrite IH; [reflexivity|]. intros Hx. apply H. right. exact Hx.
Qed.

(** X9: deleting a collection right after [handleCreateCollection]
    created it (with a fresh id no item refers to) gives back the
    collections and the items. *)
Theorem createCollection_then_delete (R : nat -> jsstring) (now : jsstring)
    (lower : jsstring -> jsstring) (st : AppState) (title description : jsstring)
    (ty : ItemType) (id : jsstring) (st1 : AppState) :
  handleCreateCollection R now lower st title description ty = (Some id, st1) ->
  ~ In id (map UserCollection.id (userCollections st)) ->
  (forall i, In i (items st) -> ~ In id (MediaItem.collectionIds i)) ->
  userCollections (handleDeleteCollection st1 id) = userCollections st /\
  items (handleDeleteCollection st1 id) = items st.
Proof.
  intros Hc Hfresh Hitems.
  destruct (handleCreateCollection_outcome R now lower st title description ty)
    as [[Hn _]|[Hs [_ [Hi [_ Hu]]]]]; rewrite Hc in *; cbn [fst snd] in *; [discriminate|].
  injection Hs as Hs; subst id.
  unfold handleDeleteCollection, setUserCollections, setItems. cbn [items userCollections].
  rewrite Hu, Hi. split.
  - rewrite filter_app, filter_colid_notin by exact Hfresh. cbn. rewrite jseqb_refl.
    apply app_nil_r.
  - apply map_withCollectionIds_notin, Hitems.
Qed.

(** X10: [handleCreateAndAdd] of a search result card, with a UUID source
    that never yields the empty string, either changes neither the library
    nor the collections (blank or duplicate name), or appends the new
    collection and puts at the front of the library a new item of the
    result's type whose only collection is the new one. *)
Theorem handleCreateAndAdd_spec (R : nat -> jsstring) (now : jsstring)
    (lower : jsstring -> jsstring) (st : AppState) (activeType : ItemType)
    (r : SearchResult.t) (name description : jsstring) :
  (forall n, R n <> []) ->
  let st' := handleCreateAndAdd R now lower st activeType r name description in
  (items st' = items st /\ userCollections st' = userCollections st) \/
  (exists newItem,
     userCollections st' = userCollections st ++
       [UserCollection.mk (R (uuidSeed st)) (trim name) (Some description) activeType now] /\
     items st' = newItem :: items st /\
     MediaItem.collectionIds newItem = [R (uuidSeed st)] /\
     MediaItem.type newItem = SearchResult.type r /\
     MediaItem.id newItem = R (S (uuidSeed st))).
Proof.
  intros HR st'. unfold st', handleCreateAndAdd.
  destruct (truthy (trim name)) eqn:Et; [|left; split; reflexivity].
  pose proof (handleCreateCollection_outcome R now lower st name description activeType) as Hc.
  destruct (handleCreateCollection R now lower st name description activeType) as [[nid|] st1].
  - cbn [fst snd] in Hc. destruct Hc as [[Hn _]|[Hs [_ [Hi [Hseed Hu]]]]]; [discriminate|].
    injection Hs as ->.
    destruct (truthy (R (uuidSeed st))) eqn:Eid.
    + right. unfold addToLibrary, randomUUID, setItems. cbn [items userCollections uuidSeed].
      eexists. rewrite Hu, Hi, Hseed, Eid. repeat split; reflexivity.
    + exfalso. destruct (R (uuidSeed st)) eqn:E; [apply (HR (uuidSeed st)), E|discriminate].
  - cbn [fst snd] in Hc. destruct Hc as [[_ [Hi Hu]]|[Hs _]]; [|discriminate].
    left. split; assumption.
Qed.

Lemma filter_notsel_In (sel : list jsstring) (l : list MediaItem.t) (i : MediaItem.t) :
  In i (filter (fun item => negb (setHas sel (MediaItem.id item))) l) <->
  In i l /\ ~ In (MediaItem.id i) sel.
Proof.
  rewrite filter_In. rewrite <- setHas_In.
  destruct (setHas sel (MediaItem.id i)); simpl; intuition congruence.
Qed.

(** X11: [handleBatchDelete] never changes the collections. In a
    collection view it removes only the active collection from the selected
    items and keeps every item and every other field; elsewhere it deletes
    exactly the selected items. *)
Theorem handleBatchDelete_spec (st : AppState) (view : View) (active : option jsstring)
    (sel : list jsstring) :
  let st' := handleBatchDelete st view active sel in
  userCollections st' = userCollections st /\
  match view, active with
  | COLLECTIONS, Some a =>
      if truthy a then
        map MediaItem.id (items st') = map MediaItem.id (items st) /\
        Forall2 (fun i i' =>
            withCollectionIds i' [] = withCollectionIds i [] /\
            forall x, In x (MediaItem.collectionIds i') <->
                      In x (MediaItem.collectionIds i) /\
                      (x <> a \/ ~ In (MediaItem.id i) sel))
          (items st) (items st')
      else forall i, In i (items st') <-> In i (items st) /\ ~ In (MediaItem.id i) sel
  | _, _ => forall i, In i (items st') <-> In i (items st) /\ ~ In (MediaItem.id i) sel
  end.
Proof.
  intros st'. unfold st', handleBatchDelete.
  destruct view; [split; [reflexivity|apply filter_notsel_In]..|].
  destruct active as [a|]; [|split; [reflexivity|apply filter_notsel_In]].
  destruct (truthy a); [|split; [reflexivity|apply filter_notsel_In]].
  split; [reflexivity|]. cbn [items setItems showToast]. split.
  - rewrite map_map. apply map_ext. intros i. destruct (setHas sel (MediaItem.id i)); reflexivity.
  - induction (items st) as [|i l IH]; [constructor|]. cbn [map]. constructor; [|exact IH].
    destruct (setHas sel (MediaItem.id i)) eqn:E.
    + split; [reflexivity|]. intros x. cbn [MediaItem.collectionIds withCollectionIds].
      change (In x (setDelete (MediaItem.collectionIds i) a) <->
              In x (MediaItem.collectionIds i) /\ (x <> a \/ ~ In (MediaItem.id i) sel)).
      rewrite setDelete_In. apply setHas_In in E. intuition.
    + split; [reflexivity|]. intros x. split; [intros H; split; [exact H|right]|intros [H _]; exact H].
      intros H'. apply setHas_In in H'. congruence.
Qed.

(** X12: [handleBatchStatus] sets the status of exactly the selected
    items, changes no other field and no collection. *)
Theorem handleBatchStatus_spec (st : AppState) (sel : list jsstring) (s : ItemStatus) :
  let st' := handleBatchStatus st sel s in
  userCollections st' = userCollections st /\
  Forall2 (fun i i' =>
      withStatus i' WANT_TO = withStatus i WANT_TO /\
      MediaItem.status i' = if setHas sel (MediaItem.id i) then s else MediaItem.status i)
    (items st) (items st').
Proof.
  intros st'. split; [reflexivity|]. unfold st', handleBatchStatus. cbn [items setItems showToast].
  induction (items st) as [|i l IH]; [constructor|]. cbn [map]. constructor; [|exact IH].
  destruct (setHas sel (MediaItem.id i)); split; reflexivity.
Qed.

(** X13: [handleAddToCollectionFromLibrary] with an active collection
    only adds that collection to the selected items, keeps every other
    field and id, keeps id lists duplicate-free, is idempotent, and removes
    the selected items from the picker's candidates. *)
Theorem handleAddToCollectionFromLibrary_spec (st : AppState) (a : jsstring)
    (sel : list jsstring) (activeType : ItemType) :
  truthy a = true ->
  let st' := handleAddToCollectionFromLibrary st (Some a) sel in
  userCollections st' = userCollections st /\
  items (handleAddToCollectionFromLibrary st' (Some a) sel) = items st' /\
  Forall2 (fun i i' =>
      withCollectionIds i' [] = withCollectionIds i [] /\
      (In (MediaItem.id i) sel -> In a (MediaItem.collectionIds i')) /\
      (forall x, In x (MediaItem.collectionIds i) -> In x (MediaItem.collectionIds i')) /\
      (forall x, In x (MediaItem.collectionIds i') -> In x (MediaItem.collectionIds i) \/ x = a) /\
      (NoDup (MediaItem.collectionIds i) -> NoDup (MediaItem.collectionIds i')))
    (items st) (items st') /\
  libraryPickerCandidates (items st') activeType a =
  filter (fun i => negb (setHas sel (MediaItem.id i))) (libraryPickerCandidates (items st) activeType a).
Proof.
  intros Ha st'. unfold st', handleAddToCollectionFromLibrary. rewrite Ha.
  cbn [items userCollections setItems showToast]. split; [reflexivity|].
  set (f := fun item : MediaItem.t =>
         if setHas sel (MediaItem.id item) then
           if negb (existsb (jseqb a) (MediaItem.collectionIds item))
           then withCollectionIds item (MediaItem.collectionIds item ++ [a]) else item
         else item).
  assert (Hf : forall i, In a (MediaItem.collectionIds (f i)) <->
                         In a (MediaItem.collectionIds i) \/ In (MediaItem.id i) sel).
  { intros i. unfold f. destruct (setHas sel (MediaItem.id i)) eqn:E.
    - apply setHas_In in E. destruct (existsb (jseqb a) (MediaItem.collectionIds i)) eqn:E2.
      + apply existsb_jseqb_In in E2. tauto.
      + cbn. rewrite in_app_iff. simpl. tauto.
    - assert (~ In (MediaItem.id i) sel) by (rewrite <- setHas_In; congruence). tauto. }
  assert (Hid : forall i, MediaItem.id (f i) = MediaItem.id i).
  { intros i. unfold f. destruct (setHas sel (MediaItem.id i));
      [destruct (negb (existsb (jseqb a) (MediaItem.collectionIds i)))|]; reflexivity. }
  assert (Hff : forall i, f (f i) = f i).
  { intros i. unfold f at 1. rewrite Hid. destruct (setHas sel (MediaItem.id i)) eqn:E; [|reflexivity].
    assert (In a (MediaItem.collectionIds (f i))) by (apply Hf; right; apply setHas_In, E).
    destruct (existsb (jseqb a) (MediaItem.collectionIds (f i))) eqn:E2; [reflexivity|].
    apply existsb_jseqb_In in H. congruence. }
  split; [rewrite map_map; apply map_ext; exact Hff|]. split.
  - induction (items st) as [|i l IH]; [constructor|]. cbn [map]. constructor; [|exact IH].
    unfold f. destruct (setHas sel (MediaItem.id i)) eqn:E.
    + apply setHas_In in E. destruct (existsb (jseqb a) (MediaItem.collectionIds i)) eqn:E2.
      * apply existsb_jseqb_In in E2. cbn [negb]. repeat split; auto.
      * cbn [negb MediaItem.collectionIds withCollectionIds].
        assert (~ In a (MediaItem.collectionIds i))
          by (intros H; apply existsb_jseqb_In in H; congruence).
        split; [reflexivity|]. split; [intros _; apply in_or_app; right; left; reflexivity|].
        split; [intros x Hx; apply in_or_app; left; exact Hx|]. split.
        -- intros x Hx. apply in_app_or in Hx as [Hx|[Hx|[]]]; [left; exact Hx|right; auto].
        -- intros Hnd. apply NoDup_app; [exact Hnd|repeat constructor; simpl; tauto|].
           intros x Hx [Hy|[]]. subst. contradiction.
    + repeat split; auto. intros H. apply setHas_In in H. congruence.
  - assert (Ht : forall i, MediaItem.type (f i) = MediaItem.type i).
    { intros i. unfold f. destruct (setHas sel (MediaItem.id i));
        [destruct (negb (existsb (jseqb a) (MediaItem.collectionIds i)))|]; reflexivity. }
    assert (Hnot : forall i, setHas sel (MediaItem.id i) = false -> f i = i).
    { intros i E. unfold f. rewrite E. reflexivity. }
    clearbody f.
    unfold libraryPickerCandidates. induction (items st) as [|i l IH]; [reflexivity|].
    cbn [map filter]. rewrite IH, Ht.
    assert (Ha' : existsb (jseqb a) (MediaItem.collectionIds (f i)) =
                  existsb (jseqb a) (MediaItem.collectionIds i) || setHas sel (MediaItem.id i)).
    { apply eq_true_iff_eq. rewrite orb_true_iff, !existsb_jseqb_In, setHas_In. apply Hf. }
    rewrite Ha'. destruct (setHas sel (MediaItem.id i)) eqn:E.
    + rewrite orb_true_r. cbn [negb andb]. rewrite andb_false_r.
      destruct (itemType_eqb (MediaItem.type i) activeType &&
                negb (existsb (jseqb a) (MediaItem.collectionIds i))); cbn; rewrite ?E; reflexivity.
    + rewrite orb_false_r, (Hnot i E).
      destruct (itemType_eqb (MediaItem.type i) activeType &&
                negb (existsb (jseqb a) (MediaItem.collectionIds i))); cbn; rewrite ?E; reflexivity.
Qed.

(** X14: [handleSaveCollection] never makes two collections of a type
    share a title (up to [toLowerCase]) when the ids are distinct and the
    edited collection has the active type; it keeps every id, type and the
    library. *)
Theorem handleSaveCollection_keeps_titles_unique (lower : jsstring -> jsstring) (st : AppState)
    (activeType : ItemType) (active : option jsstring) (title description : jsstring) :
  NoDup (map UserCollection.id (userCollections st)) ->
  (forall c, In c (userCollections st) -> Some (UserCollection.id c) = active ->
             UserCollection.type c = activeType) ->
  NoDupTitles lower (userCollections st) ->
  let st' := handleSaveCollection lower st activeType active title description in
  NoDupTitles lower (userCollections st') /\
  map UserCollection.id (userCollections st') = map UserCollection.id (userCollections st) /\
  map UserCollection.type (userCollections st') = map UserCollection.type (userCollections st) /\
  items st' = items st.
Proof.
  intros Hnd Hty Hdup st'. unfold st', handleSaveCollection.
  destruct active as [a|]; [|repeat split; assumption].
  destruct (negb (truthy a)); [repeat split; assumption|].
  destruct (negb (truthy (trim title))); [repeat split; assumption|].
  destruct (existsb _ (userCollections st)) eqn:Ex; [repeat split; assumption|].
  cbn [userCollections items setUserCollections].
  set (g := fun c => if jseqb (UserCollection.id c) a
                     then withTitleDescription c (trim title) description else c).
  assert (Hgid : forall c, UserCollection.id (g c) = UserCollection.id c).
  { intros c. unfold g. destruct (jseqb _ a); reflexivity. }
  assert (Hgty : forall c, UserCollection.type (g c) = UserCollection.type c).
  { intros c. unfold g. destruct (jseqb _ a); reflexivity. }
  split; [|split; [rewrite map_map; apply map_ext, Hgid|split; [rewrite map_map; apply map_ext, Hgty|reflexivity]]].
  assert (Hother : forall d, In d (userCollections st) -> UserCollection.id d <> a ->
            UserCollection.type d = activeType ->
            lower (UserCollection.title d) <> lower (trim title)).
  { intros d Hd Hid Ht E. rewrite <- Bool.not_true_iff_false in Ex. apply Ex.
    apply existsb_exists. exists d. split; [exact Hd|].
    rewrite Ht, E. destruct activeType; cbn [itemType_eqb andb];
      (destruct (jseqb (UserCollection.id d) a) eqn:Ei; [apply jseqb_eq in Ei; contradiction|]);
      cbn [negb andb]; apply jseqb_refl. }
  intros i j c' d' Hij Hi Hj Htyp.
  rewrite nth_error_map in Hi, Hj.
  destruct (nth_error (userCollections st) i) as [c|] eqn:Ec; [|discriminate].
  destruct (nth_error (userCollections st) j) as [d|] eqn:Ed; [|discriminate].
  injection Hi as <-. injection Hj as <-. rewrite !Hgty in Htyp.
  pose proof (nth_error_In _ _ Ec) as Hc. pose proof (nth_error_In _ _ Ed) as Hd.
  unfold g. destruct (jseqb (UserCollection.id c) a) eqn:Eca, (jseqb (UserCollection.id d) a) eqn:Eda.
  - exfalso. apply Hij. apply jseqb_eq in Eca, Eda.
    eapply NoDup_nth_error; [exact Hnd| |].
    + apply nth_error_Some. rewrite nth_error_map, Ec. discriminate.
    + rewrite !nth_error_map, Ec, Ed. cbn. congruence.
  - apply jseqb_eq in Eca. cbn [UserCollection.title withTitleDescription].
    assert (UserCollection.type c = activeType) by (apply Hty; [exact Hc|congruence]).
    intros E. apply (Hother d Hd); [intros E'; apply jseqb_eq in E'; congruence|congruence|congruence].
  - apply jseqb_eq in Eda. cbn [UserCollection.title withTitleDescription].
    assert (UserCollection.type d = activeType) by (apply Hty; [exact Hd|congruence]).
    intros E. apply (Hother c Hc); [intros E'; apply jseqb_eq in E'; congruence|congruence|congruence].
  - apply (Hdup i j c d Hij Ec Ed Htyp).
Qed.

Lemma withMemories_same (i : MediaItem.t) : withMemories i (MediaItem.memories i) = i.
Proof. destruct i; reflexivity. Qed.

Lemma withMemories_twice (i : MediaItem.t) ms ms' :
  withMemories (withMemories i ms) ms' = withMemories i ms'.
Proof. destruct i; reflexivity. Qed.

(** X15: [handleAddMemory] of the detail modal does nothing exactly when
    there is no preview image or it is empty; otherwise it adds a memory,
    and [handleDeleteMemory] with its fresh id gives back the item, so both
    [onUpdate] calls leave the library as it was. *)
Theorem handleAddMemory_then_delete (st : AppState) (item : MediaItem.t)
    (previewImage : option jsstring) (captionText locationText memId now : jsstring) :
  ~ In memId (map Memory.id (MediaItem.memories item)) ->
  (forall i, In i (items st) -> MediaItem.id i = MediaItem.id item -> i = item) ->
  (handleAddMemory item previewImage captionText locationText memId now = None <->
     previewImage = None \/ previewImage = Some []) /\
  (forall added,
     handleAddMemory item previewImage captionText locationText memId now = Some added ->
     handleDeleteMemory added memId = item /\
     MediaItem.memories added <> [] /\
     items (handleUpdateItem (handleUpdateItem st added) (handleDeleteMemory added memId))
       = items st).
Proof.
  intros Hfresh Hlib. unfold handleAddMemory. split.
  { destruct previewImage as [img|]; [|split; auto].
    destruct (truthy img) eqn:Ht; split; intros H.
    - discriminate.
    - destruct H as [H|H]; [discriminate|]. injection H as ->. discriminate.
    - right. apply truthy_false in Ht. subst. reflexivity.
    - reflexivity. }
  intros added Hadd.
  destruct previewImage as [img|]; [|discriminate].
  destruct (truthy img) eqn:Ht; [|discriminate].
  injection Hadd as <-.
  assert (Hdel : handleDeleteMemory
            (withMemories item (Memory.mk memId img captionText (Some locationText) now
                                :: MediaItem.memories item)) memId = item).
  { unfold handleDeleteMemory. rewrite withMemories_twice.
    cbn [MediaItem.memories withMemories filter Memory.id]. rewrite jseqb_refl. cbn [negb].
    rewrite filter_id_all; [apply withMemories_same|].
    intros m Hm. destruct (jseqb (Memory.id m) memId) eqn:E; [|reflexivity].
    exfalso. apply Hfresh. apply jseqb_eq in E. rewrite <- E. apply in_map, Hm. }
  split; [exact Hdel|split; [destruct item; discriminate|]].
  rewrite Hdel. unfold handleUpdateItem at 1, setItems. cbn [items].
  replace (MediaItem.id item) with (MediaItem.id (withMemories item
    (Memory.mk memId img captionText (Some locationText) now :: MediaItem.memories item)))
    by (destruct item; reflexivity).
  unfold handleUpdateItem, setItems. cbn [items]. rewrite map_map.
  rewrite <- (map_id (items st)) at 2. apply map_ext_in. intros i Hi.
  destruct (jseqb (MediaItem.id i) _) eqn:E.
  - cbn [MediaItem.id withMemories]. destruct item; cbn in *. rewrite jseqb_refl.
    symmetry. apply Hlib; [exact Hi|apply jseqb_eq, E].
  - rewrite E. reflexivity.
Qed.

Lemma eqPrecededWell_tail (a : Z) (s : jsstring) :
  eqPrecededWell (a :: s) = true -> eqPrecededWell s = true.
Proof. destruct s as [|b s]; [reflexivity|]. cbn [eqPrecededWell]. intros H. apply andb_true_iff in H. apply H. Qed.

Lemma startsWith_guard (p0 : jsstring) (x : Z) (s : jsstring) :
  startsWith (p0 ++ [x; 61]) s = true -> eqPrecededWell s = true -> eqGuard x = true.
Proof.
  revert s. induction p0 as [|a p0 IH]; intros s Hs Hw.
  - destruct s as [|a [|b s]]; cbn [app startsWith] in Hs; try discriminate;
      [rewrite andb_false_r in Hs; discriminate|].
    apply andb_true_iff in Hs as [E1 Hs]. apply andb_true_iff in Hs as [E2 _].
    apply Z.eqb_eq in E1, E2. subst. cbn [eqPrecededWell] in Hw.
    apply andb_true_iff in Hw as [Hw _]. exact Hw.
  - destruct s as [|b s]; [discriminate|]. cbn [app startsWith] in Hs.
    apply andb_true_iff in Hs as [_ Hs]. apply (IH s Hs). eapply eqPrecededWell_tail, Hw.
Qed.

Lemma includes_guard (p0 : jsstring) (x : Z) (s : jsstring) :
  eqGuard x = false -> eqPrecededWell s = true -> includes (p0 ++ [x; 61]) s = false.
Proof.
  intros Hx. induction s as [|a s IH]; intros Hw.
  - destruct p0; reflexivity.
  - cbn [includes]. apply orb_false_iff. split.
    + destruct (startsWith _ _) eqn:E; [|reflexivity].
      rewrite (startsWith_guard p0 x _ E Hw) in Hx. discriminate.
    + apply IH. eapply eqPrecededWell_tail, Hw.
Qed.

Lemma base64Char_bounds (v : Z) : 0 <= v < 64 -> 43 <= base64Char v <= 122.
Proof.
  intros H. unfold base64Char.
  destruct (v <? 26) eqn:E1; [apply Z.ltb_lt in E1; lia|].
  destruct (v <? 52) eqn:E2; [apply Z.ltb_lt in E2; lia|].
  destruct (v <? 62) eqn:E3; [apply Z.ltb_lt in E3; apply Z.ltb_ge in E2; lia|].
  destruct (v =? 62); lia.
Qed.

Lemma eqGuard_base64Char (v : Z) : 0 <= v < 64 -> v mod 4 = 0 -> eqGuard (base64Char v) = true.
Proof.
  intros H H4. unfold eqGuard. rewrite base64Value_base64Char by exact H.
  rewrite H4. apply orb_true_r.
Qed.

Lemma base64Char_eqb61 (v : Z) : 0 <= v < 64 -> (base64Char v =? 61) = false.
Proof. intros H. apply Z.eqb_neq, base64Char_range, H. Qed.

Lemma base64Encode_guard (bytes : list Z) (x : Z) :
  Forall (fun b => 0 <= b < 256) bytes -> eqPrecededWell (x :: base64Encode bytes) = true.
Proof.
  revert x. remember (length bytes) as n eqn:Hn. revert bytes Hn.
  induction n as [n IH] using (well_founded_induction lt_wf). intros bytes Hn x Hb.
  destruct bytes as [|b0 [|b1 [|b2 rest]]]; [reflexivity| | |].
  - inversion Hb as [|? ? H0 _]; subst.
    assert (A : 0 <= b0 / 4 < 64) by (Z.div_mod_to_equations; lia).
    assert (B : 0 <= b0 mod 4 * 16 < 64) by (Z.div_mod_to_equations; lia).
    cbn [base64Encode eqPrecededWell]. rewrite !base64Char_eqb61 by assumption.
    cbn [negb orb andb].
    rewrite (eqGuard_base64Char (b0 mod 4 * 16)); [reflexivity|assumption|].
    replace (b0 mod 4 * 16) with (b0 mod 4 * 4 * 4) by ring. apply Z.mod_mul. lia.
  - inversion Hb as [|? ? H0 Hb']; subst. inversion Hb' as [|? ? H1 _]; subst.
    assert (A : 0 <= b0 / 4 < 64) by (Z.div_mod_to_equations; lia).
    assert (B : 0 <= b0 mod 4 * 16 + b1 / 16 < 64) by (Z.div_mod_to_equations; lia).
    assert (C : 0 <= b1 mod 16 * 4 < 64) by (Z.div_mod_to_equations; lia).
    cbn [base64Encode eqPrecededWell]. rewrite !base64Char_eqb61 by assumption.
    cbn [negb orb andb].
    rewrite (eqGuard_base64Char (b1 mod 16 * 4)); [reflexivity|assumption|].
    apply Z.mod_mul. lia.
  - inversion Hb as [|? ? H0 Hb']; subst. inversion Hb' as [|? ? H1 Hb'']; subst.
    inversion Hb'' as [|? ? H2 Hr]; subst.
    assert (A : 0 <= b0 / 4 < 64) by (Z.div_mod_to_equations; lia).
    assert (B : 0 <= b0 mod 4 * 16 + b1 / 16 < 64) by (Z.div_mod_to_equations; lia).
    assert (C : 0 <= b1 mod 16 * 4 + b2 / 64 < 64) by (Z.div_mod_to_equations; lia).
    assert (D : 0 <= b2 mod 64 < 64) by (Z.div_mod_to_equations; lia).
    cbn [base64Encode]. change (eqPrecededWell (x :: base64Char (b0 / 4) :: base64Char (b0 mod 4 * 16 + b1 / 16)
      :: base64Char (b1 mod 16 * 4 + b2 / 64) :: base64Char (b2 mod 64) :: base64Encode rest))
      with ((negb (base64Char (b0 / 4) =? 61) || eqGuard x) &&
            ((negb (base64Char (b0 mod 4 * 16 + b1 / 16) =? 61) || eqGuard (base64Char (b0 / 4))) &&
            ((negb (base64Char (b1 mod 16 * 4 + b2 / 64) =? 61) || eqGuard (base64Char (b0 mod 4 * 16 + b1 / 16))) &&
            ((negb (base64Char (b2 mod 64) =? 61) || eqGuard (base64Char (b1 mod 16 * 4 + b2 / 64))) &&
            eqPrecededWell (base64Char (b2 mod 64) :: base64Encode rest))))).
    rewrite !base64Char_eqb61 by assumption. cbn [negb orb andb].
    apply (IH (length rest)); [cbn; lia|reflexivity|exact Hr].
Qed.

Lemma base64Encode_notWhite (bytes : list Z) :
  Forall (fun b => 0 <= b < 256) bytes -> Forall (fun c => isJsWhiteSpace c = false) (base64Encode bytes).
Proof.
  intros Hb. destruct (base64Encode_structure bytes Hb) as (vs & pad & He & Hvs & _ & Hp).
  rewrite He. apply Forall_app. split.
  - apply Forall_map. eapply Forall_impl; [|exact Hvs]. intros v Hv.
    pose proof (base64Char_bounds v Hv). unfold isJsWhiteSpace.
    repeat match goal with |- context [?a =? ?b] => destruct (Z.eqb_spec a b); [lia|] end.
    destruct (Z.leb_spec 8192 (base64Char v)); [lia|]. reflexivity.
  - destruct Hp as [[-> _]|[[-> _]|[-> _]]]; repeat constructor.
Qed.

Lemma dropWhite_id (s : jsstring) :
  Forall (fun c => isJsWhiteSpace c = false) s -> dropWhite s = s.
Proof. intros H. destruct s as [|c s]; [reflexivity|]. inversion H; subst. cbn. rewrite H2. reflexivity. Qed.

Lemma trim_id (s : jsstring) :
  Forall (fun c => isJsWhiteSpace c = false) s -> trim s = s.
Proof.
  intros H. unfold trim. rewrite (dropWhite_id s H).
  rewrite dropWhite_id; [apply rev_involutive|]. apply Forall_rev, H.
Qed.

Lemma encodeCollection_token_shape (c : UserCollection.t) (collectionItems : list MediaItem.t)
    (sharer : option jsstring) (token : jsstring) :
  encodeCollection c collectionItems sharer = Some token ->
  Forall (fun x => isJsWhiteSpace x = false) token /\ eqPrecededWell token = true /\
  truthy token = true.
Proof.
  unfold encodeCollection, JSON_stringify. rewrite stringifyValue_serializeJson, sharePayload_json.
  cbn [option_map serializeJson]. cbn [encodeURIComponent].
  assert (E1 : isURIUnescaped 123 = false) by reflexivity.
  assert (E2 : isTrailSurrogate 123 = false) by reflexivity.
  assert (E3 : isLeadSurrogate 123 = false) by reflexivity.
  rewrite E1, E2, E3.
  match goal with |- context [encodeURIComponent ?r] => destruct (encodeURIComponent r) as [t|] end;
    [|discriminate].
  remember (percentEncode (utf8Octets 123) ++ t) as e eqn:He.
  unfold btoa. destruct (forallb isByteb e) eqn:Hb; [|discriminate].
  intros H. injection H as Ht. apply forallb_isByteb_Forall in Hb.
  split; [rewrite <- Ht; apply base64Encode_notWhite, Hb|].
  split; [rewrite <- Ht; apply (eqPrecededWell_tail 0), base64Encode_guard, Hb|].
  rewrite <- Ht, He. reflexivity.
Qed.

Lemma includes_share_token (token : jsstring) :
  eqPrecededWell token = true -> includes (js "share=") token = false.
Proof.
  intros Hw. change (js "share=") with (js "shar" ++ [101; 61]).
  apply includes_guard; [reflexivity|exact Hw].
Qed.

Lemma includes_editItem_token (token : jsstring) :
  eqPrecededWell token = true -> includes (js "editItem=") token = false.
Proof.
  intros Hw. change (js "editItem=") with (js "editIte" ++ [109; 61]).
  apply includes_guard; [reflexivity|exact Hw].
Qed.

(** X16: a share code produced by [btoa(encodeURIComponent(JSON.stringify
    payload))] and pasted alone is decoded as a collection code, whatever
    [new URL] does with it: it has no surrounding spaces and never contains
    [share=] or [editItem=]. *)
Theorem handlePreviewLink_bare_token (parseURL : jsstring -> option (jsstring -> option jsstring))
    (c : UserCollection.t) (collectionItems : list MediaItem.t) (sharer : option jsstring)
    (token : jsstring) :
  encodeCollection c collectionItems sharer = Some token ->
  handlePreviewLink parseURL token =
  match decodeShareToken token with Some p => PreviewCollection p | None => PreviewInvalid end.
Proof.
  intros H. destruct (encodeCollection_token_shape c collectionItems sharer token H) as (Hnw & Hw & Htr).
  unfold handlePreviewLink. rewrite trim_id by exact Hnw.
  rewrite Htr. cbn [negb].
  rewrite includes_share_token, includes_editItem_token by exact Hw.
  reflexivity.
Qed.

Lemma startsWith_app_self (p s : jsstring) : startsWith p (p ++ s) = true.
Proof. induction p as [|a p IH]; [reflexivity|]. cbn. rewrite Z.eqb_refl. exact IH. Qed.

Lemma includes_app_middle (sub pre post : jsstring) : includes sub (pre ++ sub ++ post) = true.
Proof.
  induction pre as [|a pre IH].
  - destruct sub as [|x sub]; [destruct post; reflexivity|]. cbn [app includes].
    change (x :: sub ++ post) with ((x :: sub) ++ post). rewrite startsWith_app_self. reflexivity.
  - cbn [app includes]. rewrite IH. apply orb_true_r.
Qed.

Lemma splitAux_no_sep (fuel : nat) (sep s cur : jsstring) :
  (length s < fuel)%nat -> includes sep s = false -> splitAux fuel sep s cur = [cur ++ s].
Proof.
  revert fuel cur. induction s as [|c s IH]; intros fuel cur Hf Hi.
  - destruct fuel; [lia|]. rewrite app_nil_r. reflexivity.
  - destruct fuel as [|f]; [cbn in Hf; lia|]. cbn [includes] in Hi.
    apply orb_false_iff in Hi as [H1 H2]. cbn [splitAux]. rewrite H1.
    rewrite IH by (cbn in Hf; lia || exact H2). rewrite <- app_assoc. reflexivity.
Qed.

Lemma splitAux_prefix (fuel : nat) (sep pre s cur : jsstring) :
  (length pre + length s < fuel)%nat ->
  (forall k, (k < length pre)%nat -> startsWith sep (skipn k pre ++ s) = false) ->
  splitAux fuel sep (pre ++ s) cur = splitAux (fuel - length pre) sep s (cur ++ pre).
Proof.
  revert fuel cur. induction pre as [|a pre IH]; intros fuel cur Hf Hk.
  - rewrite Nat.sub_0_r, app_nil_r. reflexivity.
  - destruct fuel as [|f]; [cbn in Hf; lia|]. cbn [app splitAux].
    pose proof (Hk 0%nat ltac:(cbn; lia)) as H0. cbn [skipn app] in H0. rewrite H0. cbn [length].
    rewrite IH.
    + rewrite <- app_assoc. reflexivity.
    + cbn in Hf. lia.
    + intros k Hk'. apply (Hk (S k)). cbn. lia.
Qed.

Lemma startsWith_nth (p s : jsstring) (n : nat) :
  startsWith p s = true -> (n < length p)%nat -> nth n s 0 = nth n p 0.
Proof.
  revert s n. induction p as [|a p IH]; intros s n H Hn; [cbn in Hn; lia|].
  destruct s as [|b s]; [discriminate|]. cbn [startsWith] in H.
  apply andb_true_iff in H as [E H]. apply Z.eqb_eq in E.
  destruct n as [|n]; [cbn; congruence|]. cbn. apply IH; [exact H|cbn in Hn; lia].
Qed.

(** No occurrence of [share=] starts inside [pre ++ "?"] when [pre] has no [=]. *)
Lemma share_not_before (pre post : jsstring) (k : nat) :
  ~ In 61 pre -> (k < length (pre ++ js "?"))%nat ->
  startsWith (js "share=") (skipn k (pre ++ js "?") ++ js "share=" ++ post) = false.
Proof.
  intros Hpre Hk. destruct (startsWith _ _) eqn:E; [|reflexivity]. exfalso.
  pose proof (startsWith_nth _ _ 5 E ltac:(cbn; lia)) as H5.
  change (nth 5 (js "share=") 0) with 61 in H5.
  assert (Hs : skipn k (pre ++ js "?") ++ js "share=" ++ post =
               skipn k ((pre ++ js "?") ++ js "share=" ++ post)).
  { rewrite (skipn_app k (pre ++ js "?")). replace (k - length (pre ++ js "?"))%nat with 0%nat by lia. reflexivity. }
  rewrite Hs, nth_skipn in H5. clear Hs E.
  rewrite length_app in Hk. change (length (js "?")) with 1%nat in Hk.
  destruct (Nat.lt_ge_cases (k + 5) (length pre + 1)) as [Hlt|Hge].
  - rewrite app_nth1 in H5 by (rewrite length_app; cbn; lia).
    destruct (Nat.lt_ge_cases (k + 5) (length pre)) as [Hlt'|Hge'].
    + rewrite app_nth1 in H5 by lia. apply Hpre. rewrite <- H5. apply nth_In. exact Hlt'.
    + rewrite app_nth2 in H5 by lia. replace (k + 5 - length pre)%nat with 0%nat in H5 by lia.
      discriminate.
  - rewrite app_nth2 in H5 by (rewrite length_app; cbn; lia).
    rewrite length_app in H5. cbn [length js list_ascii_of_string map] in H5.
    assert (Hr : ((k + 5 - (length pre + 1)) < 5)%nat) by lia.
    destruct (k + 5 - (length pre + 1))%nat as [|[|[|[|[|m]]]]]; try (cbn in H5; discriminate).
    lia.
Qed.

(** X17: the link [generateShareLink] builds (origin and path with no
    space and no [=]) previews as its token decodes, through [new URL] when
    that returns the token for [share], and through the [split("share=")]
    fallback when the URL does not parse. *)
Theorem handlePreviewLink_share_link (parseURL : jsstring -> option (jsstring -> option jsstring))
    (items : list MediaItem.t) (sharingCollection : UserCollection.t) (isPublic : bool)
    (sharerNameInput origin pathname token : jsstring) :
  generateShareToken items sharingCollection isPublic sharerNameInput = Some token ->
  Forall (fun x => isJsWhiteSpace x = false) (origin ++ pathname) ->
  ~ In 61 (origin ++ pathname) ->
  (forall get, parseURL (shareLinkURL origin pathname token) = Some get ->
               get (js "share") = Some token) ->
  handlePreviewLink parseURL (shareLinkURL origin pathname token) =
  match decodeShareToken token with Some p => PreviewCollection p | None => PreviewInvalid end.
Proof.
  intros Hgen Hw Heq Hget. unfold generateShareToken in Hgen.
  destruct (encodeCollection_token_shape _ _ _ token Hgen) as (Hnw & Hguard & Htr).
  assert (Hurl : shareLinkURL origin pathname token =
                 ((origin ++ pathname) ++ js "?") ++ js "share=" ++ token)
    by (unfold shareLinkURL; rewrite <- !app_assoc; reflexivity).
  unfold handlePreviewLink.
  rewrite trim_id.
  2:{ rewrite Hurl. apply Forall_app. split; [apply Forall_app; split; [exact Hw|repeat constructor]|].
      apply Forall_app. split; [repeat constructor|exact Hnw]. }
  assert (Htu : truthy (shareLinkURL origin pathname token) = true).
  { rewrite Hurl. destruct ((origin ++ pathname) ++ js "?"); reflexivity. }
  rewrite Htu. cbn [negb].
  replace (includes (js "share=") (shareLinkURL origin pathname token)) with true
    by (rewrite Hurl; symmetry; apply includes_app_middle).
  destruct (parseURL (shareLinkURL origin pathname token)) as [get|] eqn:Hp.
  - rewrite (Hget get eq_refl), Htr. reflexivity.
  - rewrite Hurl. unfold split.
    rewrite splitAux_prefix.
    + assert (Hf : (S (length (((origin ++ pathname) ++ js "?") ++ js "share=" ++ token))
                      - length ((origin ++ pathname) ++ js "?")
                    = S (length (js "share=" ++ token)))%nat) by (rewrite !length_app; lia).
      rewrite Hf. change (js "share=" ++ token) with (115 :: (js "hare=" ++ token)).
      cbn [splitAux]. change (115 :: js "hare=" ++ token) with (js "share=" ++ token).
      rewrite (startsWith_app_self (js "share=") token).
      rewrite skipn_app, skipn_all, Nat.sub_diag. cbn [skipn app].
      rewrite splitAux_no_sep.
      * reflexivity.
      * rewrite length_app. cbn. lia.
      * apply includes_share_token, Hguard.
    + rewrite !length_app. lia.
    + intros k Hk. apply share_not_before; assumption.
Qed.

Lemma rejectContinuation_idle (c : nat) (s : SearchState) :
  (abortControllerRef s = None -> loading s = false) ->
  abortControllerRef (rejectContinuation c s) = None -> loading (rejectContinuation c s) = false.
Proof. unfold rejectContinuation. destruct (isCurrent c _); auto. Qed.

Lemma searchStep_idle_not_loading (s : SearchState) (e : SearchEvent) :
  (abortControllerRef s = None -> loading s = false) ->
  abortControllerRef (searchStep s e) = None -> loading (searchStep s e) = false.
Proof.
  intros H. destruct e as [q ty| | |c y]; cbn [searchStep].
  - unfold handleSearch. destruct (Nat.eqb _ 0); [exact H|].
    destruct (abortControllerRef s) as [c|].
    + apply rejectContinuation_idle. discriminate.
    + discriminate.
  - unfold handleStopSearch. destruct (abortControllerRef s) as [c|] eqn:E; [|intros _; apply H; reflexivity].
    apply rejectContinuation_idle. reflexivity.
  - unfold resetSearch. cbn [abortControllerRef]. destruct (abortControllerRef s) as [c|] eqn:E.
    + apply rejectContinuation_idle. reflexivity.
    + intros _; apply H; reflexivity.
  - unfold fireTimer. destruct (find _ _) as [[[c' q] ty]|]; [|exact H].
    destruct (existsb _ _).
    + apply rejectContinuation_idle. exact H.
    + unfold resolveContinuation. destruct (isCurrent _ _); [reflexivity|exact H].
Qed.

Lemma runSearch_idle_not_loading (events : list SearchEvent) :
  abortControllerRef (runSearch events) = None -> loading (runSearch events) = false.
Proof.
  induction events as [|e events IH] using rev_ind; [reflexivity|].
  unfold runSearch. rewrite fold_left_app. cbn [fold_left].
  apply searchStep_idle_not_loading, IH.
Qed.

Lemma fireTimer_no_timers (c : nat) (y : jsstring) (s : SearchState) :
  pendingTimers s = [] -> fireTimer c y s = s.
Proof. intros H. unfold fireTimer. rewrite H. reflexivity. Qed.

(** X18: after [handleStopSearch] no request is tracked, nothing is
    loading, no timer is pending and the results are kept; timers firing
    afterwards change nothing. *)
Theorem handleStopSearch_settles (events more : list SearchEvent) :
  Forall (fun e => exists c y, e = TimerFires c y) more ->
  let s := runSearch (events ++ [StopSearch]) in
  abortControllerRef s = None /\ loading s = false /\ pendingTimers s = [] /\
  searchResults s = searchResults (runSearch events) /\
  runSearch (events ++ StopSearch :: more) = s.
Proof.
  intros Hmore s.
  pose proof (SearchInv_run events) as Hinv.
  assert (Hs : s = handleStopSearch (runSearch events))
    by (unfold s, runSearch; rewrite fold_left_app; reflexivity).
  assert (Href : abortControllerRef s = None /\ pendingTimers s = [] /\
                 searchResults s = searchResults (runSearch events)).
  { rewrite Hs. unfold handleStopSearch.
    destruct (abortControllerRef (runSearch events)) as [c|] eqn:Hr.
    - unfold rejectContinuation. cbn [isCurrent abortControllerRef].
      cbn [pendingTimers searchResults abortController].
      rewrite (SearchInv_timers_current events _ c Hinv Hr). auto.
    - rewrite (SearchInv_timers_idle events _ Hinv Hr). auto. }
  destruct Href as [Hr [Ht Hres]].
  split; [exact Hr|]. split; [apply runSearch_idle_not_loading; exact Hr|].
  split; [exact Ht|]. split; [exact Hres|].
  replace (events ++ StopSearch :: more) with ((events ++ [StopSearch]) ++ more)
    by (rewrite <- app_assoc; reflexivity).
  unfold runSearch at 1. rewrite fold_left_app. fold (runSearch (events ++ [StopSearch])). fold s.
  clear Hs Hr Hres. induction Hmore as [|e more [c [y ->]] _ IH]; [reflexivity|].
  cbn [fold_left searchStep]. rewrite fireTimer_no_timers by exact Ht. exact IH.
Qed.

(** X19: after a change of type or view the results are empty, no request
    is tracked, nothing is loading and no timer is pending; timers firing
    afterwards change nothing, so the cleared results stay cleared. *)
Theorem resetSearch_settles (events more : list SearchEvent) :
  Forall (fun e => exists c y, e = TimerFires c y) more ->
  let s := runSearch (events ++ [ResetView]) in
  abortControllerRef s = None /\ loading s = false /\ pendingTimers s = [] /\
  searchResults s = emptyResults /\
  runSearch (events ++ ResetView :: more) = s.
Proof.
  intros Hmore s.
  pose proof (SearchInv_run events) as Hinv.
  assert (Hs : s = resetSearch (runSearch events))
    by (unfold s, runSearch; rewrite fold_left_app; reflexivity).
  assert (Href : abortControllerRef s = None /\ pendingTimers s = [] /\
                 searchResults s = emptyResults).
  { rewrite Hs. unfold resetSearch. cbn [abortControllerRef].
    destruct (abortControllerRef (runSearch events)) as [c|] eqn:Hr.
    - unfold rejectContinuation. cbn [isCurrent abortControllerRef].
      cbn [pendingTimers searchResults abortController].
      rewrite (SearchInv_timers_current events _ c Hinv Hr). auto.
    - cbn [pendingTimers searchResults abortControllerRef].
      rewrite (SearchInv_timers_idle events _ Hinv Hr). auto. }
  destruct Href as [Hr [Ht Hres]].
  split; [exact Hr|]. split; [apply runSearch_idle_not_loading; exact Hr|].
  split; [exact Ht|]. split; [exact Hres|].
  replace (events ++ ResetView :: more) with ((events ++ [ResetView]) ++ more)
    by (rewrite <- app_assoc; reflexivity).
  unfold runSearch at 1. rewrite fold_left_app. fold (runSearch (events ++ [ResetView])). fold s.
  clear Hs Hr Hres. induction Hmore as [|e more [c [y ->]] _ IH]; [reflexivity|].
  cbn [fold_left searchStep]. rewrite fireTimer_no_timers by exact Ht. exact IH.
Qed.

Lemma arraySort_all_equal {A} (cmp : A -> A -> option Z) (l : list A) :
  (forall a b, In a l -> In b l -> sortCompare (cmp a b) = 0) -> arraySort cmp l = l.
Proof.
  induction l as [|x l IH]; intros H; [reflexivity|]. cbn [arraySort].
  rewrite IH by (intros a b Ha Hb; apply H; right; assumption).
  destruct l as [|y l]; [reflexivity|]. cbn [insertBy].
  rewrite (H x y (or_introl eq_refl) (or_intror (or_introl eq_refl))). reflexivity.
Qed.

(** X20: when every two items compare equal (NaN counts as equal, as with
    invalid dates), [getSortedItems] keeps the library order in both
    directions. *)
Theorem getSortedItems_ties_keep_order (getTime : jsstring -> option Z)
    (localeCompare : jsstring -> jsstring -> Z) (sortCriteria : SortCriteria)
    (sortOrder : SortOrder) (l : list MediaItem.t) :
  (forall a b, In a l -> In b l -> sortCompare (comparison getTime localeCompare sortCriteria a b) = 0) ->
  getSortedItems getTime localeCompare sortCriteria sortOrder l = l.
Proof.
  intros H. unfold getSortedItems. apply arraySort_all_equal.
  intros a b Ha Hb. unfold sortComparator. destruct sortOrder; [apply H; assumption|].
  specialize (H a b Ha Hb). destruct (comparison _ _ _ a b); cbn in *; lia.
Qed.

Lemma allDistinct_NoDup (l : list jsstring) : allDistinct l = true -> NoDup l.
Proof.
  induction l as [|x l IH]; intros H; [constructor|]. cbn [allDistinct] in H.
  apply andb_true_iff in H as [H1 H2]. constructor; [|apply IH, H2].
  intros Hin. apply existsb_jseqb_In in Hin. rewrite Hin in H1. discriminate.
Qed.

Lemma notIn_existsb (x : jsstring) (s : list jsstring) :
  existsb (jseqb x) s = false -> ~ In x s.
Proof. intros H Hin. apply existsb_jseqb_In in Hin. congruence. Qed.

(* ------------------------------------------------------------------ *)
(** ** Further properties: instances on concrete pages *)

Lemma toggleSelection_spec_witness :
  let selectedIds := [js "dune-1"; js "emma-1"] in let x := js "sf-1" in
  NoDup selectedIds /\
  NoDup (toggleSelection selectedIds x) /\
  (forall y, In y (toggleSelection selectedIds x) <->
             (y <> x /\ In y selectedIds) \/ (y = x /\ ~ In x selectedIds)) /\
  (~ In x selectedIds -> toggleSelection (toggleSelection selectedIds x) x = selectedIds).
Proof.
  intros selectedIds x.
  assert (H : NoDup selectedIds) by (apply allDistinct_NoDup; vm_compute; reflexivity).
  split; [exact H|]. apply (toggleSelection_spec selectedIds x H).
Defined.

Lemma toggleSelectAll_selects_then_clears_witness :
  let selectedIds := [js "dune-1"] in let fi := items exampleShelf in
  NoDup (map MediaItem.id fi) /\ length selectedIds <> length fi /\
  toggleSelectAll selectedIds fi = map MediaItem.id fi /\
  toggleSelectAll (toggleSelectAll selectedIds fi) fi = [].
Proof.
  intros selectedIds fi.
  assert (H1 : NoDup (map MediaItem.id fi)) by (apply allDistinct_NoDup; vm_compute; reflexivity).
  assert (H2 : length selectedIds <> length fi) by (vm_compute; lia).
  split; [exact H1|]. split; [exact H2|].
  apply (toggleSelectAll_selects_then_clears selectedIds fi H1 H2).
Defined.

Lemma addToLibrary_then_delete_witness :
  let st := exampleShelf in
  ~ In (counterUUIDs (uuidSeed st)) (map MediaItem.id (items st)) /\
  items (handleDeleteItem (addToLibrary counterUUIDs (js "2024") st exampleResult (Some (js "sf-1")))
           (counterUUIDs (uuidSeed st))) = items st.
Proof.
  intros st.
  assert (H : ~ In (counterUUIDs (uuidSeed st)) (map MediaItem.id (items st)))
    by (apply notIn_existsb; vm_compute; reflexivity).
  split; [exact H|]. apply (addToLibrary_then_delete counterUUIDs (js "2024") st exampleResult _ H).
Defined.

Lemma handleRemoveFromSearch_needs_isAdded_witness :
  let st := exampleShelf in let r := exampleResult in
  isAdded (items st) r = false /\
  items (handleRemoveFromSearch st (SearchResult.title r) (SearchResult.creator r)
           (SearchResult.type r)) = items st.
Proof.
  intros st r. assert (H : isAdded (items st) r = false) by (vm_compute; reflexivity).
  split; [exact H|]. apply (handleRemoveFromSearch_needs_isAdded st r H).
Defined.

Lemma createCollection_then_delete_witness :
  let st := exampleShelf in
  exists id st1,
  handleCreateCollection counterUUIDs (js "2024") asciiToLowerCase st (js " Classics ") (js "Old books") BOOK
    = (Some id, st1) /\
  ~ In id (map UserCollection.id (userCollections st)) /\
  (forall i, In i (items st) -> ~ In id (MediaItem.collectionIds i)) /\
  userCollections (handleDeleteCollection st1 id) = userCollections st /\
  items (handleDeleteCollection st1 id) = items st.
Proof.
  intros st. do 2 eexists.
  assert (E : handleCreateCollection counterUUIDs (js "2024") asciiToLowerCase st (js " Classics ")
                (js "Old books") BOOK = (Some (counterUUIDs 0), snd (handleCreateCollection counterUUIDs
                (js "2024") asciiToLowerCase st (js " Classics ") (js "Old books") BOOK)))
    by (vm_compute; reflexivity).
  assert (H1 : ~ In (counterUUIDs 0) (map UserCollection.id (userCollections st)))
    by (apply notIn_existsb; vm_compute; reflexivity).
  assert (H2 : forall i, In i (items st) -> ~ In (counterUUIDs 0) (MediaItem.collectionIds i)).
  { intros i Hi. apply notIn_existsb. revert i Hi. apply Forall_forall.
    vm_compute. repeat constructor. }
  split; [exact E|]. split; [exact H1|]. split; [exact H2|].
  apply (createCollection_then_delete counterUUIDs (js "2024") asciiToLowerCase st _ _ _ _ _ E H1 H2).
Defined.

Lemma handleCreateAndAdd_spec_witness :
  let R := counterUUIDs in let now := js "2024" in let lower := asciiToLowerCase in
  let st := exampleShelf in let r := exampleResult in
  let name := js "Classics" in let description := js "Old books" in
  (forall n, R n <> []) /\
  let st' := handleCreateAndAdd R now lower st BOOK r name description in
  (items st' = items st /\ userCollections st' = userCollections st) \/
  (exists newItem,
     userCollections st' = userCollections st ++
       [UserCollection.mk (R (uuidSeed st)) (trim name) (Some description) BOOK now] /\
     items st' = newItem :: items st /\
     MediaItem.collectionIds newItem = [R (uuidSeed st)] /\
     MediaItem.type newItem = SearchResult.type r /\
     MediaItem.id newItem = R (S (uuidSeed st))).
Proof.
  intros R now lower st r name description.
  assert (H : forall n, R n <> []) by (intros n; unfold R, counterUUIDs; simpl; discriminate).
  split; [exact H|]. apply (handleCreateAndAdd_spec R now lower st BOOK r name description H).
Defined.

Lemma handleAddToCollectionFromLibrary_spec_witness :
  let st := exampleShelf in let a := js "sf-1" in let sel := [js "emma-1"; js "dune-1"] in
  truthy a = true /\
  let st' := handleAddToCollectionFromLibrary st (Some a) sel in
  userCollections st' = userCollections st /\
  items (handleAddToCollectionFromLibrary st' (Some a) sel) = items st' /\
  Forall2 (fun i i' =>
      withCollectionIds i' [] = withCollectionIds i [] /\
      (In (MediaItem.id i) sel -> In a (MediaItem.collectionIds i')) /\
      (forall x, In x (MediaItem.collectionIds i) -> In x (MediaItem.collectionIds i')) /\
      (forall x, In x (MediaItem.collectionIds i') -> In x (MediaItem.collectionIds i) \/ x = a) /\
      (NoDup (MediaItem.collectionIds i) -> NoDup (MediaItem.collectionIds i')))
    (items st) (items st') /\
  libraryPickerCandidates (items st') BOOK a =
  filter (fun i => negb (setHas sel (MediaItem.id i))) (libraryPickerCandidates (items st) BOOK a).
Proof.
  intros st a sel. assert (H : truthy a = true) by reflexivity.
  split; [exact H|]. apply (handleAddToCollectionFromLibrary_spec st a sel BOOK H).
Defined.

Lemma handleSaveCollection_keeps_titles_unique_witness :
  let lower := asciiToLowerCase in let st := exampleShelf in
  let active := Some (js "sf-1") in let title := js " Space Opera " in
  NoDup (map UserCollection.id (userCollections st)) /\
  (forall c, In c (userCollections st) -> Some (UserCollection.id c) = active ->
             UserCollection.type c = BOOK) /\
  NoDupTitles lower (userCollections st) /\
  let st' := handleSaveCollection lower st BOOK active title (js "Far future") in
  NoDupTitles lower (userCollections st') /\
  map UserCollection.id (userCollections st') = map UserCollection.id (userCollections st) /\
  map UserCollection.type (userCollections st') = map UserCollection.type (userCollections st) /\
  items st' = items st.
Proof.
  intros lower st active title.
  assert (H1 : NoDup (map UserCollection.id (userCollections st)))
    by (apply allDistinct_NoDup; vm_compute; reflexivity).
  assert (H2 : forall c, In c (userCollections st) -> Some (UserCollection.id c) = active ->
                 UserCollection.type c = BOOK).
  { intros c Hc. vm_compute in Hc. destruct Hc as [<-|[<-|[]]]; vm_compute; [reflexivity|].
    intros E. injection E. discriminate. }
  assert (H3 : NoDupTitles lower (userCollections st)).
  { intros i j c d Hij Hi Hj Ht.
    destruct i as [|[|i]]; destruct j as [|[|j]]; vm_compute in Hi, Hj;
      try (destruct i; discriminate); try (destruct j; discriminate); try lia;
      injection Hi as <-; injection Hj as <-; vm_compute in Ht; discriminate Ht. }
  split; [exact H1|]. split; [exact H2|]. split; [exact H3|].
  apply (handleSaveCollection_keeps_titles_unique lower st BOOK active title _ H1 H2 H3).
Defined.

Lemma handleAddMemory_then_delete_witness :
  let st := exampleShelf in
  let item := hd (MediaItem.mk [] [] None BOOK [] [] [] WANT_TO None None [] [] [] None None)
                 (items st) in
  let img := Some (js "data:image/png;base64,AAAA") in
  ~ In (js "mem-1") (map Memory.id (MediaItem.memories item)) /\
  (forall i, In i (items st) -> MediaItem.id i = MediaItem.id item -> i = item) /\
  handleAddMemory item (Some []) (js "First read") (js "Paris") (js "mem-1") (js "2024")
    = None /\
  handleAddMemory item img (js "First read") (js "Paris") (js "mem-1") (js "2024") <> None /\
  (forall added,
     handleAddMemory item img (js "First read") (js "Paris") (js "mem-1") (js "2024")
       = Some added ->
     handleDeleteMemory added (js "mem-1") = item /\
     MediaItem.memories added <> [] /\
     items (handleUpdateItem (handleUpdateItem st added) (handleDeleteMemory added (js "mem-1")))
       = items st).
Proof.
  intros st item img.
  assert (H1 : ~ In (js "mem-1") (map Memory.id (MediaItem.memories item)))
    by (apply notIn_existsb; vm_compute; reflexivity).
  assert (H2 : forall i, In i (items st) -> MediaItem.id i = MediaItem.id item -> i = item).
  { intros i Hi. vm_compute in Hi. destruct Hi as [<-|[<-|[]]]; [reflexivity|].
    vm_compute. intros E. discriminate. }
  split; [exact H1|]. split; [exact H2|]. split.
  { apply (proj1 (handleAddMemory_then_delete st item (Some []) _ _ _ _ H1 H2)).
    right. reflexivity. }
  pose proof (handleAddMemory_then_delete st item img (js "First read") (js "Paris")
                (js "mem-1") (js "2024") H1 H2) as [Hiff Hsome].
  split; [|exact Hsome].
  intros E. apply Hiff in E. destruct E as [E|E]; discriminate E.
Defined.

Lemma handlePreviewLink_bare_token_witness :
  let c := UserCollection.mk (js "sf-1") (js "Sci-Fi") None BOOK (js "2020") in
  let parseURL := fun _ : jsstring => @None (jsstring -> option jsstring) in
  exists token,
  encodeCollection c (items exampleShelf) (Some (js "Ann")) = Some token /\
  handlePreviewLink parseURL token =
  match decodeShareToken token with Some p => PreviewCollection p | None => PreviewInvalid end.
Proof.
  intros c parseURL. eexists. split; [vm_compute; reflexivity|].
  apply (handlePreviewLink_bare_token parseURL c (items exampleShelf) (Some (js "Ann"))).
  vm_compute. reflexivity.
Defined.

Lemma handlePreviewLink_share_link_witness :
  let c := UserCollection.mk (js "sf-1") (js "Sci-Fi") None BOOK (js "2020") in
  let parseURL := fun _ : jsstring => @None (jsstring -> option jsstring) in
  let origin := js "https://shelf.example" in let pathname := js "/app/" in
  exists token,
  generateShareToken (items exampleShelf) c false (js " Ann ") = Some token /\
  Forall (fun x => isJsWhiteSpace x = false) (origin ++ pathname) /\
  ~ In 61 (origin ++ pathname) /\
  (forall get, parseURL (shareLinkURL origin pathname token) = Some get ->
               get (js "share") = Some token) /\
  handlePreviewLink parseURL (shareLinkURL origin pathname token) =
  match decodeShareToken token with Some p => PreviewCollection p | None => PreviewInvalid end.
Proof.
  intros c parseURL origin pathname. eexists. split; [vm_compute; reflexivity|].
  assert (H1 : Forall (fun x => isJsWhiteSpace x = false) (origin ++ pathname))
    by (vm_compute; repeat constructor).
  assert (H2 : ~ In 61 (origin ++ pathname)) by (vm_compute; lia).
  split; [exact H1|]. split; [exact H2|]. split; [intros get Hg; discriminate Hg|].
  apply (handlePreviewLink_share_link parseURL (items exampleShelf) c false (js " Ann ")
           origin pathname); [vm_compute; reflexivity|exact H1|exact H2|].
  intros get Hg. discriminate Hg.
Defined.

Lemma handleStopSearch_settles_witness :
  let events := [Search (js "dune") BOOK] in
  let more := [TimerFires 0 (js "2026"); TimerFires 1 (js "2026")] in
  Forall (fun e => exists c y, e = TimerFires c y) more /\
  let s := runSearch (events ++ [StopSearch]) in
  abortControllerRef s = None /\ loading s = false /\ pendingTimers s = [] /\
  searchResults s = searchResults (runSearch events) /\
  runSearch (events ++ StopSearch :: more) = s.
Proof.
  intros events more.
  assert (H : Forall (fun e => exists c y, e = TimerFires c y) more)
    by (repeat constructor; do 2 eexists; reflexivity).
  split; [exact H|]. apply (handleStopSearch_settles events more H).
Defined.

Lemma resetSearch_settles_witness :
  let events := [Search (js "dune") BOOK; TimerFires 0 (js "2026"); Search (js "emma") BOOK] in
  let more := [TimerFires 1 (js "2026")] in
  Forall (fun e => exists c y, e = TimerFires c y) more /\
  let s := runSearch (events ++ [ResetView]) in
  abortControllerRef s = None /\ loading s = false /\ pendingTimers s = [] /\
  searchResults s = emptyResults /\
  runSearch (events ++ ResetView :: more) = s.
Proof.
  intros events more.
  assert (H : Forall (fun e => exists c y, e = TimerFires c y) more)
    by (repeat constructor; do 2 eexists; reflexivity).
  split; [exact H|]. apply (resetSearch_settles events more H).
Defined.

Lemma getSortedItems_ties_keep_order_witness :
  let getTime := fun _ : jsstring => @None Z in
  let l := items exampleShelf in
  (forall a b, In a l -> In b l ->
     sortCompare (comparison getTime codeUnitCompare DATE a b) = 0) /\
  getSortedItems getTime codeUnitCompare DATE DESC l = l.
Proof.
  intros getTime l.
  assert (H : forall a b, In a l -> In b l ->
                sortCompare (comparison getTime codeUnitCompare DATE a b) = 0)
    by (intros a b _ _; reflexivity).
  split; [exact H|]. apply (getSortedItems_ties_keep_order getTime codeUnitCompare DATE DESC l H).
Defined.
